(** * RemoteCLIP analyzer: land-use classification and temporal change detection

    A shallow embedding of [backend/src/analysis/remoteclip_analyzer.py].

    Numbers.  A tensor entry (float32) or a Python float (binary64) is a
    value of [fnum]: a real number, or one of the IEEE 754 special values
    [PInf], [NInf] and [NaN]; the two zeros are one value (the program never
    divides by a negative zero: its divisors are norms and softmax sums).
    The arithmetic is a parameter, [float_ops]: addition, multiplication,
    division, square root and exponential as the tensor library computes
    them in float32, with rounding, overflow and underflow, and the
    subtraction and multiplication of Python floats.  Of these operations
    only what IEEE 754 fixes for every format is assumed, in [ieee754]: NaN
    propagates, a number minus itself is zero, infinity minus infinity and
    zero divided by zero are NaN, zero plus or times zero and the square
    root of zero are zero, multiplication commutes.  The accuracy of
    softmax, and nothing else, rests in addition on the standard model of
    rounding, [rounding]: a rounded result keeps the order of the exact
    one and differs from it by a relative error of at most the unit
    roundoff.  The clauses are written for every real number; the program
    forms only numbers of the format, and an arithmetic that rounds those
    and is exact on the others satisfies each clause.  Comparisons are
    exact in IEEE 754 and are defined outright.  The exact operations on
    the extended reals, [exact_ops], are one arithmetic with these
    properties; the examples are run with it.

    Collaborators.  The open_clip model built by [initialize] is a value of
    type [clip_model]: an output dimension and, for every image path and
    every text, the coordinates of the raw (not yet normalised) output of
    the two towers.  Loading the weights and decoding an image are taken to
    succeed.  [torch.topk] is a parameter constrained by [topk_contract],
    which fixes what PyTorch documents (the k largest entries, in descending
    order, with their indices, NaN ranked above every number) and nothing
    about the order of equal entries. *)

From Stdlib Require Import Reals Lra Lia ZArith String List Bool Arith.
From Stdlib Require Import Permutation Sorted DecimalString.
Import ListNotations.

Local Open Scope string_scope.
Local Open Scope list_scope.
Local Open Scope R_scope.

(** ** Extended floating-point values *)

Inductive fnum : Type :=
| Fin (r : R)
| PInf
| NInf
| NaN.

Definition fneg (x : fnum) : fnum :=
  match x with
  | Fin a => Fin (- a)
  | PInf => NInf
  | NInf => PInf
  | NaN => NaN
  end.

(** IEEE comparisons: false as soon as one side is [NaN]. *)
Definition flt (x y : fnum) : bool :=
  match x, y with
  | NaN, _ | _, NaN => false
  | Fin a, Fin b => if Rlt_dec a b then true else false
  | Fin _, PInf | NInf, Fin _ | NInf, PInf => true
  | Fin _, NInf | PInf, _ | NInf, NInf => false
  end.

Definition fle (x y : fnum) : bool :=
  match x, y with
  | NaN, _ | _, NaN => false
  | Fin a, Fin b => if Rle_dec a b then true else false
  | Fin _, PInf | PInf, PInf | NInf, _ => true
  | Fin _, NInf | PInf, Fin _ | PInf, NInf => false
  end.

Definition is_nan (x : fnum) : bool :=
  match x with NaN => true | _ => false end.

(** The maximum used by reductions: a [NaN] operand wins. *)
Definition fmax (x y : fnum) : fnum :=
  if is_nan x then NaN
  else if is_nan y then NaN
  else if flt x y then y else x.

Definition is_finite (x : fnum) : bool :=
  match x with Fin _ => true | _ => false end.

(** The number a finite value stands for. *)
Definition value (x : fnum) : R :=
  match x with Fin r => r | _ => 0 end.


Local Close Scope R_scope.

(** ** Floating-point operations

    [fadd], [fmul], [fdiv], [fsqrt] and [fexp] are the float32 operations
    behind [+], [-], [*], [/], [@], [norm] and [softmax] on tensors;
    [py_sub] and [py_mul] are [-] and [*] on Python floats, as in
    [1 - overall_similarity] and in the percentages of the report. *)

Class float_ops : Type := {
  fadd : fnum -> fnum -> fnum;
  fmul : fnum -> fnum -> fnum;
  fdiv : fnum -> fnum -> fnum;
  fsqrt : fnum -> fnum;
  fexp : fnum -> fnum;
  py_sub : fnum -> fnum -> fnum;
  py_mul : fnum -> fnum -> fnum
}.

Section Tensors.

Context {fl : float_ops}.

(** In IEEE 754 [x - y] is [x + (-y)]. *)
Definition fsub (x y : fnum) : fnum := fadd x (fneg y).

(** ** Tensors and the torch operations the analyzer calls

    A tensor of shape [[1, d]] or [[d]] is the list of its [d] entries; a
    tensor of shape [[n, d]] is the list of its [n] rows.  A reduction (sum,
    dot product, norm) applies the float32 operations entry by entry, in
    index order. *)

Definition tensor := list fnum.

Definition zip_with {A B C : Type} (f : A -> B -> C) (xs : list A) (ys : list B) : list C :=
  map (fun p => f (fst p) (snd p)) (combine xs ys).

(** [x.sum()] *)
Definition tsum (xs : tensor) : fnum := fold_right fadd (Fin 0) xs.

(** [x + y], [x - y] on tensors of one shape; [x * s], [x / s] with a scalar. *)
Definition tadd (xs ys : tensor) : tensor := zip_with fadd xs ys.
Definition tsub (xs ys : tensor) : tensor := zip_with fsub xs ys.
Definition tscale (xs : tensor) (s : fnum) : tensor := map (fun x => fmul x s) xs.
Definition tdiv (xs : tensor) (s : fnum) : tensor := map (fun x => fdiv x s) xs.

(** [(x @ y.T).item()] for two rows [x], [y]. *)
Definition dot (xs ys : tensor) : fnum := tsum (zip_with fmul xs ys).

(** [(x @ rows.T).squeeze(0)]: one dot product per row. *)
Definition matvec (xs : tensor) (rows : list tensor) : tensor := map (dot xs) rows.

(** [x.norm(dim=-1, keepdim=True)] *)
Definition norm (xs : tensor) : fnum := fsqrt (tsum (map (fun x => fmul x x) xs)).

(** [x / x.norm(dim=-1, keepdim=True)] *)
Definition normalize (xs : tensor) : tensor := tdiv xs (norm xs).

Definition tmax (xs : tensor) : fnum := fold_right fmax NInf xs.

(** [torch.softmax(x, dim=0)]: the entries are shifted by their maximum,
    exponentiated and divided by their sum. *)
Definition softmax (xs : tensor) : tensor :=
  let m := tmax xs in
  let es := map (fun x => fexp (fsub x m)) xs in
  tdiv es (tsum es).

End Tensors.

(** ** Python values: exceptions, indexing, truthiness *)

Inductive exn : Type :=
| ValueError (msg : string)
| RuntimeError (msg : string)
| IndexError (msg : string)
| TypeError (msg : string).

Definition result (A : Type) : Type := (exn + A)%type.

(** [l[i]] with Python's negative indices. *)
Definition getitem {A : Type} (l : list A) (i : Z) : result A :=
  let n := Z.of_nat (length l) in
  let j := if (i <? 0)%Z then (i + n)%Z else i in
  if (j <? 0)%Z then inl (IndexError "list index out of range")
  else match nth_error l (Z.to_nat j) with
       | Some x => inr x
       | None => inl (IndexError "list index out of range")
       end.

(** [dates[i] if dates else None]: [None] and the empty list are falsy. *)
Definition date_at (dates : option (list string)) (i : Z) : result (option string) :=
  match dates with
  | None | Some [] => inr None
  | Some ds =>
      match getitem ds i with
      | inl e => inl e
      | inr d => inr (Some d)
      end
  end.

(** ** torch.topk

    [topk xs k] stands for [xs.topk(k)] on a one-dimensional tensor and
    returns the values and their indices.  The order [tge] is the one
    PyTorch sorts by: NaN above every number. *)

Definition tge (x y : fnum) : bool :=
  if is_nan x then true
  else if is_nan y then false
  else fle y x.

Fixpoint sorted_by {A : Type} (r : A -> A -> bool) (l : list A) : bool :=
  match l with
  | [] => true
  | x :: tl =>
      match tl with
      | [] => true
      | y :: _ => r x y && sorted_by r tl
      end
  end.

Definition topk_fn : Type := tensor -> Z -> result (tensor * list nat).

Record topk_contract (topk : topk_fn) : Prop := {
  topk_range_error : forall xs k,
    (k < 0 \/ Z.of_nat (length xs) < k)%Z ->
    topk xs k = inl (RuntimeError "selected index k out of range");
  topk_returns : forall xs k,
    (0 <= k <= Z.of_nat (length xs))%Z ->
    exists vals idxs, topk xs k = inr (vals, idxs);
  topk_length : forall xs k vals idxs,
    topk xs k = inr (vals, idxs) -> Z.of_nat (length idxs) = k;
  topk_values : forall xs k vals idxs,
    topk xs k = inr (vals, idxs) ->
    map (fun i => nth_error xs i) idxs = map Some vals;
  topk_distinct : forall xs k vals idxs,
    topk xs k = inr (vals, idxs) -> NoDup idxs;
  topk_sorted : forall xs k vals idxs,
    topk xs k = inr (vals, idxs) -> sorted_by tge vals = true;
  topk_largest : forall xs k vals idxs i x v,
    topk xs k = inr (vals, idxs) ->
    nth_error xs i = Some x -> ~ In i idxs -> In v vals -> tge v x = true
}.

(** ** The embedding model

    [encode_image m path] is [model.encode_image] applied to the
    preprocessed image read from [path]; [encode_text m text] is the row of
    [model.encode_text] for one tokenised text.  Both towers of one model
    emit [embed_dim] coordinates. *)

Record clip_model : Type := {
  embed_dim : nat;
  visual : string -> nat -> R;
  textual : string -> nat -> R
}.

Definition encode_image (m : clip_model) (path : string) : tensor :=
  map (fun j => Fin (visual m path j)) (seq 0 (embed_dim m)).

Definition encode_text (m : clip_model) (text : string) : tensor :=
  map (fun j => Fin (textual m text j)) (seq 0 (embed_dim m)).

(** ** Catalogs *)

Definition LAND_USE_CATEGORIES : list string := [
  "urban area with buildings and roads";
  "residential neighborhood with houses";
  "industrial zone with factories";
  "commercial district with shops";
  "agricultural land with crops";
  "farmland with fields";
  "dense forest";
  "sparse vegetation";
  "grassland and meadows";
  "water body like lake or river";
  "ocean or sea";
  "wetland or marsh";
  "desert or barren land";
  "snow or ice covered area";
  "construction site";
  "airport with runways";
  "port or harbor";
  "solar farm";
  "parking lot";
  "sports facility or stadium"
].

Definition CHANGE_DESCRIPTIONS : list string := [
  "new construction and urban development";
  "deforestation and vegetation loss";
  "reforestation and vegetation growth";
  "urban expansion";
  "agricultural expansion";
  "water level changes";
  "infrastructure development";
  "industrial development";
  "natural disaster damage";
  "land degradation";
  "coastal erosion";
  "flooding";
  "drought effects";
  "seasonal vegetation changes";
  "no significant changes"
].

(** ** Analyzer objects and the results they return *)

Record RemoteCLIPAnalyzer : Type := {
  model_name : string;
  device : string;
  model : option clip_model;
  _initialized : bool
}.

Record land_use : Type := {
  category : string;
  confidence : fnum
}.

Record change : Type := {
  description : string;
  change_confidence : fnum
}.

Record comparison : Type := {
  similarity : fnum;
  change_detected : bool;
  image1_classification : land_use;
  image2_classification : land_use
}.

Record change_analysis : Type := {
  overall_similarity : fnum;
  change_magnitude : fnum;
  detected_changes : list change
}.

Record image_classification : Type := {
  index : Z;
  date : option string;
  classification : list land_use
}.

Record pairwise_change : Type := {
  from_index : Z;
  to_index : Z;
  from_date : option string;
  to_date : option string;
  analysis : change_analysis
}.

Record transition : Type := {
  transition_from : string;
  transition_to : string;
  same_category : bool
}.

Record trend : Type := {
  total_change_magnitude : fnum;
  primary_changes : list change;
  land_use_transition : transition
}.

Record temporal_analysis : Type := {
  num_images : Z;
  dates : option (list string);
  individual_classifications : list image_classification;
  pairwise_changes : list pairwise_change;
  overall_trend : option trend
}.

(** ** Methods: a state and exception monad over the object and its calls

    A method runs on a [session]: the fields of [self] and the log of the
    calls made to the collaborators.  A raised exception keeps the state
    reached so far. *)

Inductive event : Type :=
| LoadModel (name : string)
| EncodeImage (path : string)
| EncodeTexts (texts : list string).

Record session : Type := {
  self : RemoteCLIPAnalyzer;
  calls : list event
}.

Definition M (A : Type) : Type := session -> result A * session.

Definition ret {A : Type} (a : A) : M A := fun s => (inr a, s).

Definition raise {A : Type} (e : exn) : M A := fun s => (inl e, s).

Definition bind {A B : Type} (c : M A) (k : A -> M B) : M B :=
  fun s =>
    match c s with
    | (inl e, s') => (inl e, s')
    | (inr a, s') => k a s'
    end.

Definition lift {A : Type} (r : result A) : M A :=
  match r with
  | inl e => raise e
  | inr a => ret a
  end.

Definition get_self : M RemoteCLIPAnalyzer := fun s => (inr (self s), s).

Definition emit (e : event) : M unit :=
  fun s => (inr tt, {| self := self s; calls := calls s ++ [e] |}).

Declare Scope monad_scope.
Delimit Scope monad_scope with monad.
Notation "x <- c ;; k" := (bind c (fun x => k))
  (at level 61, c at next level, right associativity) : monad_scope.
Notation "' pat <- c ;; k" := (bind c (fun x => match x with pat => k end))
  (at level 61, pat pattern, c at next level, right associativity) : monad_scope.
Notation "c ;;; k" := (bind c (fun _ => k))
  (at level 61, right associativity) : monad_scope.
Local Open Scope monad_scope.

(** A [for] loop that appends one result per element. *)
Fixpoint for_each {A B : Type} (xs : list A) (body : A -> M B) : M (list B) :=
  match xs with
  | [] => ret []
  | x :: tl =>
      b <- body x ;;
      bs <- for_each tl body ;;
      ret (b :: bs)
  end.

(** [enumerate(l)] and [range(n)] *)
Definition enumerate {A : Type} (l : list A) : list (Z * A) :=
  combine (map Z.of_nat (seq 0 (length l))) l.

Definition range (n : Z) : list Z :=
  map Z.of_nat (seq 0 (Z.to_nat n)).

Section Analyzer.

(** [open_clip name] is the model that [create_model_and_transforms],
    [get_tokenizer] and the RemoteCLIP checkpoint give for [name]. *)
Variable open_clip : string -> clip_model.
Variable cuda_is_available : bool.
Variable topk : topk_fn.
Context {fl : float_ops}.

Definition __init__ (name : string) (dev : option string) : RemoteCLIPAnalyzer :=
  let auto := if cuda_is_available then "cuda" else "cpu" in
  {| model_name := name;
     device := match dev with
               | None | Some "" => auto
               | Some d => d
               end;
     model := None;
     _initialized := false |}.

Definition set_model (m : clip_model) : M unit :=
  fun s => (inr tt, {| self := {| model_name := model_name (self s);
                                  device := device (self s);
                                  model := Some m;
                                  _initialized := _initialized (self s) |};
                       calls := calls s |}).

Definition set_initialized (b : bool) : M unit :=
  fun s => (inr tt, {| self := {| model_name := model_name (self s);
                                  device := device (self s);
                                  model := model (self s);
                                  _initialized := b |};
                       calls := calls s |}).

Definition initialize : M unit :=
  a <- get_self ;;
  if _initialized a then ret tt
  else
    emit (LoadModel (model_name a)) ;;;
    set_model (open_clip (model_name a)) ;;;
    set_initialized true.

(** [if not self._initialized: self.initialize()] *)
Definition ensure_initialized : M unit :=
  a <- get_self ;;
  if negb (_initialized a) then initialize else ret tt.

Definition _encode_image (image_path : string) : M tensor :=
  a <- get_self ;;
  match model a with
  | None => raise (TypeError "'NoneType' object is not callable")
  | Some m =>
      emit (EncodeImage image_path) ;;;
      let image_features := encode_image m image_path in
      ret (normalize image_features)
  end.

Definition _encode_texts (texts : list string) : M (list tensor) :=
  a <- get_self ;;
  match model a with
  | None => raise (TypeError "'NoneType' object is not callable")
  | Some m =>
      emit (EncodeTexts texts) ;;;
      let text_features := map (encode_text m) texts in
      ret (map normalize text_features)
  end.

Definition classify_land_use (image_path : string) (top_k : Z) : M (list land_use) :=
  ensure_initialized ;;;
  image_features <- _encode_image image_path ;;
  text_features <- _encode_texts LAND_USE_CATEGORIES ;;
  let similarity := matvec image_features text_features in
  let probs := softmax (tscale similarity (Fin 100)) in
  ' (top_probs, top_indices) <- lift (topk probs top_k) ;;
  for_each (combine top_probs top_indices) (fun pi =>
    cat <- lift (getitem LAND_USE_CATEGORIES (Z.of_nat (snd pi))) ;;
    ret {| category := cat; confidence := fst pi |}).

(** The threshold is the Python float written [0.85].  It is less than
    3e-17 away from the real number 0.85 and no float32 number lies between
    the two, so a similarity is below the one exactly when it is below the
    other. *)
Definition compare_images (image1_path image2_path : string) : M comparison :=
  ensure_initialized ;;;
  features1 <- _encode_image image1_path ;;
  features2 <- _encode_image image2_path ;;
  let similarity := dot features1 features2 in
  classes1 <- classify_land_use image1_path 1 ;;
  class1 <- lift (getitem classes1 0) ;;
  classes2 <- classify_land_use image2_path 1 ;;
  class2 <- lift (getitem classes2 0) ;;
  let change_detected :=
    flt similarity (Fin 0.85) || negb (String.eqb (category class1) (category class2)) in
  ret {| similarity := similarity;
         change_detected := change_detected;
         image1_classification := class1;
         image2_classification := class2 |}.

Definition detect_changes (image1_path image2_path : string) (top_k : Z) : M change_analysis :=
  ensure_initialized ;;;
  features1 <- _encode_image image1_path ;;
  features2 <- _encode_image image2_path ;;
  let diff_features := tsub features2 features1 in
  let diff_features := tdiv diff_features (norm diff_features) in
  let change_texts := map (fun desc => "This area shows " ++ desc)%string CHANGE_DESCRIPTIONS in
  text_features <- _encode_texts change_texts ;;
  let combined_features := tadd features2 (tscale diff_features (Fin 0.5)) in
  let combined_features := tdiv combined_features (norm combined_features) in
  let similarity := matvec combined_features text_features in
  let probs := softmax (tscale similarity (Fin 100)) in
  ' (top_probs, top_indices) <- lift (topk probs top_k) ;;
  changes <- for_each (combine top_probs top_indices) (fun pi =>
    desc <- lift (getitem CHANGE_DESCRIPTIONS (Z.of_nat (snd pi))) ;;
    ret {| description := desc; change_confidence := fst pi |}) ;;
  let overall_similarity := dot features1 features2 in
  ret {| overall_similarity := overall_similarity;
         change_magnitude := py_sub (Fin 1) overall_similarity;
         detected_changes := changes |}.

Definition analyze_temporal_sequence (image_paths : list string)
    (dates : option (list string)) : M temporal_analysis :=
  ensure_initialized ;;;
  let len := Z.of_nat (length image_paths) in
  if (len <? 2)%Z then raise (ValueError "Need at least 2 images for temporal analysis")
  else
    individual <- for_each (enumerate image_paths) (fun ip =>
      features <- _encode_image (snd ip) ;;
      classification <- classify_land_use (snd ip) 2 ;;
      d <- lift (date_at dates (fst ip)) ;;
      ret {| index := fst ip; date := d; classification := classification |}) ;;
    pairwise <- for_each (range (len - 1)) (fun i =>
      path_i <- lift (getitem image_paths i) ;;
      path_j <- lift (getitem image_paths (i + 1)) ;;
      change_analysis <- detect_changes path_i path_j 3 ;;
      fd <- lift (date_at dates i) ;;
      td <- lift (date_at dates (i + 1)) ;;
      ret {| from_index := i; to_index := (i + 1)%Z;
             from_date := fd; to_date := td;
             analysis := change_analysis |}) ;;
    overall <-
      (if (2 <=? len)%Z then
         first_path <- lift (getitem image_paths 0) ;;
         last_path <- lift (getitem image_paths (-1)) ;;
         overall_change <- detect_changes first_path last_path 3 ;;
         first_item <- lift (getitem individual 0) ;;
         first_class <- lift (getitem (classification first_item) 0) ;;
         last_item <- lift (getitem individual (-1)) ;;
         last_class <- lift (getitem (classification last_item) 0) ;;
         ret (Some {| total_change_magnitude := change_magnitude overall_change;
                      primary_changes := detected_changes overall_change;
                      land_use_transition :=
                        {| transition_from := category first_class;
                           transition_to := category last_class;
                           same_category :=
                             String.eqb (category first_class) (category last_class) |} |})
       else ret None) ;;
    ret {| num_images := len;
           dates := dates;
           individual_classifications := individual;
           pairwise_changes := pairwise;
           overall_trend := overall |}.

End Analyzer.

(** ** The module-level singleton

    Objects live in a heap and are named by their position in it, so that
    "the same instance" is equality of references.  [_analyzer_instance] is
    the module global. *)

Record globals : Type := {
  heap : list RemoteCLIPAnalyzer;
  _analyzer_instance : option nat
}.

Definition initial_globals : globals :=
  {| heap := []; _analyzer_instance := None |}.

Definition deref (g : globals) (l : nat) : option RemoteCLIPAnalyzer :=
  nth_error (heap g) l.

Section Singleton.

Variable cuda_is_available : bool.

(** [RemoteCLIPAnalyzer(model_name)] bound to the global. *)
Definition construct (name : string) (g : globals) : nat * globals :=
  let l := length (heap g) in
  (l, {| heap := heap g ++ [__init__ cuda_is_available name None];
         _analyzer_instance := Some l |}).

(** A reference always names a live object; the lookup of a dangling one
    is given the fresh-instance branch. *)
Definition get_analyzer (name : string) (g : globals) : nat * globals :=
  match _analyzer_instance g with
  | None => construct name g
  | Some l =>
      match deref g l with
      | Some a =>
          if negb (String.eqb (model_name a) name) then construct name g
          else (l, g)
      | None => construct name g
      end
  end.

End Singleton.

(** Invariant of the global: it is unset or names a live object. *)
Definition globals_wf (g : globals) : Prop :=
  match _analyzer_instance g with
  | None => True
  | Some l => (l < length (heap g))%nat
  end.

(** ** Two selections that meet the contract of torch.topk

    Both sort the indexed entries by insertion and keep the first [k]; they
    differ only in where an entry goes among its equals. *)

Definition ranked : Type := (fnum * nat)%type.

Fixpoint insert_by (before : ranked -> ranked -> bool) (p : ranked) (l : list ranked) : list ranked :=
  match l with
  | [] => [p]
  | q :: tl => if before p q then p :: q :: tl else q :: insert_by before p tl
  end.

Definition sort_by (before : ranked -> ranked -> bool) (l : list ranked) : list ranked :=
  fold_right (insert_by before) [] l.

Definition topk_with (before : ranked -> ranked -> bool) : topk_fn :=
  fun xs k =>
    if ((k <? 0) || (Z.of_nat (length xs) <? k))%Z
    then inl (RuntimeError "selected index k out of range")
    else
      let top := firstn (Z.to_nat k) (sort_by before (combine xs (seq 0 (length xs)))) in
      inr (map fst top, map snd top).

Definition ranked_ge (p q : ranked) : Prop := tge (fst p) (fst q) = true.

(** Equal entries keep their index order. *)
Definition before_stable (p q : ranked) : bool := tge (fst p) (fst q).

(** Equal entries come out in reverse index order. *)
Definition before_reversed (p q : ranked) : bool := negb (tge (fst q) (fst p)).

Definition topk_stable : topk_fn := topk_with before_stable.
Definition topk_reversed : topk_fn := topk_with before_reversed.

(** ** Sessions *)

Definition log (s : session) (evs : list event) : session :=
  {| self := self s; calls := calls s ++ evs |}.

(** The state [initialize] leaves behind. *)
Definition loaded (open_clip : string -> clip_model) (s : session) : session :=
  if _initialized (self s) then s
  else {| self := {| model_name := model_name (self s);
                     device := device (self s);
                     model := Some (open_clip (model_name (self s)));
                     _initialized := true |};
          calls := calls s ++ [LoadModel (model_name (self s))] |}.

(** The model a session works with. *)
Definition session_model (open_clip : string -> clip_model) (s : session) : clip_model :=
  open_clip (model_name (self s)).

Definition ready (m : clip_model) (s : session) : Prop :=
  _initialized (self s) = true /\ model (self s) = Some m.

(** [_initialized] is only ever set together with [model]. *)
Definition session_wf (open_clip : string -> clip_model) (s : session) : Prop :=
  _initialized (self s) = true -> model (self s) = Some (session_model open_clip s).

Definition new_session (a : RemoteCLIPAnalyzer) : session :=
  {| self := a; calls := [] |}.

(** ** What the methods compute, as functions of the model *)

Section Denotations.

Context {fl : float_ops}.

Definition embedding (m : clip_model) (path : string) : tensor :=
  normalize (encode_image m path).

Definition text_embeddings (m : clip_model) (texts : list string) : list tensor :=
  map normalize (map (encode_text m) texts).

(** Lines 145 and 225: one similarity per candidate, times the temperature. *)
Definition scores (query : tensor) (candidates : list tensor) : tensor :=
  tscale (matvec query candidates) (Fin 100).

(** Lines 146 and 226: softmax over all the candidates. *)
Definition confidences (query : tensor) (candidates : list tensor) : tensor :=
  softmax (scores query candidates).

Definition land_use_scores (m : clip_model) (path : string) : tensor :=
  scores (embedding m path) (text_embeddings m LAND_USE_CATEGORIES).

Definition land_use_probs (m : clip_model) (path : string) : tensor :=
  confidences (embedding m path) (text_embeddings m LAND_USE_CATEGORIES).

Definition change_texts : list string :=
  map (fun desc => "This area shows " ++ desc)%string CHANGE_DESCRIPTIONS.

Definition unit_difference (m : clip_model) (path1 path2 : string) : tensor :=
  let d := tsub (embedding m path2) (embedding m path1) in
  tdiv d (norm d).

Definition change_query (m : clip_model) (path1 path2 : string) : tensor :=
  let c := tadd (embedding m path2) (tscale (unit_difference m path1 path2) (Fin 0.5)) in
  tdiv c (norm c).

Definition change_scores (m : clip_model) (path1 path2 : string) : tensor :=
  scores (change_query m path1 path2) (text_embeddings m change_texts).

Definition change_probs (m : clip_model) (path1 path2 : string) : tensor :=
  confidences (change_query m path1 path2) (text_embeddings m change_texts).

(** The loop over [zip(top_probs, top_indices)]. *)
Fixpoint label_all {A : Type} (catalog : list string) (mk : string -> fnum -> A)
    (pairs : list (fnum * nat)) : result (list A) :=
  match pairs with
  | [] => inr []
  | p :: tl =>
      match getitem catalog (Z.of_nat (snd p)) with
      | inl e => inl e
      | inr label =>
          match label_all catalog mk tl with
          | inl e => inl e
          | inr rest => inr (mk label (fst p) :: rest)
          end
      end
  end.

(** The entry built for one selected pair, for a valid index. *)
Definition labelled {A : Type} (catalog : list string) (mk : string -> fnum -> A)
    (p : fnum * nat) : A :=
  mk (nth (snd p) catalog EmptyString) (fst p).

Definition mk_land_use (label : string) (p : fnum) : land_use :=
  {| category := label; confidence := p |}.

Definition mk_change (label : string) (p : fnum) : change :=
  {| description := label; change_confidence := p |}.

Definition ranking {A : Type} (topk : topk_fn) (catalog : list string)
    (mk : string -> fnum -> A) (probs : tensor) (top_k : Z) : result (list A) :=
  match topk probs top_k with
  | inl e => inl e
  | inr (top_probs, top_indices) => label_all catalog mk (combine top_probs top_indices)
  end.

Definition classify_result (topk : topk_fn) (m : clip_model) (path : string) (top_k : Z)
    : result (list land_use) :=
  ranking topk LAND_USE_CATEGORIES mk_land_use (land_use_probs m path) top_k.

Definition detect_result (topk : topk_fn) (m : clip_model) (path1 path2 : string) (top_k : Z)
    : result change_analysis :=
  match ranking topk CHANGE_DESCRIPTIONS mk_change (change_probs m path1 path2) top_k with
  | inl e => inl e
  | inr changes =>
      let overall := dot (embedding m path1) (embedding m path2) in
      inr {| overall_similarity := overall;
             change_magnitude := py_sub (Fin 1) overall;
             detected_changes := changes |}
  end.

(** What [topk] guarantees of the values [vals] and indices [idxs] it
    selects from [probs]: [top_k] distinct positions, their entries, in
    descending order, none smaller than an entry left out. *)
Definition top_selection (probs : tensor) (top_k : Z) (vals : tensor) (idxs : list nat) : Prop :=
  Z.of_nat (length idxs) = top_k /\
  NoDup idxs /\
  map (fun i => nth_error probs i) idxs = map Some vals /\
  sorted_by tge vals = true /\
  (forall i x v, nth_error probs i = Some x -> ~ In i idxs -> In v vals -> tge v x = true).

(** ** What [analyze_temporal_sequence] promises for each entry *)

(** The contract on [dates]: absent, empty, or one date per image. *)
Definition dates_ok (dates : option (list string)) (n : nat) : Prop :=
  match dates with
  | None | Some [] => True
  | Some ds => (n <= length ds)%nat
  end.

Definition individual_entry (topk : topk_fn) (m : clip_model) (dates : option (list string))
    (ip : Z * string) (entry : image_classification) : Prop :=
  index entry = fst ip /\
  classify_result topk m (snd ip) 2 = inr (classification entry) /\
  date_at dates (fst ip) = inr (date entry).

Definition pairwise_entry (topk : topk_fn) (m : clip_model) (image_paths : list string)
    (dates : option (list string)) (i : Z) (entry : pairwise_change) : Prop :=
  from_index entry = i /\
  to_index entry = (i + 1)%Z /\
  date_at dates i = inr (from_date entry) /\
  date_at dates (i + 1) = inr (to_date entry) /\
  exists path_i path_j,
    nth_error image_paths (Z.to_nat i) = Some path_i /\
    nth_error image_paths (S (Z.to_nat i)) = Some path_j /\
    detect_result topk m path_i path_j 3 = inr (analysis entry).

Definition trend_entry (topk : topk_fn) (m : clip_model) (image_paths : list string)
    (t : trend) : Prop :=
  exists first_path last_path overall_change first_class last_class rest1 rest2,
    nth_error image_paths 0 = Some first_path /\
    nth_error image_paths (length image_paths - 1) = Some last_path /\
    detect_result topk m first_path last_path 3 = inr overall_change /\
    classify_result topk m first_path 2 = inr (first_class :: rest1) /\
    classify_result topk m last_path 2 = inr (last_class :: rest2) /\
    total_change_magnitude t = change_magnitude overall_change /\
    primary_changes t = detected_changes overall_change /\
    land_use_transition t =
      {| transition_from := category first_class;
         transition_to := category last_class;
         same_category := String.eqb (category first_class) (category last_class) |}.

End Denotations.

(** ** Sums and norms over the reals *)

Definition rsum (l : list R) : R := fold_right Rplus 0%R l.
Definition rdot (a b : list R) : R := rsum (zip_with Rmult a b).
Definition rsumsq (a : list R) : R := rsum (map (fun x => (x * x)%R) a).
Definition rsoftmax (l : list R) : list R :=
  map (fun x => (exp x / rsum (map exp l))%R) l.

Definition rnormalize (l : list R) : list R :=
  map (fun x => (x / sqrt (rsumsq l))%R) l.

Definition all_nan (xs : tensor) : Prop := Forall (fun x => x = NaN) xs.

Definition in_unit_interval (x : fnum) : Prop :=
  exists r, x = Fin r /\ (0 <= r <= 1)%R.

Definition descending (l : list fnum) : bool := sorted_by (fun x y => fle y x) l.

(** ** A small model for the examples: two coordinates, the image "north"
    along the first axis, every other image along the second, and every
    text along the first. *)

Definition example_clip (name : string) : clip_model :=
  {| embed_dim := 2;
     visual := fun path j =>
       if String.eqb path "north"
       then (match j with O => 1%R | _ => 0%R end)
       else (match j with O => 0%R | _ => 1%R end);
     textual := fun _ j => match j with O => 1%R | _ => 0%R end |}.

Definition example_session : session :=
  new_session (__init__ false "ViT-B-32" None).

(** ** Further notions used to describe the methods *)

(** Duplicate-free lists of labels, as a test. *)
Fixpoint distinct_labels (l : list string) : bool :=
  match l with
  | [] => true
  | x :: tl => negb (existsb (String.eqb x) tl) && distinct_labels tl
  end.

Definition is_image_call (e : event) : bool :=
  match e with EncodeImage _ => true | _ => false end.

Definition is_text_call (e : event) : bool :=
  match e with EncodeTexts _ => true | _ => false end.

Definition is_load (e : event) : bool :=
  match e with LoadModel _ => true | _ => false end.

Definition count_calls (f : event -> bool) (evs : list event) : nat :=
  length (filter f evs).

(** The calls one classification, one change detection and one whole
    sequence analysis make once the model is loaded. *)
Definition classify_calls (path : string) : list event :=
  [EncodeImage path; EncodeTexts LAND_USE_CATEGORIES].

Definition detect_calls (path1 path2 : string) : list event :=
  [EncodeImage path1; EncodeImage path2; EncodeTexts change_texts].

Definition compare_calls (path1 path2 : string) : list event :=
  [EncodeImage path1; EncodeImage path2] ++ classify_calls path1 ++ classify_calls path2.

Definition individual_calls (path : string) : list event :=
  EncodeImage path :: classify_calls path.

Fixpoint consecutive {A : Type} (l : list A) : list (A * A) :=
  match l with
  | x :: ((y :: _) as tl) => (x, y) :: consecutive tl
  | _ => []
  end.

Definition analyze_calls (image_paths : list string) : list event :=
  concat (map individual_calls image_paths)
  ++ concat (map (fun pq => detect_calls (fst pq) (snd pq)) (consecutive image_paths))
  ++ match image_paths with
     | [] => []
     | first :: _ => detect_calls first (last image_paths first)
     end.

(** ** The report

    [format_1f x] stands for Python's [format(x, ".1f")] on a float.  The
    argument of [generate_report] is an analysis as
    [analyze_temporal_sequence] builds it, so every key the function reads is
    present. *)

Definition string_of_Z (z : Z) : string := NilZero.string_of_int (Z.to_int z).

(** [s * n] on strings and ["\n"]. *)
Definition str_mul (s : string) (n : nat) : string := String.concat "" (repeat s n).

Definition newline : string := String (Ascii.ascii_of_nat 10) EmptyString.

(** [f"{x}"] for a value that is [None] or a string. *)
Definition str_of_optional (o : option string) : string :=
  match o with
  | None => "None"
  | Some d => d
  end.

(** Truthiness of a value that is [None] or a string. *)
Definition truthy (o : option string) : bool :=
  match o with
  | None | Some "" => false
  | Some _ => true
  end.

(** A loop that appends the lines of each element in turn. *)
Fixpoint collect_lines {A : Type} (f : A -> result (list string)) (l : list A)
    : result (list string) :=
  match l with
  | [] => inr []
  | x :: tl =>
      match f x with
      | inl e => inl e
      | inr ls =>
          match collect_lines f tl with
          | inl e => inl e
          | inr rest => inr (ls ++ rest)
          end
      end
  end.

Section Report.

Variable format_1f : fnum -> string.
Context {fl : float_ops}.

(** [f"{x*100:.1f}%"] *)
Definition percent (x : fnum) : string :=
  (format_1f (py_mul x (Fin 100)) ++ "%")%string.

Definition header_lines (ta : temporal_analysis) : list string :=
  [str_mul "=" 60;
   "GEOSPATIAL TEMPORAL ANALYSIS REPORT";
   "Powered by RemoteCLIP | IEEE TGRS 2024";
   str_mul "=" 60;
   ""]
  ++ match dates ta with
     | Some ((d0 :: _ :: _) as ds) =>
         [("📅 Analysis Period: " ++ d0 ++ " to " ++ last ds d0)%string]
     | _ => []
     end
  ++ [("🖼️ Images Analyzed: " ++ string_of_Z (num_images ta))%string; ""].

Definition item_lines (item : image_classification) : result (list string) :=
  let date_str :=
    if truthy (date item) then (" (" ++ str_of_optional (date item) ++ ")")%string else "" in
  match getitem (classification item) 0 with
  | inl e => inl e
  | inr top_class =>
      inr [("  Image " ++ string_of_Z (index item + 1) ++ date_str ++ ": "
            ++ category top_class ++ " (" ++ percent (confidence top_class) ++ ")")%string]
  end.

Definition change_lines (ch : pairwise_change) : result (list string) :=
  let from_date := str_of_optional (from_date ch) in
  let to_date := str_of_optional (to_date ch) in
  match getitem (detected_changes (analysis ch)) 0 with
  | inl e => inl e
  | inr top_change =>
      inr [("  " ++ from_date ++ " → " ++ to_date ++ ":")%string;
           ("    Change magnitude: " ++ percent (change_magnitude (analysis ch)))%string;
           ("    Primary change: " ++ description top_change
            ++ " (" ++ percent (change_confidence top_change) ++ ")")%string]
  end.

Definition key_change_line (c : change) : string :=
  ("    • " ++ description c ++ " (" ++ percent (change_confidence c) ++ ")")%string.

Definition trend_lines (t : trend) : list string :=
  let transition := land_use_transition t in
  ["📊 OVERALL TREND:"; str_mul "-" 40]
  ++ [if same_category transition
      then ("  Land use: Remained as " ++ transition_from transition)%string
      else ("  Land use transition: " ++ transition_from transition
            ++ " → " ++ transition_to transition)%string]
  ++ [("  Total change magnitude: " ++ percent (total_change_magnitude t))%string;
      "  Key changes detected:"]
  ++ map key_change_line (firstn 3 (primary_changes t)).

Definition report_lines (ta : temporal_analysis) : result (list string) :=
  match collect_lines item_lines (individual_classifications ta) with
  | inl e => inl e
  | inr items =>
      match collect_lines change_lines (pairwise_changes ta) with
      | inl e => inl e
      | inr changes =>
          inr (header_lines ta
               ++ ["📍 LAND USE CLASSIFICATION:"; str_mul "-" 40] ++ items ++ [""]
               ++ ["🔄 TEMPORAL CHANGES:"; str_mul "-" 40] ++ changes ++ [""]
               ++ match overall_trend ta with
                  | Some t => trend_lines t
                  | None => []
                  end
               ++ [""; str_mul "=" 60])
      end
  end.

Definition generate_report (ta : temporal_analysis) : result string :=
  match report_lines ta with
  | inl e => inl e
  | inr report_lines => inr (String.concat newline report_lines)
  end.

End Report.

(** The calls of the pairwise step for index [i]. *)
Definition pair_calls (image_paths : list string) (i : Z) : list event :=
  detect_calls (nth (Z.to_nat i) image_paths EmptyString)
               (nth (S (Z.to_nat i)) image_paths EmptyString).

(** Whether the report shows the analysis period. *)
Definition has_period (dates : option (list string)) : bool :=
  match dates with
  | Some (_ :: _ :: _) => true
  | _ => false
  end.

(** A formatter for the examples. *)
Definition example_format (x : fnum) : string :=
  match x with
  | NaN => "nan"
  | _ => "0.0"
  end.

(** A sequence of [get_analyzer] calls, returning the references in call
    order. *)
Fixpoint get_analyzer_calls (cuda_is_available : bool) (names : list string) (g : globals)
    : list nat * globals :=
  match names with
  | [] => ([], g)
  | name :: rest =>
      let (l, g1) := get_analyzer cuda_is_available name g in
      let (ls, g2) := get_analyzer_calls cuda_is_available rest g1 in
      (l :: ls, g2)
  end.

(** An analysis that [analyze_temporal_sequence] never builds: one image
    whose classification is empty. *)
Definition example_empty_classification : temporal_analysis :=
  {| num_images := 1;
     dates := None;
     individual_classifications := [{| index := 0; date := None; classification := [] |}];
     pairwise_changes := [];
     overall_trend := None |}.

(** ** What is assumed of the arithmetic

    Each clause holds of IEEE 754 arithmetic in every format and rounding
    to nearest, so of float32 tensors and of Python floats alike. *)

Record ieee754 (fl : float_ops) : Prop := {
  ieee_add_nan_l : forall y, fadd NaN y = NaN;
  ieee_add_nan_r : forall x, fadd x NaN = NaN;
  ieee_add_opposite : forall a, fadd (Fin a) (Fin (- a)) = Fin 0;
  ieee_add_infinities : fadd PInf NInf = NaN /\ fadd NInf PInf = NaN;
  ieee_add_zero : fadd (Fin 0) (Fin 0) = Fin 0;
  ieee_mul_nan_l : forall y, fmul NaN y = NaN;
  ieee_mul_nan_r : forall x, fmul x NaN = NaN;
  ieee_mul_zero : fmul (Fin 0) (Fin 0) = Fin 0;
  ieee_mul_comm : forall x y, fmul x y = fmul y x;
  ieee_div_nan_l : forall y, fdiv NaN y = NaN;
  ieee_div_nan_r : forall x, fdiv x NaN = NaN;
  ieee_div_zero_zero : fdiv (Fin 0) (Fin 0) = NaN;
  ieee_sqrt_nan : fsqrt NaN = NaN;
  ieee_sqrt_zero : fsqrt (Fin 0) = Fin 0;
  ieee_exp_nan : fexp NaN = NaN
}.

(** ** What is assumed of the rounding

    The standard model of floating-point arithmetic, for the operations
    that softmax applies to finite scores.  [u] is the unit roundoff and
    [eta] the largest error of a result that underflows; for float32 they
    are 2^-24 and 2^-150.  A difference of numbers in order is never
    positive (it is minus infinity when it overflows); the exponential of
    a number that is not positive lies in [0, 1], that of zero being 1 and
    that of minus infinity 0; a sum of non-negative numbers up to 100 is
    not below either of them and is rounded with a relative error of at
    most [u]; a quotient of 0 <= a <= b with 1 <= b lies in [0, 1] and is
    rounded with a relative error of at most [u] and an absolute error of
    at most [eta]. *)
Record rounding (fl : float_ops) (u eta : R) : Prop := {
  round_unit : (0 <= u <= 1 / 1000)%R;
  round_tiny : (0 <= eta)%R;
  round_sub : forall a b, (a <= b)%R ->
    fadd (Fin a) (Fin (- b)) = NInf \/
    exists d, fadd (Fin a) (Fin (- b)) = Fin d /\ (d <= 0)%R;
  round_exp : forall d, (d <= 0)%R ->
    exists e, fexp (Fin d) = Fin e /\ (0 <= e <= 1)%R;
  round_exp_zero : fexp (Fin 0) = Fin 1;
  round_exp_ninf : fexp NInf = Fin 0;
  round_add : forall a b, (0 <= a)%R -> (0 <= b)%R -> (a + b <= 100)%R ->
    exists r, fadd (Fin a) (Fin b) = Fin r /\ (a <= r)%R /\ (b <= r)%R /\
              ((a + b) * (1 - u) <= r <= (a + b) * (1 + u))%R;
  round_div : forall a b, (0 <= a <= b)%R -> (1 <= b)%R ->
    exists q, fdiv (Fin a) (Fin b) = Fin q /\ (0 <= q <= 1)%R /\
              (a / b * (1 - u) - eta <= q <= a / b * (1 + u) + eta)%R
}.

(** How far the sum of a softmax of [n] finite scores can be from 1: the
    [n] additions and the division each round by at most [u], and each of
    the [n] quotients may underflow by [eta]. *)
Definition softmax_tolerance (u eta : R) (n : nat) : R :=
  (Rmax ((1 + u) / (1 - u) ^ n - 1) (1 - (1 - u) / (1 + u) ^ n) + INR n * eta)%R.

(** ** Exact arithmetic

    The operations on the extended reals without rounding: finite values
    are added, multiplied and divided as real numbers, the special values
    are produced and propagated as IEEE 754 prescribes. *)

Local Open Scope R_scope.

Definition exact_add (x y : fnum) : fnum :=
  match x, y with
  | NaN, _ | _, NaN => NaN
  | Fin a, Fin b => Fin (a + b)
  | PInf, NInf | NInf, PInf => NaN
  | PInf, _ | _, PInf => PInf
  | NInf, _ | _, NInf => NInf
  end.

(** Sign of a finite value, used for products and quotients with an
    infinity: [Some true] positive, [Some false] negative, [None] zero. *)
Definition rsign (a : R) : option bool :=
  if Rlt_dec 0 a then Some true
  else if Rlt_dec a 0 then Some false
  else None.

Definition signed_inf (positive : bool) : fnum :=
  if positive then PInf else NInf.

Definition fsign (x : fnum) : option bool :=
  match x with
  | Fin a => rsign a
  | PInf => Some true
  | NInf => Some false
  | NaN => None
  end.

Definition exact_mul (x y : fnum) : fnum :=
  match x, y with
  | NaN, _ | _, NaN => NaN
  | Fin a, Fin b => Fin (a * b)
  | _, _ =>
      match fsign x, fsign y with
      | Some s, Some t => signed_inf (Bool.eqb s t)
      | _, _ => NaN
      end
  end.

Definition exact_div (x y : fnum) : fnum :=
  match x, y with
  | NaN, _ | _, NaN => NaN
  | Fin a, Fin b =>
      if Req_dec_T b 0 then
        match rsign a with
        | Some s => signed_inf s
        | None => NaN
        end
      else Fin (a / b)
  | Fin _, _ => Fin 0
  | _, Fin b =>
      match fsign x with
      | Some s => signed_inf (if Rlt_dec b 0 then negb s else s)
      | None => NaN
      end
  | _, _ => NaN
  end.

Definition exact_sqrt (x : fnum) : fnum :=
  match x with
  | Fin a => if Rlt_dec a 0 then NaN else Fin (sqrt a)
  | PInf => PInf
  | NInf | NaN => NaN
  end.

Definition exact_exp (x : fnum) : fnum :=
  match x with
  | Fin a => Fin (exp a)
  | PInf => PInf
  | NInf => Fin 0
  | NaN => NaN
  end.

Local Close Scope R_scope.

Definition exact_ops : float_ops :=
  {| fadd := exact_add;
     fmul := exact_mul;
     fdiv := exact_div;
     fsqrt := exact_sqrt;
     fexp := exact_exp;
     py_sub := fun x y => exact_add x (fneg y);
     py_mul := exact_mul |}.

(** * Proofs *)

Section General.

Context {fl : float_ops}.

(** ** Lists *)

Lemma zip_with_length {A B C : Type} (f : A -> B -> C) (xs : list A) (ys : list B) :
  length (zip_with f xs ys) = Nat.min (length xs) (length ys).
Proof. unfold zip_with. now rewrite length_map, length_combine. Qed.

Lemma zip_with_map {A B C A' B' : Type} (f : A -> B -> C) (g : A' -> A) (h : B' -> B)
    (xs : list A') (ys : list B') :
  zip_with f (map g xs) (map h ys) = zip_with (fun x y => f (g x) (h y)) xs ys.
Proof.
  revert ys. induction xs as [| x xs IH]; intros [| y ys]; simpl; try reflexivity.
  unfold zip_with in *. simpl. now rewrite IH.
Qed.

(** ** Running the methods *)

Lemma bind_ok {A B : Type} (c : M A) (k : A -> M B) (s s' : session) (a : A) :
  c s = (inr a, s') -> bind c k s = k a s'.
Proof. unfold bind. now intros ->. Qed.

Lemma bind_raise {A B : Type} (c : M A) (k : A -> M B) (s s' : session) (e : exn) :
  c s = (inl e, s') -> bind c k s = (inl e, s').
Proof. unfold bind. now intros ->. Qed.

Lemma log_log (s : session) (e1 e2 : list event) : log (log s e1) e2 = log s (e1 ++ e2).
Proof. unfold log. simpl. now rewrite <- app_assoc. Qed.

Lemma log_nil (s : session) : log s [] = s.
Proof. destruct s. unfold log. simpl. now rewrite app_nil_r. Qed.

Lemma ready_log (m : clip_model) (s : session) (evs : list event) :
  ready m s -> ready m (log s evs).
Proof. now intros [H1 H2]. Qed.

Lemma for_each_labels {A : Type} (catalog : list string) (mk : string -> fnum -> A)
    (pairs : list (fnum * nat)) (s : session) :
  for_each pairs (fun p =>
    label <- lift (getitem catalog (Z.of_nat (snd p))) ;;
    ret (mk label (fst p))) s
  = (label_all catalog mk pairs, s).
Proof.
  induction pairs as [| p tl IH]; [reflexivity |].
  cbn [for_each label_all].
  destruct (getitem catalog (Z.of_nat (snd p))) as [e | label]; [reflexivity |].
  cbn [lift]. rewrite (bind_ok _ _ s s (mk label (fst p))) by reflexivity.
  unfold bind at 1. rewrite IH.
  destruct (label_all catalog mk tl); reflexivity.
Qed.

Section Runs.

Variable open_clip : string -> clip_model.
Variable topk : topk_fn.

Lemma ensure_initialized_loads (s : session) :
  ensure_initialized open_clip s = (inr tt, loaded open_clip s).
Proof.
  unfold ensure_initialized, initialize, loaded, bind, get_self, emit, set_model,
    set_initialized, ret.
  destruct (_initialized (self s)) eqn:E; simpl; [reflexivity |].
  rewrite E. reflexivity.
Qed.

Lemma loaded_ready (s : session) :
  session_wf open_clip s -> ready (session_model open_clip s) (loaded open_clip s).
Proof.
  unfold session_wf, ready, loaded. intros Hwf.
  destruct (_initialized (self s)) eqn:E; simpl; auto.
Qed.

Lemma loaded_id (m : clip_model) (s : session) : ready m s -> loaded open_clip s = s.
Proof. intros [H _]. unfold loaded. now rewrite H. Qed.

Lemma loaded_calls (s : session) :
  calls (loaded open_clip s)
  = calls s ++ (if _initialized (self s) then [] else [LoadModel (model_name (self s))]).
Proof.
  unfold loaded. destruct (_initialized (self s)); simpl; [now rewrite app_nil_r | reflexivity].
Qed.

Lemma encode_image_run (m : clip_model) (s : session) (path : string) :
  ready m s -> _encode_image path s = (inr (embedding m path), log s [EncodeImage path]).
Proof.
  intros [_ Hm]. unfold _encode_image, bind, get_self. now rewrite Hm.
Qed.

Lemma encode_texts_run (m : clip_model) (s : session) (texts : list string) :
  ready m s -> _encode_texts texts s = (inr (text_embeddings m texts), log s [EncodeTexts texts]).
Proof.
  intros [_ Hm]. unfold _encode_texts, bind, get_self. now rewrite Hm.
Qed.

Lemma classify_ready (m : clip_model) (s : session) (path : string) (top_k : Z) :
  ready m s ->
  classify_land_use open_clip topk path top_k s
  = (classify_result topk m path top_k,
     log s [EncodeImage path; EncodeTexts LAND_USE_CATEGORIES]).
Proof.
  intros Hr. unfold classify_land_use.
  rewrite (bind_ok _ _ _ _ _ (ensure_initialized_loads s)), (loaded_id m s Hr).
  rewrite (bind_ok _ _ _ _ _ (encode_image_run m s path Hr)).
  rewrite (bind_ok _ _ _ _ _ (encode_texts_run m _ LAND_USE_CATEGORIES (ready_log m s _ Hr))).
  rewrite log_log. cbn [app].
  unfold classify_result, ranking, land_use_probs, confidences, scores.
  destruct (topk _ top_k) as [e | [vals idxs]]; [reflexivity |].
  unfold lift at 1. unfold bind at 1. unfold ret at 1.
  apply (for_each_labels LAND_USE_CATEGORIES mk_land_use).
Qed.

Lemma detect_ready (m : clip_model) (s : session) (path1 path2 : string) (top_k : Z) :
  ready m s ->
  detect_changes open_clip topk path1 path2 top_k s
  = (detect_result topk m path1 path2 top_k,
     log s [EncodeImage path1; EncodeImage path2; EncodeTexts change_texts]).
Proof.
  intros Hr. unfold detect_changes.
  rewrite (bind_ok _ _ _ _ _ (ensure_initialized_loads s)), (loaded_id m s Hr).
  rewrite (bind_ok _ _ _ _ _ (encode_image_run m s path1 Hr)).
  rewrite (bind_ok _ _ _ _ _ (encode_image_run m _ path2 (ready_log m s _ Hr))).
  rewrite log_log.
  rewrite (bind_ok _ _ _ _ _ (encode_texts_run m _ _ (ready_log m s _ Hr))).
  rewrite log_log. cbn [app].
  unfold detect_result, ranking, change_probs, confidences, scores, change_query,
    unit_difference.
  fold change_texts.
  destruct (topk _ top_k) as [e | [vals idxs]]; [reflexivity |].
  unfold lift at 1. unfold bind at 1. unfold ret at 1.
  unfold bind at 1.
  rewrite (for_each_labels CHANGE_DESCRIPTIONS mk_change).
  destruct (label_all _ _ _); reflexivity.
Qed.

(** From any well-formed session a method first loads the model. *)
Lemma classify_run (s : session) (path : string) (top_k : Z) :
  session_wf open_clip s ->
  classify_land_use open_clip topk path top_k s
  = (classify_result topk (session_model open_clip s) path top_k,
     log (loaded open_clip s) [EncodeImage path; EncodeTexts LAND_USE_CATEGORIES]).
Proof.
  intros Hwf. pose proof (loaded_ready s Hwf) as Hr.
  rewrite <- (classify_ready _ _ path top_k Hr).
  unfold classify_land_use.
  rewrite (bind_ok _ _ _ _ _ (ensure_initialized_loads s)).
  rewrite (bind_ok _ _ _ _ _ (ensure_initialized_loads (loaded open_clip s))).
  now rewrite (loaded_id _ _ Hr).
Qed.

Lemma detect_run (s : session) (path1 path2 : string) (top_k : Z) :
  session_wf open_clip s ->
  detect_changes open_clip topk path1 path2 top_k s
  = (detect_result topk (session_model open_clip s) path1 path2 top_k,
     log (loaded open_clip s)
       [EncodeImage path1; EncodeImage path2; EncodeTexts change_texts]).
Proof.
  intros Hwf. pose proof (loaded_ready s Hwf) as Hr.
  rewrite <- (detect_ready _ _ path1 path2 top_k Hr).
  unfold detect_changes.
  rewrite (bind_ok _ _ _ _ _ (ensure_initialized_loads s)).
  rewrite (bind_ok _ _ _ _ _ (ensure_initialized_loads (loaded open_clip s))).
  now rewrite (loaded_id _ _ Hr).
Qed.

End Runs.

(** ** The order of torch.topk *)

Lemma tge_refl (x : fnum) : tge x x = true.
Proof.
  destruct x as [a | | |]; try reflexivity.
  unfold tge. cbn. destruct (Rle_dec a a); [reflexivity | lra].
Qed.

Lemma tge_total (x y : fnum) : tge x y = false -> tge y x = true.
Proof.
  destruct x as [a | | |], y as [b | | |]; cbn; try congruence.
  destruct (Rle_dec b a), (Rle_dec a b); try congruence. lra.
Qed.

Lemma tge_trans (x y z : fnum) : tge x y = true -> tge y z = true -> tge x z = true.
Proof.
  destruct x as [a | | |], y as [b | | |], z as [c | | |]; cbn; try congruence.
  destruct (Rle_dec b a), (Rle_dec c b), (Rle_dec c a); try congruence. lra.
Qed.

Lemma tge_fle (x y : fnum) : is_nan x = false -> is_nan y = false -> tge x y = fle y x.
Proof. unfold tge. now intros -> ->. Qed.

(** ** Insertion sort with any tie rule meets the contract *)

Section Selection.

Variable before : ranked -> ranked -> bool.
Hypothesis before_ge : forall p q, before p q = true -> ranked_ge p q.
Hypothesis not_before_ge : forall p q, before p q = false -> ranked_ge q p.

Lemma insert_by_perm (p : ranked) (l : list ranked) :
  Permutation (insert_by before p l) (p :: l).
Proof.
  induction l as [| q l IH]; simpl; [apply Permutation_refl |].
  destruct (before p q); [apply Permutation_refl |].
  apply perm_trans with (q :: p :: l); [now apply perm_skip | apply perm_swap].
Qed.

Lemma sort_by_perm (l : list ranked) : Permutation (sort_by before l) l.
Proof.
  induction l as [| p l IH]; simpl; [constructor |].
  apply perm_trans with (p :: sort_by before l); [apply insert_by_perm | now apply perm_skip].
Qed.

Lemma insert_by_sorted (p : ranked) (l : list ranked) :
  StronglySorted ranked_ge l -> StronglySorted ranked_ge (insert_by before p l).
Proof.
  induction 1 as [| q l Hs IH Hq]; simpl; [repeat constructor |].
  destruct (before p q) eqn:E.
  - constructor; [now constructor |].
    constructor; [now apply before_ge |].
    revert Hq. apply Forall_impl. intros r Hr.
    unfold ranked_ge in *. eapply tge_trans; [apply before_ge, E | exact Hr].
  - constructor; [exact IH |].
    apply (Permutation_Forall (Permutation_sym (insert_by_perm p l))).
    constructor; [now apply not_before_ge | exact Hq].
Qed.

Lemma sort_by_sorted (l : list ranked) : StronglySorted ranked_ge (sort_by before l).
Proof.
  induction l as [| p l IH]; simpl; [constructor | now apply insert_by_sorted].
Qed.

End Selection.

Lemma firstn_In {A : Type} (n : nat) (l : list A) (x : A) : In x (firstn n l) -> In x l.
Proof.
  intros H. rewrite <- (firstn_skipn n l). apply in_or_app. now left.
Qed.

Lemma StronglySorted_firstn {A : Type} (R : A -> A -> Prop) (n : nat) (l : list A) :
  StronglySorted R l -> StronglySorted R (firstn n l).
Proof.
  intros H. revert n. induction H as [| a l Hs IH Ha]; intros [| n]; simpl; try constructor.
  - apply IH.
  - apply Forall_forall. intros x Hx. apply firstn_In in Hx.
    revert x Hx. now apply Forall_forall.
Qed.

Lemma StronglySorted_split {A : Type} (R : A -> A -> Prop) (l1 l2 : list A) :
  StronglySorted R (l1 ++ l2) -> forall a b, In a l1 -> In b l2 -> R a b.
Proof.
  induction l1 as [| x l1 IH]; simpl; intros H a b Ha Hb; [contradiction |].
  apply StronglySorted_inv in H. destruct H as [Hs Hx].
  destruct Ha as [<- | Ha].
  - rewrite Forall_forall in Hx. apply Hx, in_or_app. now right.
  - now apply IH.
Qed.

Lemma sorted_by_fst (l : list ranked) :
  StronglySorted ranked_ge l -> sorted_by tge (map fst l) = true.
Proof.
  induction 1 as [| p l Hs IH Hp]; [reflexivity |].
  destruct l as [| q l]; [reflexivity |].
  cbn [map sorted_by] in *. rewrite IH, andb_true_r.
  apply Forall_inv in Hp. exact Hp.
Qed.

Lemma in_combine_seq (xs : tensor) (a : nat) (v : fnum) (i : nat) :
  In (v, i) (combine xs (seq a (length xs))) <->
  (a <= i)%nat /\ nth_error xs (i - a) = Some v.
Proof.
  revert a. induction xs as [| x xs IH]; intros a; simpl.
  - split; [contradiction | intros [_ H]]. destruct (i - a)%nat; discriminate.
  - rewrite IH. split.
    + intros [E | [Hle Hn]].
      * inversion E; subst. rewrite Nat.sub_diag. split; [lia | reflexivity].
      * split; [lia |]. replace (i - a)%nat with (S (i - S a)) by lia. exact Hn.
    + intros [Hle Hn]. destruct (Nat.eq_dec a i) as [-> | Hne].
      * left. rewrite Nat.sub_diag in Hn. simpl in Hn. congruence.
      * right. split; [lia |]. replace (i - a)%nat with (S (i - S a)) in Hn by lia. exact Hn.
Qed.

Lemma map_snd_combine_seq (xs : tensor) (a : nat) :
  map snd (combine xs (seq a (length xs))) = seq a (length xs).
Proof.
  revert a. induction xs as [| x xs IH]; intros a; simpl; [reflexivity | now rewrite IH].
Qed.

Lemma topk_with_contract (before : ranked -> ranked -> bool) :
  (forall p q, before p q = true -> ranked_ge p q) ->
  (forall p q, before p q = false -> ranked_ge q p) ->
  topk_contract (topk_with before).
Proof.
  intros H1 H2.
  assert (Hrun : forall xs k vals idxs, topk_with before xs k = inr (vals, idxs) ->
    (0 <= k <= Z.of_nat (length xs))%Z /\
    let sorted := sort_by before (combine xs (seq 0 (length xs))) in
    vals = map fst (firstn (Z.to_nat k) sorted) /\
    idxs = map snd (firstn (Z.to_nat k) sorted)).
  { intros xs k vals idxs. unfold topk_with.
    destruct ((k <? 0)%Z || (Z.of_nat (length xs) <? k)%Z) eqn:E; [discriminate |].
    apply orb_false_iff in E. destruct E as [E1 E2].
    apply Z.ltb_ge in E1, E2. intros E. inversion E. auto. }
  assert (Hlen : forall xs, length (sort_by before (combine xs (seq 0 (length xs)))) = length xs).
  { intros xs. rewrite (Permutation_length (sort_by_perm before (combine xs (seq 0 (length xs))))).
    etransitivity; [apply length_combine |]. rewrite length_seq. apply Nat.min_id. }
  assert (Hin : forall xs v i, In (v, i) (sort_by before (combine xs (seq 0 (length xs)))) <->
                               nth_error xs i = Some v).
  { intros xs v i. split.
    - intros H. apply (Permutation_in _ (sort_by_perm before _)) in H.
      apply in_combine_seq in H. now rewrite Nat.sub_0_r in H.
    - intros H. apply (Permutation_in _ (Permutation_sym (sort_by_perm before _))).
      apply in_combine_seq. rewrite Nat.sub_0_r. split; [lia | exact H]. }
  constructor.
  - intros xs k Hk. unfold topk_with.
    destruct ((k <? 0)%Z || (Z.of_nat (length xs) <? k)%Z) eqn:E; [reflexivity |].
    apply orb_false_iff in E. destruct E as [E1 E2]. apply Z.ltb_ge in E1, E2. lia.
  - intros xs k Hk. unfold topk_with.
    destruct ((k <? 0)%Z || (Z.of_nat (length xs) <? k)%Z) eqn:E; [| eauto].
    apply orb_true_iff in E. destruct E as [E | E]; apply Z.ltb_lt in E; lia.
  - intros xs k vals idxs H. apply Hrun in H. destruct H as [Hk [_ ->]].
    rewrite length_map, length_firstn, Hlen. lia.
  - intros xs k vals idxs H. apply Hrun in H. destruct H as [Hk [-> ->]].
    rewrite !map_map. apply map_ext_in. intros [v i] Hvi. simpl.
    apply firstn_In in Hvi. now apply Hin.
  - intros xs k vals idxs H. apply Hrun in H. destruct H as [Hk [_ ->]].
    rewrite <- firstn_map.
    apply NoDup_app_remove_r with (l' := skipn (Z.to_nat k)
      (map snd (sort_by before (combine xs (seq 0 (length xs)))))).
    rewrite firstn_skipn.
    apply (Permutation_NoDup (Permutation_map snd (Permutation_sym (sort_by_perm before _)))).
    rewrite map_snd_combine_seq. apply seq_NoDup.
  - intros xs k vals idxs H. apply Hrun in H. destruct H as [Hk [-> _]].
    apply sorted_by_fst, StronglySorted_firstn, sort_by_sorted; assumption.
  - intros xs k vals idxs i x v H Hx Hni Hv. apply Hrun in H. destruct H as [Hk [-> ->]].
    apply in_map_iff in Hv. destruct Hv as [[v' j] [<- Hv]]. simpl.
    apply Hin in Hx.
    rewrite <- (firstn_skipn (Z.to_nat k)) in Hx. apply in_app_or in Hx.
    destruct Hx as [Hx | Hx].
    + elim Hni. apply in_map_iff. now exists (x, i).
    + pose proof (sort_by_sorted before H1 H2 (combine xs (seq 0 (length xs)))) as Hs.
      rewrite <- (firstn_skipn (Z.to_nat k)) in Hs.
      exact (StronglySorted_split _ _ _ Hs _ _ Hv Hx).
Qed.

Lemma topk_stable_contract : topk_contract topk_stable.
Proof.
  apply topk_with_contract; unfold before_stable, ranked_ge; intros p q H; [exact H |].
  now apply tge_total.
Qed.

Lemma topk_reversed_contract : topk_contract topk_reversed.
Proof.
  apply topk_with_contract; unfold before_reversed, ranked_ge; intros p q H.
  - apply negb_true_iff in H. now apply tge_total.
  - now apply negb_false_iff in H.
Qed.

(** ** Rankings under the contract *)

Lemma softmax_length (xs : tensor) : length (softmax xs) = length xs.
Proof. unfold softmax, tdiv. now rewrite !length_map. Qed.

Lemma confidences_length (q : tensor) (cands : list tensor) :
  length (confidences q cands) = length cands.
Proof.
  unfold confidences, scores, tscale, matvec. now rewrite softmax_length, !length_map.
Qed.

Lemma land_use_probs_length (m : clip_model) (path : string) :
  length (land_use_probs m path) = 20%nat.
Proof.
  unfold land_use_probs, text_embeddings. now rewrite confidences_length, !length_map.
Qed.

Lemma change_probs_length (m : clip_model) (path1 path2 : string) :
  length (change_probs m path1 path2) = 15%nat.
Proof.
  unfold change_probs, text_embeddings, change_texts.
  now rewrite confidences_length, !length_map.
Qed.

Lemma getitem_nat {A : Type} (l : list A) (i : nat) (d : A) :
  (i < length l)%nat -> getitem l (Z.of_nat i) = inr (nth i l d).
Proof.
  intros Hi. unfold getitem. cbv zeta.
  assert (E : (Z.of_nat i <? 0)%Z = false) by (apply Z.ltb_ge; lia).
  rewrite E, E, Nat2Z.id. destruct (nth_error l i) as [x |] eqn:En.
  - now rewrite (nth_error_nth _ _ d En).
  - apply nth_error_None in En. lia.
Qed.

Lemma label_all_ok {A : Type} (catalog : list string) (mk : string -> fnum -> A)
    (pairs : list (fnum * nat)) :
  Forall (fun p => (snd p < length catalog)%nat) pairs ->
  label_all catalog mk pairs = inr (map (labelled catalog mk) pairs).
Proof.
  induction 1 as [| p tl Hp _ IH]; [reflexivity |].
  cbn [label_all map]. now rewrite (getitem_nat catalog (snd p) EmptyString Hp), IH.
Qed.

Section Contract.

Variable topk : topk_fn.
Hypothesis contract : topk_contract topk.

Lemma topk_shape (xs : tensor) (k : Z) (vals : tensor) (idxs : list nat) :
  topk xs k = inr (vals, idxs) ->
  length vals = length idxs /\ Forall (fun i => (i < length xs)%nat) idxs.
Proof.
  intros H. pose proof (topk_values topk contract xs k vals idxs H) as Hv.
  split.
  - apply (f_equal (@length _)) in Hv. now rewrite !length_map in Hv.
  - clear H. revert vals Hv. induction idxs as [| i idxs IH]; intros vals Hv; [constructor |].
    destruct vals as [| v vals]; [discriminate |]. simpl in Hv. inversion Hv as [[Hi Ht]].
    constructor; [| now apply (IH vals)].
    apply nth_error_Some. congruence.
Qed.

Lemma topk_in_range (xs : tensor) (k : Z) (vals : tensor) (idxs : list nat) :
  topk xs k = inr (vals, idxs) -> (0 <= k <= Z.of_nat (length xs))%Z.
Proof.
  intros H.
  destruct (Z_lt_dec k 0) as [Hlt | Hge];
    [rewrite (topk_range_error topk contract xs k) in H by lia; discriminate |].
  destruct (Z_lt_dec (Z.of_nat (length xs)) k) as [Hgt | Hle];
    [rewrite (topk_range_error topk contract xs k) in H by lia; discriminate |].
  lia.
Qed.

(** A ranking either fails in [topk], exactly when [top_k] is out of
    range, or labels what [topk] selected. *)
Lemma ranking_spec {A : Type} (catalog : list string) (mk : string -> fnum -> A)
    (probs : tensor) (top_k : Z) :
  length probs = length catalog ->
  match ranking topk catalog mk probs top_k with
  | inl e =>
      e = RuntimeError "selected index k out of range" /\
      (top_k < 0 \/ Z.of_nat (length catalog) < top_k)%Z
  | inr l =>
      (0 <= top_k <= Z.of_nat (length catalog))%Z /\
      exists vals idxs,
        topk probs top_k = inr (vals, idxs) /\
        l = map (labelled catalog mk) (combine vals idxs) /\
        Z.of_nat (length l) = top_k
  end.
Proof.
  intros Hlen. unfold ranking.
  destruct (topk probs top_k) as [e | [vals idxs]] eqn:E.
  - destruct (Z_lt_dec top_k 0) as [Hlt | Hge].
    { rewrite (topk_range_error topk contract probs top_k) in E by lia.
      inversion E. split; [reflexivity | lia]. }
    destruct (Z_lt_dec (Z.of_nat (length probs)) top_k) as [Hgt | Hle].
    { rewrite (topk_range_error topk contract probs top_k) in E by lia.
      inversion E. split; [reflexivity | lia]. }
    destruct (topk_returns topk contract probs top_k) as [v [i Hvi]]; [lia | congruence].
  - destruct (topk_shape _ _ _ _ E) as [Hvl Hb].
    pose proof (topk_in_range _ _ _ _ E) as Hk.
    pose proof (topk_length topk contract _ _ _ _ E) as Hl.
    rewrite label_all_ok.
    + split; [lia |]. exists vals, idxs. repeat split.
      rewrite length_map, length_combine, Hvl, Nat.min_id. exact Hl.
    + apply Forall_forall. intros [v i] Hin. apply in_combine_r in Hin.
      rewrite Forall_forall in Hb. simpl. rewrite <- Hlen. now apply Hb.
Qed.

Lemma ranking_returns {A : Type} (catalog : list string) (mk : string -> fnum -> A)
    (probs : tensor) (top_k : Z) :
  length probs = length catalog ->
  (0 <= top_k <= Z.of_nat (length catalog))%Z ->
  exists vals idxs,
    topk probs top_k = inr (vals, idxs) /\
    ranking topk catalog mk probs top_k = inr (map (labelled catalog mk) (combine vals idxs)) /\
    Z.of_nat (length (combine vals idxs)) = top_k.
Proof.
  intros Hlen Hk. pose proof (ranking_spec catalog mk probs top_k Hlen) as H.
  destruct (ranking topk catalog mk probs top_k) as [e | l].
  - destruct H as [_ H]. lia.
  - destruct H as [_ [vals [idxs [E [-> Hl]]]]]. exists vals, idxs.
    rewrite length_map in Hl. auto.
Qed.

Lemma ranking_fails {A : Type} (catalog : list string) (mk : string -> fnum -> A)
    (probs : tensor) (top_k : Z) :
  (top_k < 0 \/ Z.of_nat (length probs) < top_k)%Z ->
  ranking topk catalog mk probs top_k = inl (RuntimeError "selected index k out of range").
Proof.
  intros Hk. unfold ranking. now rewrite (topk_range_error topk contract probs top_k Hk).
Qed.

End Contract.

(** ** The example model and session *)

Lemma example_session_wf : session_wf example_clip example_session.
Proof. intros H. discriminate H. Qed.

(** ** Python indexing and the singleton on concrete inputs *)

Example getitem_last_element : getitem ["2015"; "2018"; "2021"] (-1) = inr "2021".
Proof. reflexivity. Qed.

Example getitem_out_of_range :
  getitem ["2015"; "2018"] 2 = inl (IndexError "list index out of range").
Proof. reflexivity. Qed.

Example date_at_empty_dates : date_at (Some []) 1 = inr None.
Proof. reflexivity. Qed.

Example date_at_short_dates :
  date_at (Some ["2015"]) 1 = inl (IndexError "list index out of range").
Proof. reflexivity. Qed.

Example enumerate_paths : enumerate ["a.png"; "b.png"] = [(0%Z, "a.png"); (1%Z, "b.png")].
Proof. reflexivity. Qed.

Example range_pairs : range (3 - 1) = [0%Z; 1%Z].
Proof. reflexivity. Qed.

Example get_analyzer_three_calls :
  let g0 := initial_globals in
  let (l1, g1) := get_analyzer false "ViT-B-32" g0 in
  let (l2, g2) := get_analyzer false "ViT-B-32" g1 in
  let (l3, g3) := get_analyzer false "RN50" g2 in
  (l1, l2, l3) = (0%nat, 0%nat, 1%nat) /\ g2 = g1 /\
  _analyzer_instance g3 = Some 1%nat /\ length (heap g3) = 2%nat.
Proof. repeat split. Qed.

(** ** Lists, rankings and comparisons *)


Lemma land_use_scores_length (m : clip_model) (path : string) :
  length (land_use_scores m path) = 20%nat.
Proof.
  unfold land_use_scores, scores, tscale, matvec, text_embeddings. now rewrite !length_map.
Qed.

Lemma change_scores_length (m : clip_model) (path1 path2 : string) :
  length (change_scores m path1 path2) = 15%nat.
Proof.
  unfold change_scores, scores, tscale, matvec, text_embeddings, change_texts.
  now rewrite !length_map.
Qed.

Lemma map_fst_combine {A B : Type} (xs : list A) (ys : list B) :
  length xs = length ys -> map fst (combine xs ys) = xs.
Proof.
  revert ys. induction xs as [| x xs IH]; intros [| y ys] H; simpl in *; try congruence.
  f_equal. apply IH. lia.
Qed.

Lemma map_snd_combine {A B : Type} (xs : list A) (ys : list B) :
  length xs = length ys -> map snd (combine xs ys) = ys.
Proof.
  revert ys. induction xs as [| x xs IH]; intros [| y ys] H; simpl in *; try congruence.
  f_equal. apply IH. lia.
Qed.

Lemma topk_values_in (topk : topk_fn) (xs : tensor) (k : Z) (vals : tensor) (idxs : list nat) :
  topk_contract topk -> topk xs k = inr (vals, idxs) -> forall v, In v vals -> In v xs.
Proof.
  intros Hc H v Hv. pose proof (topk_values topk Hc xs k vals idxs H) as E.
  assert (Hin : In (Some v) (map Some vals)) by now apply in_map.
  rewrite <- E in Hin. apply in_map_iff in Hin. destruct Hin as [i [Hi _]].
  now apply nth_error_In in Hi.
Qed.

Lemma sorted_by_ext {A : Type} (r r' : A -> A -> bool) (l : list A) :
  (forall x y, In x l -> In y l -> r x y = r' x y) -> sorted_by r l = sorted_by r' l.
Proof.
  induction l as [| x l IH]; intros H; [reflexivity |].
  destruct l as [| y l]; [reflexivity |].
  cbn [sorted_by] in *. rewrite H by (simpl; auto). f_equal.
  apply IH. intros a b Ha Hb. apply H; now right.
Qed.

Lemma descending_finite (l : tensor) :
  Forall (fun x => is_nan x = false) l -> sorted_by tge l = descending l.
Proof.
  intros H. unfold descending. apply sorted_by_ext. intros x y Hx Hy.
  rewrite Forall_forall in H. apply tge_fle; now apply H.
Qed.

Lemma map_fst_labelled {A : Type} (catalog : list string) (mk : string -> fnum -> A)
    (conf : A -> fnum) (vals : tensor) (idxs : list nat) :
  (forall label p, conf (mk label p) = p) ->
  length vals = length idxs ->
  map conf (map (labelled catalog mk) (combine vals idxs)) = vals.
Proof.
  intros Hconf Hl. rewrite map_map. unfold labelled.
  rewrite (map_ext _ fst) by (intros p; apply Hconf). now apply map_fst_combine.
Qed.

Lemma top1_result (topk : topk_fn) (m : clip_model) (path : string) :
  topk_contract topk -> exists c, classify_result topk m path 1 = inr [c].
Proof.
  intros Hc.
  destruct (ranking_returns topk Hc LAND_USE_CATEGORIES mk_land_use (land_use_probs m path) 1
              (land_use_probs_length m path)) as [vals [idxs [_ [E Hl]]]]; [simpl; lia |].
  unfold classify_result. rewrite E.
  destruct (combine vals idxs) as [| p [| q tl]]; simpl in Hl; try lia.
  eexists. reflexivity.
Qed.

(** Every confidence a ranking reports is an entry of the distribution. *)
Lemma ranking_confidences {A : Type} (topk : topk_fn) (catalog : list string)
    (mk : string -> fnum -> A) (conf : A -> fnum) (probs : tensor) (top_k : Z) (l : list A) :
  topk_contract topk ->
  (forall label p, conf (mk label p) = p) ->
  length probs = length catalog ->
  ranking topk catalog mk probs top_k = inr l ->
  Z.of_nat (length l) = top_k /\ Forall (fun c => In (conf c) probs) l.
Proof.
  intros Hc Hconf Hlen E.
  pose proof (ranking_spec topk Hc catalog mk probs top_k Hlen) as H. rewrite E in H.
  destruct H as [_ [vals [idxs [Et [-> Hl]]]]]. split; [exact Hl |].
  rewrite Forall_map. apply Forall_forall. intros [v i] Hin.
  unfold labelled. rewrite Hconf. cbn [fst].
  apply in_combine_l in Hin. exact (topk_values_in topk _ _ _ _ Hc Et v Hin).
Qed.

Lemma topk_selection (topk : topk_fn) (probs : tensor) (top_k : Z)
    (vals : tensor) (idxs : list nat) :
  topk_contract topk -> topk probs top_k = inr (vals, idxs) ->
  top_selection probs top_k vals idxs.
Proof.
  intros Hc E. unfold top_selection. repeat split.
  - exact (topk_length topk Hc _ _ _ _ E).
  - exact (topk_distinct topk Hc _ _ _ _ E).
  - exact (topk_values topk Hc _ _ _ _ E).
  - exact (topk_sorted topk Hc _ _ _ _ E).
  - intros i x v. exact (topk_largest topk Hc _ _ _ _ i x v E).
Qed.

Lemma ranking_selection {A : Type} (topk : topk_fn) (catalog : list string)
    (mk : string -> fnum -> A) (probs : tensor) (top_k : Z) :
  topk_contract topk ->
  length probs = length catalog ->
  match ranking topk catalog mk probs top_k with
  | inr l =>
      exists vals idxs,
        l = map (labelled catalog mk) (combine vals idxs) /\
        top_selection probs top_k vals idxs
  | inl _ => (top_k < 0 \/ Z.of_nat (length catalog) < top_k)%Z
  end.
Proof.
  intros Hc Hlen. pose proof (ranking_spec topk Hc catalog mk probs top_k Hlen) as H.
  destruct (ranking topk catalog mk probs top_k) as [e | l].
  - exact (proj2 H).
  - destruct H as [_ [vals [idxs [E [-> _]]]]]. exists vals, idxs.
    split; [reflexivity | exact (topk_selection topk _ _ _ _ Hc E)].
Qed.

Lemma embedding_length (m : clip_model) (path : string) :
  length (embedding m path) = embed_dim m.
Proof.
  unfold embedding, normalize, tdiv, encode_image. now rewrite !length_map, length_seq.
Qed.

Lemma text_embedding_rows (m : clip_model) (texts : list string) (row : tensor) :
  In row (text_embeddings m texts) -> length row = embed_dim m.
Proof.
  unfold text_embeddings. rewrite map_map. intros H. apply in_map_iff in H.
  destruct H as [t [<- _]].
  unfold normalize, tdiv, encode_text. now rewrite !length_map, length_seq.
Qed.

Lemma nonempty_length {A : Type} (l : list A) : (0 < length l)%nat -> l <> [].
Proof. destruct l; simpl; [lia | discriminate]. Qed.

Lemma all_nan_forall_map {A : Type} (f : A -> fnum) (l : list A) :
  Forall (fun a => f a = NaN) l -> map f l = repeat NaN (length l).
Proof. induction 1 as [| a l Ha _ IH]; simpl; [reflexivity | now rewrite Ha, IH]. Qed.

Lemma catalogs_nonempty : LAND_USE_CATEGORIES <> [] /\ change_texts <> [].
Proof. split; discriminate. Qed.

(** A ranking of a distribution that is NaN throughout. *)
Lemma ranking_of_nan {A : Type} (topk : topk_fn) (catalog : list string)
    (mk : string -> fnum -> A) (conf : A -> fnum) (probs : tensor) (top_k : Z) :
  topk_contract topk ->
  (forall label p, conf (mk label p) = p) ->
  length probs = length catalog ->
  all_nan probs ->
  match ranking topk catalog mk probs top_k with
  | inr l => Z.of_nat (length l) = top_k /\ Forall (fun c => conf c = NaN) l
  | inl _ => (top_k < 0 \/ Z.of_nat (length catalog) < top_k)%Z
  end.
Proof.
  intros Hc Hconf Hlen Hn.
  pose proof (ranking_spec topk Hc catalog mk probs top_k Hlen) as H.
  destruct (ranking topk catalog mk probs top_k) as [e | l] eqn:E.
  - exact (proj2 H).
  - destruct (ranking_confidences topk catalog mk conf probs top_k l Hc Hconf Hlen E)
      as [Hl Hin].
    split; [exact Hl |]. revert Hin. apply Forall_impl. intros c Hcin.
    unfold all_nan in Hn. rewrite Forall_forall in Hn. now apply Hn.
Qed.

(** ** Propagation of NaN *)

Lemma fmax_nan_r (x : fnum) : fmax x NaN = NaN.
Proof. now destruct x. Qed.

Lemma tmax_nan (xs : tensor) : In NaN xs -> tmax xs = NaN.
Proof.
  unfold tmax. induction xs as [| x xs IH]; [contradiction |].
  intros [-> | Hin]; simpl; [reflexivity |]. rewrite (IH Hin). apply fmax_nan_r.
Qed.

Lemma all_nan_map {A : Type} (f : A -> fnum) (l : list A) :
  (forall a, f a = NaN) -> all_nan (map f l).
Proof.
  intros H. apply Forall_forall. intros x Hx. apply in_map_iff in Hx.
  destruct Hx as [a [<- _]]. apply H.
Qed.

Lemma all_nan_repeat (xs : tensor) : all_nan xs -> xs = repeat NaN (length xs).
Proof. induction 1 as [| x xs -> _ IH]; simpl; [reflexivity | now rewrite <- IH]. Qed.

Lemma all_nan_in (xs : tensor) : all_nan xs -> xs <> [] -> In NaN xs.
Proof. intros H Hne. destruct H as [| x xs -> _]; [congruence | now left]. Qed.

Lemma zip_with_all_nan_r (f : fnum -> fnum -> fnum) (xs ys : tensor) :
  (forall x, f x NaN = NaN) -> all_nan ys -> all_nan (zip_with f xs ys).
Proof.
  intros Hf Hys. revert xs. induction Hys as [| y ys -> _ IH]; intros [| x xs];
    unfold zip_with in *; simpl; try constructor; [apply Hf | apply IH].
Qed.

Lemma zip_with_all_nan_l (f : fnum -> fnum -> fnum) (xs ys : tensor) :
  (forall y, f NaN y = NaN) -> all_nan xs -> all_nan (zip_with f xs ys).
Proof.
  intros Hf Hxs. revert ys. induction Hxs as [| x xs -> _ IH]; intros [| y ys];
    unfold zip_with in *; simpl; try constructor; [apply Hf | apply IH].
Qed.

Lemma zero_or_nan_cases (d : tensor) :
  Forall (fun x => x = Fin 0 \/ x = NaN) d ->
  Forall (fun x => x = Fin 0) d \/ In NaN d.
Proof.
  induction 1 as [| x d Hx _ IH]; [left; constructor |].
  destruct Hx as [-> | ->]; [| right; now left].
  destruct IH as [IH | IH]; [left; now constructor | right; now right].
Qed.

Section Laws.

Hypothesis laws : ieee754 fl.

Lemma fsub_nan_r (x : fnum) : fsub x NaN = NaN.
Proof. unfold fsub. cbn [fneg]. apply (ieee_add_nan_r fl laws). Qed.

(** [x - x] is zero for a number and NaN for an infinity or NaN. *)
Lemma fsub_self (x : fnum) : fsub x x = Fin 0 \/ fsub x x = NaN.
Proof.
  unfold fsub. destruct x as [a | | |]; cbn [fneg].
  - left. apply (ieee_add_opposite fl laws).
  - right. apply (proj1 (ieee_add_infinities fl laws)).
  - right. apply (proj2 (ieee_add_infinities fl laws)).
  - right. apply (ieee_add_nan_l fl laws).
Qed.

Lemma tsum_nan (xs : tensor) : In NaN xs -> tsum xs = NaN.
Proof.
  unfold tsum. induction xs as [| x xs IH]; [contradiction |].
  intros [-> | Hin]; cbn [fold_right].
  - apply (ieee_add_nan_l fl laws).
  - rewrite (IH Hin). apply (ieee_add_nan_r fl laws).
Qed.

Lemma tsum_zero (xs : tensor) : Forall (fun x => x = Fin 0) xs -> tsum xs = Fin 0.
Proof.
  unfold tsum. induction 1 as [| x xs Hx _ IH]; cbn [fold_right]; [reflexivity |].
  rewrite IH, Hx. apply (ieee_add_zero fl laws).
Qed.

Lemma tdiv_all_nan (xs : tensor) (s : fnum) : all_nan xs -> all_nan (tdiv xs s).
Proof.
  unfold all_nan, tdiv. rewrite Forall_map. apply Forall_impl. intros x ->.
  apply (ieee_div_nan_l fl laws).
Qed.

Lemma tdiv_by_nan (xs : tensor) : all_nan (tdiv xs NaN).
Proof. apply all_nan_map. intros x. apply (ieee_div_nan_r fl laws). Qed.

Lemma tscale_all_nan (xs : tensor) (s : fnum) : all_nan xs -> all_nan (tscale xs s).
Proof.
  unfold all_nan, tscale. rewrite Forall_map. apply Forall_impl. intros x ->.
  apply (ieee_mul_nan_l fl laws).
Qed.

Lemma tscale_nan (xs : tensor) (s : fnum) : In NaN xs -> In NaN (tscale xs s).
Proof.
  intros H. unfold tscale. apply in_map_iff. exists NaN.
  split; [apply (ieee_mul_nan_l fl laws) | exact H].
Qed.

Lemma dot_all_nan (xs ys : tensor) :
  all_nan xs -> xs <> [] -> ys <> [] -> dot xs ys = NaN.
Proof.
  intros Hxs Hx Hy. unfold dot. apply tsum_nan. apply all_nan_in.
  - apply zip_with_all_nan_l; [apply (ieee_mul_nan_l fl laws) | exact Hxs].
  - destruct xs, ys; try congruence. discriminate.
Qed.

(** One NaN score makes the whole softmax NaN: the maximum is NaN, and so
    is every shifted exponential. *)
Lemma softmax_nan (xs : tensor) : In NaN xs -> all_nan (softmax xs).
Proof.
  intros H. unfold softmax. rewrite (tmax_nan xs H).
  apply tdiv_all_nan, all_nan_map. intros a. rewrite fsub_nan_r.
  apply (ieee_exp_nan fl laws).
Qed.

Lemma softmax_all_nan (xs : tensor) : all_nan xs -> all_nan (softmax xs).
Proof.
  intros H. destruct xs as [| x xs]; [constructor |].
  apply softmax_nan, all_nan_in; [exact H | discriminate].
Qed.

Lemma norm_zero (d : tensor) : Forall (fun x => x = Fin 0) d -> norm d = Fin 0.
Proof.
  intros H. unfold norm. rewrite tsum_zero; [apply (ieee_sqrt_zero fl laws) |].
  rewrite Forall_map. revert H. apply Forall_impl. intros x ->.
  apply (ieee_mul_zero fl laws).
Qed.

Lemma norm_nan (d : tensor) : In NaN d -> norm d = NaN.
Proof.
  intros H. unfold norm. rewrite tsum_nan; [apply (ieee_sqrt_nan fl laws) |].
  apply in_map_iff. exists NaN. split; [apply (ieee_mul_nan_l fl laws) | exact H].
Qed.

(** A vector of zeros and NaNs divided by its norm is NaN throughout: the
    norm is zero, and 0 / 0 is NaN, or the norm is NaN. *)
Lemma normalize_zero_or_nan (d : tensor) :
  Forall (fun x => x = Fin 0 \/ x = NaN) d -> all_nan (tdiv d (norm d)).
Proof.
  intros H. destruct (zero_or_nan_cases d H) as [Hz | Hn].
  - rewrite (norm_zero d Hz). unfold all_nan, tdiv. rewrite Forall_map.
    revert Hz. apply Forall_impl. intros x ->. apply (ieee_div_zero_zero fl laws).
  - rewrite (norm_nan d Hn). apply tdiv_by_nan.
Qed.

Lemma tsub_self (e : tensor) : Forall (fun x => x = Fin 0 \/ x = NaN) (tsub e e).
Proof.
  unfold tsub, zip_with. induction e as [| x e IH]; [constructor |].
  cbn [combine map fst snd]. constructor; [apply fsub_self | exact IH].
Qed.

Lemma scores_all_nan (q : tensor) (rows : list tensor) :
  all_nan q -> q <> [] -> Forall (fun row => row <> []) rows ->
  all_nan (scores q rows).
Proof.
  intros Hq Hne Hrows. unfold scores. apply tscale_all_nan.
  unfold matvec, all_nan. rewrite Forall_map. revert Hrows. apply Forall_impl.
  intros row Hrow. now apply dot_all_nan.
Qed.

(** With equal embeddings every entry of the difference is zero or NaN,
    its normalisation is NaN throughout, and nothing downstream recovers. *)
Lemma equal_embeddings_scores (m : clip_model) (path1 path2 : string) :
  (0 < embed_dim m)%nat ->
  embedding m path1 = embedding m path2 ->
  all_nan (change_scores m path1 path2).
Proof.
  intros Hdim Heq.
  assert (Hd : all_nan (unit_difference m path1 path2) /\
               length (unit_difference m path1 path2) = embed_dim m).
  { unfold unit_difference. cbv zeta. rewrite <- Heq. split.
    - apply normalize_zero_or_nan, tsub_self.
    - unfold tdiv, tsub. now rewrite length_map, zip_with_length, Nat.min_id, embedding_length. }
  destruct Hd as [Hd Hdl].
  unfold change_scores. apply scores_all_nan.
  - unfold change_query. apply tdiv_all_nan.
    apply zip_with_all_nan_r; [apply (ieee_add_nan_r fl laws) | now apply tscale_all_nan].
  - apply nonempty_length. unfold change_query, tdiv, tadd, tscale.
    rewrite length_map, zip_with_length, length_map, Hdl, embedding_length. lia.
  - apply Forall_forall. intros row Hrow. apply nonempty_length.
    rewrite (text_embedding_rows m _ row Hrow). exact Hdim.
Qed.

Lemma equal_embeddings_all_nan (m : clip_model) (path1 path2 : string) :
  (0 < embed_dim m)%nat ->
  embedding m path1 = embedding m path2 ->
  all_nan (change_probs m path1 path2).
Proof.
  intros Hdim Heq. apply softmax_all_nan. now apply equal_embeddings_scores.
Qed.

Lemma detect_identical (topk : topk_fn) (m : clip_model) (path1 path2 : string) (top_k : Z) :
  topk_contract topk ->
  (0 < embed_dim m)%nat ->
  embedding m path1 = embedding m path2 ->
  match detect_result topk m path1 path2 top_k with
  | inr r =>
      Z.of_nat (length (detected_changes r)) = top_k /\
      Forall (fun c => change_confidence c = NaN) (detected_changes r) /\
      overall_similarity r = tsum (zip_with fmul (embedding m path1) (embedding m path1)) /\
      change_magnitude r = py_sub (Fin 1) (overall_similarity r)
  | inl _ => (top_k < 0 \/ 15 < top_k)%Z
  end.
Proof.
  intros Hc Hdim Heq. unfold detect_result.
  pose proof (ranking_of_nan topk CHANGE_DESCRIPTIONS mk_change change_confidence
                (change_probs m path1 path2) top_k Hc (fun _ _ => eq_refl)
                (change_probs_length m path1 path2)
                (equal_embeddings_all_nan m path1 path2 Hdim Heq)) as H.
  destruct (ranking topk CHANGE_DESCRIPTIONS mk_change (change_probs m path1 path2) top_k)
    as [e | l].
  - exact H.
  - cbn [overall_similarity change_magnitude detected_changes].
    destruct H as [Hl Hn]. split; [exact Hl |]. split; [exact Hn |].
    split; [| reflexivity]. now rewrite <- Heq.
Qed.

Lemma dot_comm (xs ys : tensor) : dot xs ys = dot ys xs.
Proof.
  unfold dot. f_equal. revert ys.
  induction xs as [| x xs IH]; intros [| y ys]; try reflexivity.
  unfold zip_with in *. cbn [combine map fst snd].
  now rewrite (ieee_mul_comm fl laws), IH.
Qed.

End Laws.

(** ** Softmax of finite scores under rounding

    The largest score is finite and no score exceeds it, so the shifted
    exponentials lie in [0, 1] and one of them is 1; their rounded sum is
    at least 1 and at least each of them, so every quotient lies in
    [0, 1]; and the roundings of the sum and of the quotients bound the
    distance of the total from 1. *)

Section Rounding.

Variables u eta : R.
Hypothesis laws : ieee754 fl.
Hypothesis model : rounding fl u eta.

Lemma tmax_finite (l : list R) :
  l <> [] ->
  exists m, tmax (map Fin l) = Fin m /\ In m l /\ Forall (fun x => (x <= m)%R) l.
Proof.
  induction l as [| x l IH]; [congruence | intros _].
  destruct l as [| y l].
  - exists x. split; [reflexivity |]. split; [now left |]. constructor; [lra | constructor].
  - destruct IH as [m [Hm [Hin Hle]]]; [discriminate |].
    unfold tmax in *. cbn [map fold_right] in *. rewrite Hm.
    unfold fmax. cbn [is_nan flt]. destruct (Rlt_dec x m) as [Hlt | Hge].
    + exists m. split; [reflexivity |]. split; [now right |]. constructor; [lra | exact Hle].
    + exists x. split; [reflexivity |]. split; [now left |].
      constructor; [lra |]. revert Hle. apply Forall_impl. intros z Hz. lra.
Qed.

Lemma shifted_exponential (x m : R) :
  (x <= m)%R ->
  exists e, fexp (fsub (Fin x) (Fin m)) = Fin e /\ (0 <= e <= 1)%R /\ (x = m -> e = 1%R).
Proof.
  intros Hle. unfold fsub. cbn [fneg].
  destruct (Req_dec x m) as [-> | Hne].
  - rewrite (ieee_add_opposite fl laws), (round_exp_zero fl u eta model).
    exists 1%R. split; [reflexivity |]. split; [lra | reflexivity].
  - destruct (round_sub fl u eta model x m Hle) as [-> | [d [-> Hd]]].
    + rewrite (round_exp_ninf fl u eta model). exists 0%R.
      split; [reflexivity |]. split; [lra | intros E; contradiction].
    + destruct (round_exp fl u eta model d Hd) as [e [-> He]]. exists e.
      split; [reflexivity |]. split; [exact He | intros E; contradiction].
Qed.

Lemma shifted_exponentials (l : list R) (m : R) :
  Forall (fun x => (x <= m)%R) l ->
  exists es,
    map (fun x => fexp (fsub x (Fin m))) (map Fin l) = map Fin es /\
    length es = length l /\
    Forall (fun e => (0 <= e <= 1)%R) es /\
    (In m l -> In 1%R es).
Proof.
  induction 1 as [| x l Hx _ [es [E [Hl [Hr Hin]]]]].
  - exists []. repeat split; [constructor | contradiction].
  - destruct (shifted_exponential x m Hx) as [e [Ee [He H1]]].
    exists (e :: es). cbn [map length]. rewrite Ee, E, Hl.
    split; [reflexivity |]. split; [reflexivity |]. split; [now constructor |].
    intros [Hm | Hm]; [left; now apply H1 | right; now apply Hin].
Qed.

Lemma pow_one_minus (k : nat) : (0 < (1 - u) ^ k <= 1)%R.
Proof.
  pose proof (round_unit fl u eta model) as Hu.
  induction k as [| k IH]; cbn [pow]; [lra | nra].
Qed.

Lemma pow_one_plus (k : nat) : (1 <= (1 + u) ^ k)%R.
Proof.
  pose proof (round_unit fl u eta model) as Hu.
  induction k as [| k IH]; cbn [pow]; [lra | nra].
Qed.

Lemma rounded_sum (es : list R) :
  Forall (fun e => (0 <= e <= 1)%R) es -> (length es <= 20)%nat ->
  exists s,
    tsum (map Fin es) = Fin s /\
    Forall (fun e => (e <= s)%R) es /\
    (0 <= s <= 2 * INR (length es))%R /\
    (rsum es * (1 - u) ^ length es <= s <= rsum es * (1 + u) ^ length es)%R.
Proof.
  pose proof (round_unit fl u eta model) as Hu.
  induction 1 as [| e es He Hes IH]; intros Hlen.
  - exists 0%R. unfold tsum, rsum. cbn. repeat split; try lra. constructor.
  - cbn [length] in Hlen. destruct IH as [s [Es [Hle [Hs Hb]]]]; [lia |].
    assert (Hn : (INR (length es) <= 19)%R).
    { replace 19%R with (INR 19) by (simpl; lra). apply le_INR. lia. }
    assert (Hn0 : (0 <= INR (length es))%R) by apply pos_INR.
    destruct (round_add fl u eta model e s) as [r [Er [H1 [H2 H3]]]]; [lra | lra | lra |].
    exists r. unfold tsum in *. cbn [map fold_right]. rewrite Es, Er.
    split; [reflexivity |]. split.
    { constructor; [exact H1 |]. revert Hle. apply Forall_impl. intros z Hz. lra. }
    assert (Hsum : (0 <= rsum es)%R).
    { clear - Hes. induction Hes as [| z zs [Hz _] _ IHz]; unfold rsum in *; simpl; lra. }
    pose proof (pow_one_minus (length es)) as HP.
    pose proof (pow_one_plus (length es)) as HQ.
    change (length (e :: es)) with (S (length es)). rewrite S_INR.
    unfold rsum in *. cbn [fold_right pow].
    set (T := fold_right Rplus 0%R es) in *.
    set (P := ((1 - u) ^ length es)%R) in *.
    set (Q := ((1 + u) ^ length es)%R) in *.
    destruct He as [He0 He1]. destruct Hs as [Hs0 Hs1]. destruct Hb as [Hb0 Hb1].
    destruct H3 as [H3 H4]. destruct HP as [HP0 HP1]. destruct Hu as [Hu0 Hu1].
    split; [split; [lra |] |].
    { assert (A : ((e + s) * (1 + u) <= (1 + 2 * INR (length es)) * (1 + u))%R).
      { apply Rmult_le_compat_r; lra. }
      assert (B : ((1 + 2 * INR (length es)) * u <= 39 * u)%R).
      { apply Rmult_le_compat_r; lra. }
      lra. }
    split.
    { assert (A : ((e + T) * (P * (1 - u)) <= (e + T * P) * (1 - u))%R).
      { assert (A1 : (e * P <= e)%R) by nra. nra. }
      assert (B : ((e + T * P) * (1 - u) <= (e + s) * (1 - u))%R).
      { apply Rmult_le_compat_r; lra. }
      replace ((1 - u) * P)%R with (P * (1 - u))%R by ring. lra. }
    { assert (A : ((e + T * Q) * (1 + u) <= (e + T) * (Q * (1 + u)))%R).
      { assert (A1 : (e <= e * Q)%R) by nra. nra. }
      assert (B : ((e + s) * (1 + u) <= (e + T * Q) * (1 + u))%R).
      { apply Rmult_le_compat_r; lra. }
      replace ((1 + u) * Q)%R with (Q * (1 + u))%R by ring. lra. }
Qed.

Lemma rounded_quotients (es : list R) (s : R) :
  (1 <= s)%R -> Forall (fun e => (0 <= e <= 1)%R) es -> Forall (fun e => (e <= s)%R) es ->
  exists qs,
    map (fun e => fdiv e (Fin s)) (map Fin es) = map Fin qs /\
    Forall (fun q => (0 <= q <= 1)%R) qs /\
    (rsum es / s * (1 - u) - INR (length es) * eta <= rsum qs
       <= rsum es / s * (1 + u) + INR (length es) * eta)%R.
Proof.
  intros Hs Hr Hle. induction Hr as [| e es He Hes IH].
  - exists []. unfold rsum. cbn. repeat split; try lra. constructor.
  - inversion Hle as [| ? ? Hes' Hle']; subst.
    destruct (IH Hle') as [qs [E [Hq Hb]]].
    destruct (round_div fl u eta model e s) as [q [Eq [Hq1 Hq2]]]; [lra | exact Hs |].
    exists (q :: qs). cbn [map]. rewrite Eq, E.
    split; [reflexivity |]. split; [now constructor |].
    change (length (e :: es)) with (S (length es)). rewrite S_INR.
    unfold rsum in *. cbn [fold_right].
    set (T := fold_right Rplus 0%R es) in *.
    set (Tq := fold_right Rplus 0%R qs) in *.
    replace ((e + T) / s)%R with (e / s + T / s)%R by (field; lra).
    lra.
Qed.

Lemma rsum_at_least_member (l : list R) (x : R) :
  Forall (fun e => (0 <= e <= 1)%R) l -> In x l -> (x <= rsum l)%R.
Proof.
  intros Hl. induction Hl as [| e es He Hes IH]; [contradiction |].
  assert (Hsum : (0 <= rsum es)%R).
  { clear - Hes. induction Hes as [| z zs [Hz _] _ IHz]; unfold rsum in *; simpl; lra. }
  unfold rsum in *. cbn [fold_right]. intros [-> | Hin]; [lra |].
  specialize (IH Hin). lra.
Qed.

Lemma softmax_rounded (l : list R) :
  l <> [] -> (length l <= 20)%nat ->
  exists qs,
    softmax (map Fin l) = map Fin qs /\
    Forall (fun q => (0 <= q <= 1)%R) qs /\
    (Rabs (rsum qs - 1) <= softmax_tolerance u eta (length l))%R.
Proof.
  intros Hne Hlen.
  pose proof (round_unit fl u eta model) as [Hu0 Hu1].
  pose proof (round_tiny fl u eta model) as Heta.
  destruct (tmax_finite l Hne) as [m [Em [Hin Hle]]].
  destruct (shifted_exponentials l m Hle) as [es [Ees [Hl [Hr H1]]]].
  specialize (H1 Hin).
  destruct (rounded_sum es Hr) as [s [Es [Hles [Hs Hb]]]]; [lia |].
  assert (Hs1 : (1 <= s)%R).
  { rewrite Forall_forall in Hles. now apply Hles. }
  assert (HT : (1 <= rsum es)%R) by now apply rsum_at_least_member.
  destruct (rounded_quotients es s Hs1 Hr Hles) as [qs [Eqs [Hq Hbq]]].
  exists qs. split.
  { unfold softmax, tdiv. cbv zeta. rewrite Em, Ees, Es. exact Eqs. }
  split; [exact Hq |].
  rewrite Hl in *.
  pose proof (pow_one_minus (length l)) as [HP0 HP1].
  pose proof (pow_one_plus (length l)) as HQ.
  unfold softmax_tolerance.
  set (n := length l) in *. set (T := rsum es) in *. set (S := rsum qs) in *.
  set (P := ((1 - u) ^ n)%R) in *. set (Q := ((1 + u) ^ n)%R) in *.
  assert (Hn : (0 <= INR n * eta)%R).
  { apply Rmult_le_pos; [apply pos_INR | exact Heta]. }
  assert (Hup : (T / s <= 1 / P)%R).
  { apply (Rmult_le_reg_r (s * P)); [nra |]. field_simplify; [| lra | lra]. nra. }
  assert (Hlo : (1 / Q <= T / s)%R).
  { apply (Rmult_le_reg_r (s * Q)); [nra |]. field_simplify; [| lra | lra]. nra. }
  assert (U : (S - 1 <= (1 + u) / P - 1 + INR n * eta)%R).
  { assert (A : (T / s * (1 + u) <= 1 / P * (1 + u))%R) by (apply Rmult_le_compat_r; lra).
    replace ((1 + u) / P)%R with (1 / P * (1 + u))%R by (field; lra). lra. }
  assert (L : (- (1 - (1 - u) / Q + INR n * eta) <= S - 1)%R).
  { assert (A : (1 / Q * (1 - u) <= T / s * (1 - u))%R) by (apply Rmult_le_compat_r; lra).
    replace ((1 - u) / Q)%R with (1 / Q * (1 - u))%R by (field; lra). lra. }
  pose proof (Rmax_l ((1 + u) / P - 1) (1 - (1 - u) / Q)) as M1.
  pose proof (Rmax_r ((1 + u) / P - 1) (1 - (1 - u) / Q)) as M2.
  apply Rabs_le. lra.
Qed.

Lemma finite_values (xs : tensor) :
  Forall (fun x => is_finite x = true) xs -> exists l, xs = map Fin l.
Proof.
  induction 1 as [| x xs Hx _ [l ->]]; [now exists [] |].
  destruct x as [a | | |]; try discriminate. now exists (a :: l).
Qed.

Lemma softmax_of_finite_scores (xs : tensor) :
  xs <> [] -> (length xs <= 20)%nat ->
  Forall (fun x => is_finite x = true) xs ->
  Forall in_unit_interval (softmax xs) /\
  (Rabs (rsum (map value (softmax xs)) - 1) <= softmax_tolerance u eta (length xs))%R.
Proof.
  intros Hne Hlen Hfin. destruct (finite_values xs Hfin) as [l ->].
  assert (Hl : l <> []) by (intros ->; now apply Hne).
  rewrite length_map in *.
  destruct (softmax_rounded l Hl Hlen) as [qs [-> [Hq Hsum]]].
  split.
  - rewrite Forall_map. revert Hq. apply Forall_impl. intros q Hq. now exists q.
  - rewrite map_map. cbn [value]. now rewrite map_id.
Qed.

End Rounding.


(** * The claims *)

(** C1 (amended).  For two images whose embeddings are equal
    [detect_changes] has no fallback: it runs the same computation as for
    any other pair.  Every entry of the difference vector is zero or NaN,
    the vector is divided by its norm, which is zero or NaN with it, and
    every confidence of the ranking, which still has [top_k] entries, is
    NaN.  The similarity is the ordinary dot product of the embedding with
    itself and the magnitude one minus it: no value is put in their
    place. *)
Theorem detect_changes_identical_embeddings
    (open_clip : string -> clip_model) (topk : topk_fn) (s : session)
    (path1 path2 : string) (top_k : Z) :
  ieee754 fl ->
  topk_contract topk ->
  session_wf open_clip s ->
  (0 < embed_dim (session_model open_clip s))%nat ->
  embedding (session_model open_clip s) path1 = embedding (session_model open_clip s) path2 ->
  match fst (detect_changes open_clip topk path1 path2 top_k s) with
  | inr r =>
      Z.of_nat (length (detected_changes r)) = top_k /\
      Forall (fun c => change_confidence c = NaN) (detected_changes r) /\
      overall_similarity r
      = tsum (zip_with fmul (embedding (session_model open_clip s) path1)
                (embedding (session_model open_clip s) path1)) /\
      change_magnitude r = py_sub (Fin 1) (overall_similarity r)
  | inl _ => (top_k < 0 \/ 15 < top_k)%Z
  end.
Proof.
  intros Hl Hc Hwf Hdim Heq.
  rewrite (detect_run open_clip topk s path1 path2 top_k Hwf). cbn [fst].
  now apply detect_identical.
Qed.

(** C2.  A [top_k] larger than the catalog makes the scoring path fail: the
    call to [topk] raises torch's out-of-range error (the error the
    specification files under InvalidArgument), in [classify_land_use] beyond
    the 20 land-use categories and in [detect_changes] beyond the 15 change
    descriptions. *)
Theorem top_k_beyond_catalog_fails
    (open_clip : string -> clip_model) (topk : topk_fn) (s : session)
    (path path' : string) (top_k : Z) :
  topk_contract topk ->
  session_wf open_clip s ->
  ((Z.of_nat (length LAND_USE_CATEGORIES) < top_k)%Z ->
   fst (classify_land_use open_clip topk path top_k s)
   = inl (RuntimeError "selected index k out of range")) /\
  ((Z.of_nat (length CHANGE_DESCRIPTIONS) < top_k)%Z ->
   fst (detect_changes open_clip topk path path' top_k s)
   = inl (RuntimeError "selected index k out of range")).
Proof.
  intros Hc Hwf. split; intros Hk.
  - rewrite (classify_run open_clip topk s path top_k Hwf). cbn [fst].
    unfold classify_result. apply (ranking_fails topk Hc).
    rewrite land_use_probs_length. right. exact Hk.
  - rewrite (detect_run open_clip topk s path path' top_k Hwf). cbn [fst].
    unfold detect_result. rewrite (ranking_fails topk Hc); [reflexivity |].
    rewrite change_probs_length. right. exact Hk.
Qed.

(** C3 (amended).  For a [top_k] from 1 to the catalog size 20,
    [classify_land_use] returns exactly [top_k] = min(top_k, 20) entries,
    sorted by descending confidence in the order of [topk] (NaN first),
    which is the usual descending order when no returned confidence is NaN.
    For a [top_k] above 20 it returns no list: the call fails. *)
Theorem classify_land_use_length_and_order
    (open_clip : string -> clip_model) (topk : topk_fn) (s : session)
    (image_path : string) (top_k : Z) :
  topk_contract topk ->
  session_wf open_clip s ->
  ((1 <= top_k <= Z.of_nat (length LAND_USE_CATEGORIES))%Z ->
   exists l,
     fst (classify_land_use open_clip topk image_path top_k s) = inr l /\
     Z.of_nat (length l) = top_k /\
     Z.of_nat (length l) = Z.min top_k (Z.of_nat (length LAND_USE_CATEGORIES)) /\
     sorted_by tge (map confidence l) = true /\
     (Forall (fun c => is_nan (confidence c) = false) l ->
      descending (map confidence l) = true)) /\
  ((Z.of_nat (length LAND_USE_CATEGORIES) < top_k)%Z ->
   fst (classify_land_use open_clip topk image_path top_k s)
   = inl (RuntimeError "selected index k out of range")).
Proof.
  intros Hc Hwf. set (m := session_model open_clip s).
  rewrite (classify_run open_clip topk s image_path top_k Hwf). cbn [fst]. fold m.
  unfold classify_result. split.
  - intros Hk.
    destruct (ranking_returns topk Hc LAND_USE_CATEGORIES mk_land_use
                (land_use_probs m image_path) top_k (land_use_probs_length m image_path))
      as [vals [idxs [Et [E Hlen]]]]; [lia |].
    rewrite E. eexists. split; [reflexivity |].
    destruct (topk_shape topk Hc _ _ _ _ Et) as [Hvl _].
    pose proof (map_fst_labelled LAND_USE_CATEGORIES mk_land_use confidence vals idxs
                  (fun _ _ => eq_refl) Hvl) as Hconf.
    rewrite Hconf, length_map.
    split; [exact Hlen |]. split; [lia |].
    pose proof (topk_sorted topk Hc _ _ _ _ Et) as Hs. split; [exact Hs |].
    intros Hn. rewrite <- descending_finite; [exact Hs |].
    rewrite <- Hconf. apply Forall_map. exact Hn.
  - intros Hk. apply (ranking_fails topk Hc).
    rewrite land_use_probs_length. right. exact Hk.
Qed.

(** C4.  With fewer than two image paths [analyze_temporal_sequence] raises
    [ValueError] (the specification's InvalidArgument).  The only thing done
    before is loading the model when it was not loaded yet: the state left
    behind is the loaded session, whose call log has no encoding call
    added. *)
Theorem analyze_rejects_short_sequences
    (open_clip : string -> clip_model) (topk : topk_fn) (s : session)
    (image_paths : list string) (dates : option (list string)) :
  (length image_paths < 2)%nat ->
  analyze_temporal_sequence open_clip topk image_paths dates s
  = (inl (ValueError "Need at least 2 images for temporal analysis"), loaded open_clip s)
  /\ calls (loaded open_clip s)
     = calls s ++ (if _initialized (self s) then [] else [LoadModel (model_name (self s))]).
Proof.
  intros Hlen. split; [| apply loaded_calls].
  unfold analyze_temporal_sequence.
  rewrite (bind_ok _ _ _ _ _ (ensure_initialized_loads open_clip s)).
  destruct (Z.of_nat (length image_paths) <? 2)%Z eqn:E; [reflexivity |].
  apply Z.ltb_ge in E. lia.
Qed.

(** ** Loops of the sequence analyzer *)

Lemma for_each_run {A B : Type} (m : clip_model) (P : A -> B -> Prop)
    (body : A -> M B) (xs : list A) :
  (forall x s, In x xs -> ready m s ->
     exists b evs, body x s = (inr b, log s evs) /\ P x b) ->
  forall s, ready m s ->
    exists bs evs, for_each xs body s = (inr bs, log s evs) /\ Forall2 P xs bs.
Proof.
  induction xs as [| x xs IH]; intros Hbody s Hr.
  - exists [], []. rewrite log_nil. split; [reflexivity | constructor].
  - destruct (Hbody x s (or_introl eq_refl) Hr) as [b [evs [Hb HP]]].
    destruct (IH (fun y t Hy => Hbody y t (or_intror Hy)) (log s evs) (ready_log m s evs Hr))
      as [bs [evs' [Hbs HPs]]].
    exists (b :: bs), (evs ++ evs'). cbn [for_each].
    rewrite (bind_ok _ _ _ _ _ Hb), (bind_ok _ _ _ _ _ Hbs), log_log.
    split; [reflexivity | now constructor].
Qed.

Lemma in_enumerate_from {A : Type} (l : list A) (a : nat) (ip : Z * A) :
  In ip (combine (map Z.of_nat (seq a (length l))) l) ->
  exists i, fst ip = Z.of_nat (a + i) /\ nth_error l i = Some (snd ip).
Proof.
  revert a. induction l as [| x l IH]; intros a; simpl; [contradiction |].
  intros [<- | H].
  - exists 0%nat. rewrite Nat.add_0_r. auto.
  - destruct (IH (S a) H) as [i [Hi Hn]]. exists (S i).
    rewrite Hi. split; [f_equal; lia | exact Hn].
Qed.

Lemma in_enumerate {A : Type} (l : list A) (ip : Z * A) :
  In ip (enumerate l) ->
  exists i, fst ip = Z.of_nat i /\ nth_error l i = Some (snd ip).
Proof. apply in_enumerate_from. Qed.

Lemma nth_error_enumerate_from {A : Type} (l : list A) (a n : nat) (ip : Z * A) :
  nth_error (combine (map Z.of_nat (seq a (length l))) l) n = Some ip ->
  fst ip = Z.of_nat (a + n) /\ nth_error l n = Some (snd ip).
Proof.
  revert a n. induction l as [| x l IH]; intros a [| n]; simpl; try discriminate.
  - intros E. inversion E. simpl. rewrite Nat.add_0_r. auto.
  - intros E. destruct (IH (S a) n E) as [H1 H2]. rewrite H1.
    split; [f_equal; lia | exact H2].
Qed.

Lemma nth_error_enumerate {A : Type} (l : list A) (n : nat) (ip : Z * A) :
  nth_error (enumerate l) n = Some ip ->
  fst ip = Z.of_nat n /\ nth_error l n = Some (snd ip).
Proof. apply nth_error_enumerate_from. Qed.

Lemma enumerate_length {A : Type} (l : list A) : length (enumerate l) = length l.
Proof.
  unfold enumerate. now rewrite length_combine, length_map, length_seq, Nat.min_id.
Qed.

Lemma range_length (n : Z) : length (range n) = Z.to_nat n.
Proof. unfold range. now rewrite length_map, length_seq. Qed.

Lemma in_range (n i : Z) :
  In i (range n) -> exists j, i = Z.of_nat j /\ (j < Z.to_nat n)%nat.
Proof.
  unfold range. intros H. apply in_map_iff in H. destruct H as [j [<- Hj]].
  apply in_seq in Hj. exists j. split; [reflexivity | lia].
Qed.

Lemma getitem_nth_error {A : Type} (l : list A) (i : nat) (x : A) :
  nth_error l i = Some x -> getitem l (Z.of_nat i) = inr x.
Proof.
  intros H. rewrite (getitem_nat l i x).
  - now rewrite (nth_error_nth _ _ x H).
  - apply nth_error_Some. congruence.
Qed.

Lemma getitem_last {A : Type} (l : list A) :
  l <> [] -> exists x, getitem l (-1) = inr x /\ nth_error l (length l - 1) = Some x.
Proof.
  intros Hne. assert (Hlen : (0 < length l)%nat) by (destruct l; [congruence | simpl; lia]).
  destruct (nth_error l (length l - 1)) as [x |] eqn:E;
    [| apply nth_error_None in E; lia].
  exists x. split; [| reflexivity]. unfold getitem. cbv zeta.
  replace (-1 <? 0)%Z with true by reflexivity.
  assert (Hj : (-1 + Z.of_nat (length l) <? 0)%Z = false) by (apply Z.ltb_ge; lia).
  rewrite Hj. replace (Z.to_nat (-1 + Z.of_nat (length l))) with (length l - 1)%nat by lia.
  now rewrite E.
Qed.

Lemma date_at_ok (dates : option (list string)) (n i : nat) :
  dates_ok dates n -> (i < n)%nat -> exists d, date_at dates (Z.of_nat i) = inr d.
Proof.
  intros Hok Hi. unfold date_at. destruct dates as [[| d0 ds] |]; eauto.
  cbn [dates_ok] in Hok.
  rewrite (getitem_nat (d0 :: ds) i EmptyString) by lia. eauto.
Qed.

Lemma Forall2_nth_error {A B : Type} (P : A -> B -> Prop) (xs : list A) (bs : list B)
    (n : nat) (b : B) :
  Forall2 P xs bs -> nth_error bs n = Some b ->
  exists x, nth_error xs n = Some x /\ P x b.
Proof.
  intros H. revert n. induction H as [| x b' xs bs HP _ IH]; intros [| n] E;
    simpl in *; try discriminate.
  - inversion E; subst. eauto.
  - now apply IH.
Qed.

Lemma top2_result (topk : topk_fn) (m : clip_model) (path : string) :
  topk_contract topk -> exists c1 c2, classify_result topk m path 2 = inr [c1; c2].
Proof.
  intros Hc.
  destruct (ranking_returns topk Hc LAND_USE_CATEGORIES mk_land_use (land_use_probs m path) 2
              (land_use_probs_length m path)) as [vals [idxs [_ [E Hl]]]]; [simpl; lia |].
  unfold classify_result. rewrite E.
  destruct (combine vals idxs) as [| p [| q [| r tl]]]; simpl in Hl; try lia.
  eexists. eexists. reflexivity.
Qed.

Lemma top3_changes (topk : topk_fn) (m : clip_model) (path1 path2 : string) :
  topk_contract topk -> exists r, detect_result topk m path1 path2 3 = inr r.
Proof.
  intros Hc.
  destruct (ranking_returns topk Hc CHANGE_DESCRIPTIONS mk_change (change_probs m path1 path2) 3
              (change_probs_length m path1 path2)) as [vals [idxs [_ [E _]]]]; [simpl; lia |].
  unfold detect_result. rewrite E. eexists. reflexivity.
Qed.

Section Sequence.

Variable open_clip : string -> clip_model.
Variable topk : topk_fn.
Hypothesis contract : topk_contract topk.

Variable m : clip_model.
Variable image_paths : list string.
Variable dates : option (list string).
Hypothesis dates_fit : dates_ok dates (length image_paths).

Lemma individual_step (ip : Z * string) (t : session) :
  In ip (enumerate image_paths) -> ready m t ->
  exists b evs,
    (features <- _encode_image (snd ip) ;;
     classification <- classify_land_use open_clip topk (snd ip) 2 ;;
     d <- lift (date_at dates (fst ip)) ;;
     ret {| index := fst ip; date := d; classification := classification |}) t
    = (inr b, log t evs) /\
    individual_entry topk m dates ip b.
Proof.
  intros Hin Hr. destruct (in_enumerate _ _ Hin) as [i [Hi Hn]].
  assert (Hlt : (i < length image_paths)%nat) by (apply nth_error_Some; congruence).
  destruct (top2_result topk m (snd ip) contract) as [c1 [c2 Ec]].
  destruct (date_at_ok dates _ i dates_fit Hlt) as [d Ed]. rewrite <- Hi in Ed.
  rewrite (bind_ok _ _ _ _ _ (encode_image_run m t (snd ip) Hr)).
  pose proof (classify_ready open_clip topk m _ (snd ip) 2
                (ready_log m t [EncodeImage (snd ip)] Hr)) as Rc.
  rewrite Ec in Rc. rewrite (bind_ok _ _ _ _ _ Rc), log_log, Ed.
  cbn [lift]. rewrite (bind_ok _ _ _ _ d) by reflexivity.
  eexists. eexists. split; [reflexivity |].
  unfold individual_entry. cbn [index date classification]. auto.
Qed.

Lemma pairwise_step (i : Z) (t : session) :
  In i (range (Z.of_nat (length image_paths) - 1)) -> ready m t ->
  exists b evs,
    (path_i <- lift (getitem image_paths i) ;;
     path_j <- lift (getitem image_paths (i + 1)) ;;
     change_analysis <- detect_changes open_clip topk path_i path_j 3 ;;
     fd <- lift (date_at dates i) ;;
     td <- lift (date_at dates (i + 1)) ;;
     ret {| from_index := i; to_index := (i + 1)%Z;
            from_date := fd; to_date := td;
            analysis := change_analysis |}) t
    = (inr b, log t evs) /\
    pairwise_entry topk m image_paths dates i b.
Proof.
  intros Hin Hr. destruct (in_range _ _ Hin) as [j [-> Hj]].
  assert (Hj1 : (S j < length image_paths)%nat) by lia.
  destruct (nth_error image_paths j) as [p |] eqn:Ep;
    [| apply nth_error_None in Ep; lia].
  destruct (nth_error image_paths (S j)) as [q |] eqn:Eq;
    [| apply nth_error_None in Eq; lia].
  destruct (top3_changes topk m p q contract) as [ca Eca].
  destruct (date_at_ok dates _ j dates_fit ltac:(lia)) as [fd Efd].
  destruct (date_at_ok dates _ (S j) dates_fit Hj1) as [td Etd].
  replace (Z.of_nat (S j)) with (Z.of_nat j + 1)%Z in Etd by lia.
  rewrite (getitem_nth_error _ _ _ Ep). cbn [lift].
  rewrite (bind_ok _ _ _ _ p) by reflexivity.
  replace (getitem image_paths (Z.of_nat j + 1)) with (@inr exn string q)
    by (symmetry; replace (Z.of_nat j + 1)%Z with (Z.of_nat (S j)) by lia;
        now apply getitem_nth_error).
  cbn [lift]. rewrite (bind_ok _ _ _ _ q) by reflexivity.
  pose proof (detect_ready open_clip topk m t p q 3 Hr) as Rd. rewrite Eca in Rd.
  rewrite (bind_ok _ _ _ _ _ Rd), Efd, Etd. cbn [lift].
  rewrite (bind_ok _ _ _ _ fd) by reflexivity.
  rewrite (bind_ok _ _ _ _ td) by reflexivity.
  eexists. eexists. split; [reflexivity |].
  unfold pairwise_entry. cbn [from_index to_index from_date to_date analysis].
  repeat split; try assumption. exists p, q. rewrite Nat2Z.id. auto.
Qed.

End Sequence.

(** A non-empty [dates] shorter than the images is outside the contract:
    the second image already fails at [dates[1]]. *)
Example short_dates_raise :
  fst (analyze_temporal_sequence example_clip topk_stable ["north"; "south"] (Some ["2015"])
         example_session)
  = inl (IndexError "list index out of range").
Proof.
  set (m := session_model example_clip example_session).
  pose proof (loaded_ready example_clip example_session example_session_wf) as Hr. fold m in Hr.
  destruct (top2_result topk_stable m "north" topk_stable_contract) as [a1 [a2 Ea]].
  destruct (top2_result topk_stable m "south" topk_stable_contract) as [b1 [b2 Eb]].
  unfold analyze_temporal_sequence.
  rewrite (bind_ok _ _ _ _ _ (ensure_initialized_loads example_clip example_session)).
  change (Z.of_nat (length ["north"; "south"]) <? 2)%Z with false. cbv iota.
  change (enumerate ["north"; "south"]) with [(0%Z, "north"); (1%Z, "south")].
  cbn [for_each fst snd].
  unfold bind at 1. unfold bind at 1.
  rewrite (bind_ok _ _ _ _ _ (encode_image_run m _ "north" Hr)).
  pose proof (classify_ready example_clip topk_stable m _ "north" 2
                (ready_log m _ [EncodeImage "north"] Hr)) as R1.
  rewrite Ea in R1. rewrite (bind_ok _ _ _ _ _ R1), log_log.
  change (date_at (Some ["2015"]) 0) with (@inr exn _ (Some "2015")).
  cbn [lift]. rewrite (bind_ok _ _ _ _ (Some "2015")) by reflexivity.
  unfold ret at 1. unfold bind at 1. unfold bind at 1.
  match goal with
  | |- context [log ?t (?e1 ++ ?e2)] =>
      set (e := e1 ++ e2) in *;
      pose proof (ready_log m t e Hr) as Hr2;
      rewrite (bind_ok _ _ _ _ _ (encode_image_run m _ "south" Hr2));
      pose proof (classify_ready example_clip topk_stable m _ "south" 2
                    (ready_log m _ [EncodeImage "south"] Hr2)) as R2
  end.
  rewrite Eb in R2. rewrite (bind_ok _ _ _ _ _ R2).
  change (date_at (Some ["2015"]) 1) with (@inl exn (option string)
                                             (IndexError "list index out of range")).
  cbn [lift]. unfold bind at 1. unfold raise at 1. reflexivity.
Qed.

(** C5.  For N >= 2 image paths (and dates that are absent, empty or at
    least one per image) [analyze_temporal_sequence] returns: N individual
    classifications, the i-th carrying index i and the top-2 classification
    of the i-th image; N-1 pairwise changes, the i-th going from index i to
    i+1 with the change analysis of images i and i+1; and one overall trend
    built from the change analysis of the first and the last image and from
    their top-1 land-use categories. *)
Theorem analyze_temporal_sequence_entries
    (open_clip : string -> clip_model) (topk : topk_fn) (s : session)
    (image_paths : list string) (dates : option (list string)) :
  topk_contract topk ->
  session_wf open_clip s ->
  (2 <= length image_paths)%nat ->
  dates_ok dates (length image_paths) ->
  let m := session_model open_clip s in
  exists r s',
    analyze_temporal_sequence open_clip topk image_paths dates s = (inr r, s') /\
    num_images r = Z.of_nat (length image_paths) /\
    length (individual_classifications r) = length image_paths /\
    Forall2 (individual_entry topk m dates)
      (enumerate image_paths) (individual_classifications r) /\
    length (pairwise_changes r) = (length image_paths - 1)%nat /\
    Forall2 (pairwise_entry topk m image_paths dates)
      (range (Z.of_nat (length image_paths) - 1)) (pairwise_changes r) /\
    exists t, overall_trend r = Some t /\ trend_entry topk m image_paths t.
Proof.
  intros Hc Hwf HN Hd m.
  pose proof (loaded_ready open_clip s Hwf) as Hr. fold m in Hr.
  unfold analyze_temporal_sequence.
  rewrite (bind_ok _ _ _ _ _ (ensure_initialized_loads open_clip s)).
  assert (E2 : (Z.of_nat (length image_paths) <? 2)%Z = false) by (apply Z.ltb_ge; lia).
  rewrite E2.
  destruct (for_each_run m (individual_entry topk m dates) _ (enumerate image_paths)
              (individual_step open_clip topk Hc m image_paths dates Hd) _ Hr)
    as [ind [evs1 [Hind Find]]].
  rewrite (bind_ok _ _ _ _ _ Hind).
  destruct (for_each_run m (pairwise_entry topk m image_paths dates) _
              (range (Z.of_nat (length image_paths) - 1))
              (pairwise_step open_clip topk Hc m image_paths dates Hd) _
              (ready_log m _ evs1 Hr))
    as [pairs [evs2 [Hpairs Fpairs]]].
  rewrite (bind_ok _ _ _ _ _ Hpairs), log_log.
  assert (E3 : (2 <=? Z.of_nat (length image_paths))%Z = true) by (apply Z.leb_le; lia).
  rewrite E3.
  (* the two end points *)
  destruct (nth_error image_paths 0) as [first_path |] eqn:Efirst;
    [| apply nth_error_None in Efirst; lia].
  destruct (getitem_last image_paths) as [last_path [Glast Elast]];
    [destruct image_paths; [simpl in HN; lia | discriminate] |].
  destruct (top3_changes topk m first_path last_path Hc) as [oc Eoc].
  pose proof (detect_ready open_clip topk m _ first_path last_path 3
                (ready_log m _ (evs1 ++ evs2) Hr)) as Rd.
  rewrite Eoc in Rd.
  (* the first and last individual entries *)
  pose proof (Forall2_length Find) as Hlen. rewrite enumerate_length in Hlen.
  destruct (nth_error ind 0) as [first_item |] eqn:Ei0;
    [| apply nth_error_None in Ei0; lia].
  destruct (getitem_last ind) as [last_item [Gil Eil]];
    [destruct ind; [simpl in Hlen; lia | discriminate] |].
  destruct (Forall2_nth_error _ _ _ _ _ Find Ei0) as [ip0 [Eip0 [_ [Hcl0 _]]]].
  destruct (Forall2_nth_error _ _ _ _ _ Find Eil) as [ipl [Eipl [_ [Hcll _]]]].
  apply nth_error_enumerate in Eip0. destruct Eip0 as [_ Eip0].
  apply nth_error_enumerate in Eipl. destruct Eipl as [_ Eipl].
  rewrite Efirst in Eip0. inversion Eip0 as [Hp0]. rewrite <- Hp0 in Hcl0.
  rewrite <- Hlen, Elast in Eipl. inversion Eipl as [Hpl]. rewrite <- Hpl in Hcll.
  destruct (top2_result topk m first_path Hc) as [f1 [f2 Ef]].
  destruct (top2_result topk m last_path Hc) as [l1 [l2 El]].
  assert (Hcf : classification first_item = [f1; f2]) by congruence.
  assert (Hcl : classification last_item = [l1; l2]) by congruence.
  (* run the trend block *)
  rewrite (getitem_nth_error image_paths 0 first_path Efirst : getitem image_paths 0 = _).
  unfold bind at 1. cbn [lift]. rewrite (bind_ok _ _ _ _ first_path) by reflexivity.
  rewrite Glast. cbn [lift]. rewrite (bind_ok _ _ _ _ last_path) by reflexivity.
  rewrite (bind_ok _ _ _ _ _ Rd).
  rewrite (getitem_nth_error ind 0 first_item Ei0 : getitem ind 0 = _).
  cbn [lift]. rewrite (bind_ok _ _ _ _ first_item) by reflexivity.
  rewrite Hcf. rewrite (bind_ok _ _ _ _ f1) by reflexivity.
  rewrite Gil. cbn [lift]. rewrite (bind_ok _ _ _ _ last_item) by reflexivity.
  rewrite Hcl. rewrite (bind_ok _ _ _ _ l1) by reflexivity.
  unfold ret at 1.
  eexists. eexists. split; [reflexivity |].
  cbn [num_images individual_classifications pairwise_changes overall_trend].
  split; [reflexivity |]. split; [now symmetry |]. split; [exact Find |].
  split.
  { rewrite <- (Forall2_length Fpairs), range_length. lia. }
  split; [exact Fpairs |].
  eexists. split; [reflexivity |].
  exists first_path, last_path, oc, f1, l1, [f2], [l2].
  cbn [total_change_magnitude primary_changes land_use_transition]. repeat split; assumption.
Qed.

(** C6.  Whenever [detect_changes] returns, and it returns for every
    [top_k] from 0 to 15, [overall_similarity] is the sum of the products
    of the entries of the two image embeddings, each the raw model output
    divided by its norm, and not of the vector that carries the change
    context; [change_magnitude] is one minus it. *)
Theorem detect_changes_overall_similarity
    (open_clip : string -> clip_model) (topk : topk_fn) (s : session)
    (path1 path2 : string) (top_k : Z) :
  topk_contract topk ->
  session_wf open_clip s ->
  let m := session_model open_clip s in
  let unit_norm (raw : tensor) : tensor :=
    map (fun x => fdiv x (fsqrt (fold_right fadd (Fin 0) (map (fun y => fmul y y) raw)))) raw in
  let v_a := unit_norm (encode_image m path1) in
  let v_b := unit_norm (encode_image m path2) in
  match fst (detect_changes open_clip topk path1 path2 top_k s) with
  | inr r =>
      overall_similarity r
      = fold_right fadd (Fin 0) (map (fun ab => fmul (fst ab) (snd ab)) (combine v_a v_b)) /\
      change_magnitude r = py_sub (Fin 1) (overall_similarity r)
  | inl _ => (top_k < 0 \/ 15 < top_k)%Z
  end.
Proof.
  intros Hc Hwf m unit_norm v_a v_b.
  rewrite (detect_run open_clip topk s path1 path2 top_k Hwf). cbn [fst].
  unfold detect_result. fold m.
  pose proof (ranking_spec topk Hc CHANGE_DESCRIPTIONS mk_change
                (change_probs m path1 path2) top_k (change_probs_length m path1 path2)) as H.
  destruct (ranking topk CHANGE_DESCRIPTIONS mk_change (change_probs m path1 path2) top_k).
  - exact (proj2 H).
  - split; reflexivity.
Qed.

Lemma insert_reversed_constant (v : fnum) (i : nat) (l : list ranked) :
  Forall (fun q => fst q = v) l ->
  insert_by before_reversed (v, i) l = l ++ [(v, i)].
Proof.
  induction 1 as [| q l Hq _ IH]; [reflexivity |].
  cbn [insert_by app]. unfold before_reversed at 1. cbn [fst].
  now rewrite Hq, tge_refl, IH.
Qed.

Lemma sort_reversed_constant (v : fnum) (n a : nat) :
  sort_by before_reversed (combine (repeat v n) (seq a n))
  = rev (combine (repeat v n) (seq a n)).
Proof.
  revert a. induction n as [| n IH]; intros a; [reflexivity |].
  cbn [repeat seq combine sort_by fold_right rev].
  change (fold_right (insert_by before_reversed) [] ?l) with (sort_by before_reversed l).
  rewrite IH. apply insert_reversed_constant.
  apply Forall_forall. intros [w j] Hin. apply in_rev, in_combine_l, repeat_spec in Hin.
  exact Hin.
Qed.

Lemma confidences_constant (q row : tensor) (n : nat) :
  exists v, confidences q (repeat row n) = repeat v n.
Proof.
  unfold confidences, scores, matvec, tscale, softmax, tdiv. rewrite !map_repeat.
  eexists. reflexivity.
Qed.

Lemma example_land_use_probs_constant (path : string) :
  exists v, land_use_probs (example_clip "ViT-B-32") path = repeat v 20.
Proof.
  unfold land_use_probs.
  change (text_embeddings (example_clip "ViT-B-32") LAND_USE_CATEGORIES)
    with (repeat (normalize [Fin 1; Fin 0]) 20).
  apply confidences_constant.
Qed.

(** With every confidence equal, the selection that puts an entry after its
    equals returns the last category of the catalog. *)
Lemma reversed_selection_on_ties (path : string) :
  exists v s',
    classify_land_use example_clip topk_reversed path 1 example_session
    = (inr [{| category := "sports facility or stadium"; confidence := v |}], s') /\
    land_use_probs (session_model example_clip example_session) path = repeat v 20.
Proof.
  rewrite (classify_run example_clip topk_reversed example_session path 1
             example_session_wf).
  unfold classify_result, ranking.
  change (session_model example_clip example_session) with (example_clip "ViT-B-32").
  destruct (example_land_use_probs_constant path) as [v ->].
  exists v. unfold topk_reversed, topk_with.
  replace (length (repeat v 20)) with 20%nat by reflexivity.
  rewrite (sort_reversed_constant v 20 0).
  eexists. split; reflexivity.
Qed.

(** C7 (amended).  Both scoring paths take the dot product of the query
    with every candidate row, multiply each by 100, apply softmax to the
    scores of the whole catalog and hand the result to [topk]: what they
    return is the labelled selection of [topk], [top_k] distinct candidates
    in descending order of confidence, none below a candidate left out.
    Nothing is said about the order of equal confidences: that is left to
    [topk]. *)
Theorem scoring_selects_top_k
    (open_clip : string -> clip_model) (topk : topk_fn) (s : session)
    (path1 path2 : string) (top_k : Z) :
  topk_contract topk ->
  session_wf open_clip s ->
  let m := session_model open_clip s in
  let scored (query : tensor) (candidates : list tensor) : tensor :=
    map (fun similarity => fmul similarity (Fin 100))
      (map (fun row =>
              fold_right fadd (Fin 0) (map (fun qr => fmul (fst qr) (snd qr)) (combine query row)))
         candidates) in
  match fst (classify_land_use open_clip topk path1 top_k s) with
  | inr l =>
      exists vals idxs,
        l = map (labelled LAND_USE_CATEGORIES mk_land_use) (combine vals idxs) /\
        top_selection
          (softmax (scored (embedding m path1) (text_embeddings m LAND_USE_CATEGORIES)))
          top_k vals idxs
  | inl _ => (top_k < 0 \/ 20 < top_k)%Z
  end /\
  match fst (detect_changes open_clip topk path1 path2 top_k s) with
  | inr r =>
      exists vals idxs,
        detected_changes r = map (labelled CHANGE_DESCRIPTIONS mk_change) (combine vals idxs) /\
        top_selection
          (softmax (scored (change_query m path1 path2) (text_embeddings m change_texts)))
          top_k vals idxs
  | inl _ => (top_k < 0 \/ 15 < top_k)%Z
  end /\
  length (scored (embedding m path1) (text_embeddings m LAND_USE_CATEGORIES)) = 20%nat /\
  length (scored (change_query m path1 path2) (text_embeddings m change_texts)) = 15%nat.
Proof.
  intros Hc Hwf m scored. split; [| split; [| split]].
  - rewrite (classify_run open_clip topk s path1 top_k Hwf). cbn [fst]. fold m.
    exact (ranking_selection topk LAND_USE_CATEGORIES mk_land_use _ top_k Hc
             (land_use_probs_length m path1)).
  - rewrite (detect_run open_clip topk s path1 path2 top_k Hwf). cbn [fst]. fold m.
    unfold detect_result.
    pose proof (ranking_selection topk CHANGE_DESCRIPTIONS mk_change _ top_k Hc
                  (change_probs_length m path1 path2)) as H.
    destruct (ranking topk CHANGE_DESCRIPTIONS mk_change (change_probs m path1 path2) top_k);
      exact H.
  - unfold scored, text_embeddings. now rewrite !length_map.
  - unfold scored, text_embeddings, change_texts. now rewrite !length_map.
Qed.

(** C8 (amended).  The confidences a method reports are entries of the
    softmax of the scores of the whole catalog, twenty or fifteen of them.
    When every score is a finite number that distribution lies in [0, 1]
    and sums to 1 within the rounding of twenty (fifteen) additions and a
    division; when the two image embeddings are equal the scores are NaN
    and the distribution over the change descriptions is NaN throughout,
    with a NaN sum. *)
Theorem confidence_distribution_normalised
    (open_clip : string -> clip_model) (topk : topk_fn) (s : session)
    (path1 path2 : string) (top_k : Z) (u eta : R) :
  ieee754 fl ->
  rounding fl u eta ->
  topk_contract topk ->
  session_wf open_clip s ->
  let m := session_model open_clip s in
  (match fst (classify_land_use open_clip topk path1 top_k s) with
   | inr l => Forall (fun c => In (confidence c) (softmax (land_use_scores m path1))) l
   | inl _ => True
   end /\
   match fst (detect_changes open_clip topk path1 path2 top_k s) with
   | inr r =>
       Forall (fun c => In (change_confidence c) (softmax (change_scores m path1 path2)))
         (detected_changes r)
   | inl _ => True
   end) /\
  (length (land_use_scores m path1) = 20%nat /\
   length (change_scores m path1 path2) = 15%nat) /\
  (Forall (fun x => is_finite x = true) (land_use_scores m path1) ->
   Forall in_unit_interval (softmax (land_use_scores m path1)) /\
   (Rabs (rsum (map value (softmax (land_use_scores m path1))) - 1)
    <= softmax_tolerance u eta 20)%R) /\
  (Forall (fun x => is_finite x = true) (change_scores m path1 path2) ->
   Forall in_unit_interval (softmax (change_scores m path1 path2)) /\
   (Rabs (rsum (map value (softmax (change_scores m path1 path2))) - 1)
    <= softmax_tolerance u eta 15)%R) /\
  ((0 < embed_dim m)%nat -> embedding m path1 = embedding m path2 ->
   all_nan (softmax (change_scores m path1 path2)) /\
   tsum (softmax (change_scores m path1 path2)) = NaN).
Proof.
  intros Hl Hacc Hc Hwf m.
  pose proof (land_use_scores_length m path1) as Hland.
  pose proof (change_scores_length m path1 path2) as Hchange.
  split; [split |]; [| | split; [split; assumption |]; split; [| split]].
  - rewrite (classify_run open_clip topk s path1 top_k Hwf). cbn [fst]. fold m.
    unfold classify_result.
    destruct (ranking topk LAND_USE_CATEGORIES mk_land_use (land_use_probs m path1) top_k)
      as [e | l] eqn:E; [exact I |].
    exact (proj2 (ranking_confidences topk LAND_USE_CATEGORIES mk_land_use confidence _ _ _ Hc
                    (fun _ _ => eq_refl) (land_use_probs_length m path1) E)).
  - rewrite (detect_run open_clip topk s path1 path2 top_k Hwf). cbn [fst]. fold m.
    unfold detect_result.
    destruct (ranking topk CHANGE_DESCRIPTIONS mk_change (change_probs m path1 path2) top_k)
      as [e | l] eqn:E; [exact I |].
    exact (proj2 (ranking_confidences topk CHANGE_DESCRIPTIONS mk_change change_confidence
                    _ _ _ Hc (fun _ _ => eq_refl) (change_probs_length m path1 path2) E)).
  - intros Hfin. rewrite <- Hland.
    apply (softmax_of_finite_scores u eta Hl Hacc); [| lia | exact Hfin].
    apply nonempty_length. lia.
  - intros Hfin. rewrite <- Hchange.
    apply (softmax_of_finite_scores u eta Hl Hacc); [| lia | exact Hfin].
    apply nonempty_length. lia.
  - intros Hdim Heq.
    pose proof (equal_embeddings_all_nan Hl m path1 path2 Hdim Heq) as Hn.
    split; [exact Hn |].
    apply (tsum_nan Hl), all_nan_in; [exact Hn |].
    apply nonempty_length. rewrite softmax_length, Hchange. lia.
Qed.

(** ** [compare_images], step by step *)

Lemma compare_run (open_clip : string -> clip_model) (topk : topk_fn) (s : session)
    (image1_path image2_path : string) :
  topk_contract topk ->
  session_wf open_clip s ->
  let m := session_model open_clip s in
  exists class1 class2,
    classify_result topk m image1_path 1 = inr [class1] /\
    classify_result topk m image2_path 1 = inr [class2] /\
    compare_images open_clip topk image1_path image2_path s
    = (inr {| similarity := dot (embedding m image1_path) (embedding m image2_path);
              change_detected :=
                flt (dot (embedding m image1_path) (embedding m image2_path)) (Fin 0.85)
                || negb (String.eqb (category class1) (category class2));
              image1_classification := class1;
              image2_classification := class2 |},
       log (loaded open_clip s) (compare_calls image1_path image2_path)).
Proof.
  intros Hc Hwf m.
  destruct (top1_result topk m image1_path Hc) as [c1 E1].
  destruct (top1_result topk m image2_path Hc) as [c2 E2].
  exists c1, c2. split; [exact E1 |]. split; [exact E2 |].
  pose proof (loaded_ready open_clip s Hwf) as Hr. fold m in Hr.
  unfold compare_images.
  rewrite (bind_ok _ _ _ _ _ (ensure_initialized_loads open_clip s)).
  rewrite (bind_ok _ _ _ _ _ (encode_image_run m _ image1_path Hr)).
  rewrite (bind_ok _ _ _ _ _ (encode_image_run m _ image2_path (ready_log m _ _ Hr))).
  rewrite log_log.
  pose proof (classify_ready open_clip topk m _ image1_path 1
                (ready_log m _ ([EncodeImage image1_path] ++ [EncodeImage image2_path]) Hr))
    as R1.
  rewrite E1 in R1. rewrite (bind_ok _ _ _ _ _ R1). rewrite log_log.
  cbn [getitem lift]. rewrite (bind_ok _ _ _ _ c1) by reflexivity.
  pose proof (classify_ready open_clip topk m _ image2_path 1
                (ready_log m _ (([EncodeImage image1_path] ++ [EncodeImage image2_path])
                                ++ [EncodeImage image1_path; EncodeTexts LAND_USE_CATEGORIES])
                   Hr)) as R2.
  rewrite E2 in R2. rewrite (bind_ok _ _ _ _ _ R2).
  rewrite (bind_ok _ _ _ _ c2) by reflexivity.
  rewrite log_log. reflexivity.
Qed.


(** ** The singleton *)

Lemma construct_fresh (cuda : bool) (name : string) (g : globals) :
  let l := fst (construct cuda name g) in
  let g' := snd (construct cuda name g) in
  deref g l = None /\
  deref g' l = Some (__init__ cuda name None) /\
  _analyzer_instance g' = Some l /\
  (forall k a, deref g k = Some a -> deref g' k = Some a).
Proof.
  unfold construct, deref. cbn [fst snd heap _analyzer_instance]. repeat split.
  - apply nth_error_None. lia.
  - rewrite nth_error_app2 by lia. now rewrite Nat.sub_diag.
  - intros k a H. rewrite nth_error_app1; [exact H |].
    apply nth_error_Some. congruence.
Qed.

Lemma get_analyzer_wf (cuda : bool) (name : string) (g : globals) :
  globals_wf g ->
  let l := fst (get_analyzer cuda name g) in
  let g' := snd (get_analyzer cuda name g) in
  globals_wf g' /\ _analyzer_instance g' = Some l /\
  exists a, deref g' l = Some a /\ model_name a = name.
Proof.
  intros Hwf.
  assert (Hnew : let l := fst (construct cuda name g) in
                 let g' := snd (construct cuda name g) in
                 globals_wf g' /\ _analyzer_instance g' = Some l /\
                 exists a, deref g' l = Some a /\ model_name a = name).
  { destruct (construct_fresh cuda name g) as [_ [H2 [H3 _]]].
    cbn zeta. split; [| split; [exact H3 | eexists; split; [exact H2 | reflexivity]]].
    unfold globals_wf. rewrite H3. apply nth_error_Some. unfold deref in H2. congruence. }
  unfold get_analyzer. destruct (_analyzer_instance g) as [l |] eqn:E; [| exact Hnew].
  destruct (deref g l) as [a |] eqn:Ea; [| exact Hnew].
  destruct (String.eqb (model_name a) name) eqn:En; cbn [negb]; [| exact Hnew].
  cbn [fst snd]. split; [exact Hwf | split; [exact E |]].
  exists a. split; [exact Ea | now apply String.eqb_eq].
Qed.

(** C10.  When the global holds an instance, [get_analyzer] returns that very
    reference and changes nothing if the requested name is the instance's
    [model_name]; otherwise it allocates a new object, not initialized and
    with no model loaded, stores it in the global and returns it, leaving the
    old objects as they were.  After the call the global holds the returned
    reference, a live object with the requested name, so in a sequence of
    calls each one compares against the instance the previous one
    returned. *)
Theorem get_analyzer_reuses_or_replaces
    (cuda : bool) (name : string) (g : globals) (l : nat) (a : RemoteCLIPAnalyzer) :
  _analyzer_instance g = Some l ->
  deref g l = Some a ->
  let l' := fst (get_analyzer cuda name g) in
  let g' := snd (get_analyzer cuda name g) in
  (model_name a = name -> l' = l /\ g' = g) /\
  (model_name a <> name ->
     l' <> l /\ deref g l' = None /\
     deref g' l' = Some (__init__ cuda name None) /\
     _initialized (__init__ cuda name None) = false /\
     model (__init__ cuda name None) = None /\
     (forall k b, deref g k = Some b -> deref g' k = Some b)) /\
  _analyzer_instance g' = Some l' /\
  exists a', deref g' l' = Some a' /\ model_name a' = name.
Proof.
  intros Hg Ha. cbn zeta. unfold get_analyzer. rewrite Hg, Ha.
  destruct (String.eqb (model_name a) name) eqn:E; cbn [negb].
  - apply String.eqb_eq in E. cbn [fst snd].
    split; [intros _; split; reflexivity |].
    split; [intros N; contradiction |]. split; [exact Hg |]. now exists a.
  - apply String.eqb_neq in E.
    destruct (construct_fresh cuda name g) as [H1 [H2 [H3 H4]]].
    split; [intros N; contradiction |].
    split; [| split; [exact H3 | eexists; split; [exact H2 | reflexivity]]].
    intros _. repeat split; try assumption.
    intros N. rewrite N in H1. congruence.
Qed.

(** * Further properties of the analyzer *)

(** ** Edge values of [top_k] *)

(** A negative [top_k] is rejected by [topk] in both scoring methods;
    [top_k = 0] is accepted: [classify_land_use] returns the empty list and
    [detect_changes] an analysis without descriptions. *)
Theorem top_k_negative_or_zero
    (open_clip : string -> clip_model) (topk : topk_fn) (s : session)
    (path1 path2 : string) (top_k : Z) :
  topk_contract topk ->
  session_wf open_clip s ->
  ((top_k < 0)%Z ->
   fst (classify_land_use open_clip topk path1 top_k s)
   = inl (RuntimeError "selected index k out of range") /\
   fst (detect_changes open_clip topk path1 path2 top_k s)
   = inl (RuntimeError "selected index k out of range")) /\
  fst (classify_land_use open_clip topk path1 0 s) = inr [] /\
  exists r, fst (detect_changes open_clip topk path1 path2 0 s) = inr r /\
            detected_changes r = [].
Proof.
  intros Hc Hwf. set (m := session_model open_clip s). split; [| split].
  - intros Hk. split.
    + rewrite (classify_run open_clip topk s path1 top_k Hwf). cbn [fst].
      apply (ranking_fails topk Hc). now left.
    + rewrite (detect_run open_clip topk s path1 path2 top_k Hwf). cbn [fst].
      unfold detect_result. rewrite (ranking_fails topk Hc); [reflexivity | now left].
  - rewrite (classify_run open_clip topk s path1 0 Hwf). cbn [fst]. fold m.
    destruct (ranking_returns topk Hc LAND_USE_CATEGORIES mk_land_use (land_use_probs m path1) 0
                (land_use_probs_length m path1)) as [vals [idxs [_ [E Hl]]]]; [simpl; lia |].
    unfold classify_result. rewrite E.
    destruct (combine vals idxs); [reflexivity | simpl in Hl; lia].
  - rewrite (detect_run open_clip topk s path1 path2 0 Hwf). cbn [fst]. fold m.
    destruct (ranking_returns topk Hc CHANGE_DESCRIPTIONS mk_change (change_probs m path1 path2) 0
                (change_probs_length m path1 path2)) as [vals [idxs [_ [E Hl]]]]; [simpl; lia |].
    unfold detect_result. rewrite E. eexists. split; [reflexivity |].
    destruct (combine vals idxs); [reflexivity | simpl in Hl; lia].
Qed.

(** ** Labels of a ranking *)

Lemma distinct_labels_NoDup (l : list string) : distinct_labels l = true -> NoDup l.
Proof.
  induction l as [| x l IH]; [constructor |].
  cbn [distinct_labels]. intros H. apply andb_true_iff in H. destruct H as [Hx Hl].
  constructor; [| now apply IH].
  intros Hin. apply negb_true_iff in Hx.
  assert (existsb (String.eqb x) l = true) as E; [| congruence].
  apply existsb_exists. exists x. split; [exact Hin | apply String.eqb_refl].
Qed.

Lemma catalogs_distinct : NoDup LAND_USE_CATEGORIES /\ NoDup CHANGE_DESCRIPTIONS.
Proof. split; apply distinct_labels_NoDup; reflexivity. Qed.

Lemma NoDup_map_nth (catalog : list string) (idxs : list nat) :
  NoDup catalog -> NoDup idxs -> Forall (fun i => (i < length catalog)%nat) idxs ->
  NoDup (map (fun i => nth i catalog EmptyString) idxs).
Proof.
  intros Hcat Hidx Hb. induction Hidx as [| i idxs Hni Hnd IH]; [constructor |].
  inversion Hb as [| ? ? Hi Hrest]; subst. cbn [map]. constructor; [| now apply IH].
  intros Hin. apply in_map_iff in Hin. destruct Hin as [j [Ej Hj]].
  rewrite Forall_forall in Hrest.
  assert (j = i) by (apply (proj1 (NoDup_nth catalog EmptyString) Hcat); auto).
  subst. contradiction.
Qed.

Lemma ranking_labels {A : Type} (topk : topk_fn) (catalog : list string)
    (mk : string -> fnum -> A) (lab : A -> string) (probs : tensor) (top_k : Z) (l : list A) :
  topk_contract topk ->
  (forall label p, lab (mk label p) = label) ->
  length probs = length catalog ->
  ranking topk catalog mk probs top_k = inr l ->
  exists vals idxs,
    topk probs top_k = inr (vals, idxs) /\
    map lab l = map (fun i => nth i catalog EmptyString) idxs /\
    Forall (fun i => (i < length catalog)%nat) idxs.
Proof.
  intros Hc Hlab Hlen E.
  pose proof (ranking_spec topk Hc catalog mk probs top_k Hlen) as H. rewrite E in H.
  destruct H as [_ [vals [idxs [Et [-> _]]]]]. exists vals, idxs.
  destruct (topk_shape topk Hc _ _ _ _ Et) as [Hvl Hb].
  split; [exact Et |]. split; [| now rewrite <- Hlen].
  rewrite map_map. unfold labelled.
  rewrite (map_ext _ (fun p => nth (snd p) catalog EmptyString)) by (intros p; apply Hlab).
  rewrite <- (map_map snd (fun i => nth i catalog EmptyString)).
  f_equal. clear -Hvl. revert idxs Hvl.
  induction vals as [| v vals IH]; intros [| i idxs] H; simpl in *; try congruence.
  f_equal. apply IH. lia.
Qed.

(** The categories [classify_land_use] returns, and the descriptions
    [detect_changes] returns, are pairwise distinct entries of the
    catalog: no label is reported twice. *)
Theorem rankings_have_distinct_labels
    (open_clip : string -> clip_model) (topk : topk_fn) (s : session)
    (path1 path2 : string) (top_k : Z) :
  topk_contract topk ->
  session_wf open_clip s ->
  match fst (classify_land_use open_clip topk path1 top_k s) with
  | inr l =>
      NoDup (map category l) /\ Forall (fun c => In (category c) LAND_USE_CATEGORIES) l
  | inl _ => True
  end /\
  match fst (detect_changes open_clip topk path1 path2 top_k s) with
  | inr r =>
      NoDup (map description (detected_changes r)) /\
      Forall (fun c => In (description c) CHANGE_DESCRIPTIONS) (detected_changes r)
  | inl _ => True
  end.
Proof.
  intros Hc Hwf. set (m := session_model open_clip s).
  destruct catalogs_distinct as [Hland Hchange]. split.
  - rewrite (classify_run open_clip topk s path1 top_k Hwf). cbn [fst]. fold m.
    unfold classify_result.
    destruct (ranking topk LAND_USE_CATEGORIES mk_land_use (land_use_probs m path1) top_k)
      as [e | l] eqn:E; [exact I |].
    destruct (ranking_labels topk LAND_USE_CATEGORIES mk_land_use category _ _ _ Hc
                (fun _ _ => eq_refl) (land_use_probs_length m path1) E)
      as [vals [idxs [Et [Hm Hb]]]].
    split.
    + rewrite Hm. apply NoDup_map_nth; [exact Hland | | exact Hb].
      exact (topk_distinct topk Hc _ _ _ _ Et).
    + apply Forall_forall. intros c Hin.
      assert (Hc' : In (category c) (map category l)) by now apply in_map.
      rewrite Hm in Hc'. apply in_map_iff in Hc'. destruct Hc' as [i [<- Hi]].
      rewrite Forall_forall in Hb. apply nth_In. now apply Hb.
  - rewrite (detect_run open_clip topk s path1 path2 top_k Hwf). cbn [fst]. fold m.
    unfold detect_result.
    destruct (ranking topk CHANGE_DESCRIPTIONS mk_change (change_probs m path1 path2) top_k)
      as [e | l] eqn:E; [exact I |].
    cbn [detected_changes].
    destruct (ranking_labels topk CHANGE_DESCRIPTIONS mk_change description _ _ _ Hc
                (fun _ _ => eq_refl) (change_probs_length m path1 path2) E)
      as [vals [idxs [Et [Hm Hb]]]].
    split.
    + rewrite Hm. apply NoDup_map_nth; [exact Hchange | | exact Hb].
      exact (topk_distinct topk Hc _ _ _ _ Et).
    + apply Forall_forall. intros c Hin.
      assert (Hc' : In (description c) (map description l)) by now apply in_map.
      rewrite Hm in Hc'. apply in_map_iff in Hc'. destruct Hc' as [i [<- Hi]].
      rewrite Forall_forall in Hb. apply nth_In. now apply Hb.
Qed.

(** ** Asking for the whole catalog *)

Lemma full_selection (idxs : list nat) (n : nat) :
  NoDup idxs -> length idxs = n -> Forall (fun i => (i < n)%nat) idxs ->
  Permutation idxs (seq 0 n).
Proof.
  intros Hnd Hl Hb. apply NoDup_Permutation_bis; [exact Hnd | rewrite length_seq; lia |].
  intros i Hi. rewrite Forall_forall in Hb. apply in_seq. specialize (Hb i Hi). lia.
Qed.

Lemma nth_error_seq_all {A : Type} (l : list A) :
  map (fun i => nth_error l i) (seq 0 (length l)) = map Some l.
Proof.
  induction l as [| x l IH]; [reflexivity |].
  cbn [length seq map nth_error]. f_equal.
  rewrite <- seq_shift, map_map. exact IH.
Qed.

Lemma nth_seq_all (l : list string) :
  map (fun i => nth i l EmptyString) (seq 0 (length l)) = l.
Proof.
  induction l as [| x l IH]; [reflexivity |].
  cbn [length seq map nth]. f_equal.
  rewrite <- seq_shift, map_map. exact IH.
Qed.

Lemma map_Some_inj {A : Type} (l l' : list A) : map Some l = map Some l' -> l = l'.
Proof.
  revert l'. induction l as [| x l IH]; intros [| y l'] H; simpl in H; try congruence.
  inversion H. f_equal. now apply IH.
Qed.

Lemma full_topk_permutes (topk : topk_fn) (probs vals : tensor) (idxs : list nat) :
  topk_contract topk ->
  topk probs (Z.of_nat (length probs)) = inr (vals, idxs) ->
  Permutation idxs (seq 0 (length probs)) /\ Permutation vals probs.
Proof.
  intros Hc E.
  destruct (topk_shape topk Hc _ _ _ _ E) as [_ Hb].
  pose proof (topk_length topk Hc _ _ _ _ E) as Hl. apply Nat2Z.inj in Hl.
  pose proof (full_selection idxs _ (topk_distinct topk Hc _ _ _ _ E) Hl Hb) as Hp.
  split; [exact Hp |].
  pose proof (Permutation_map (fun i => nth_error probs i) Hp) as Hm.
  rewrite (topk_values topk Hc _ _ _ _ E), nth_error_seq_all in Hm.
  apply Permutation_map_inv in Hm. destruct Hm as [l3 [E3 P3]].
  apply map_Some_inj in E3. subst l3. now apply Permutation_sym.
Qed.

(** With [top_k] equal to the catalog size every category (resp. change
    description) is returned exactly once, and the returned confidences are
    the entries of the whole distribution, each once. *)
Theorem full_catalog_ranking
    (open_clip : string -> clip_model) (topk : topk_fn) (s : session)
    (path1 path2 : string) :
  topk_contract topk ->
  session_wf open_clip s ->
  let m := session_model open_clip s in
  (exists l,
     fst (classify_land_use open_clip topk path1 20 s) = inr l /\
     Permutation (map category l) LAND_USE_CATEGORIES /\
     Permutation (map confidence l) (land_use_probs m path1)) /\
  (exists r,
     fst (detect_changes open_clip topk path1 path2 15 s) = inr r /\
     Permutation (map description (detected_changes r)) CHANGE_DESCRIPTIONS /\
     Permutation (map change_confidence (detected_changes r)) (change_probs m path1 path2)).
Proof.
  intros Hc Hwf m. split.
  - rewrite (classify_run open_clip topk s path1 20 Hwf). cbn [fst]. fold m.
    unfold classify_result.
    destruct (ranking_returns topk Hc LAND_USE_CATEGORIES mk_land_use (land_use_probs m path1) 20
                (land_use_probs_length m path1)) as [vals [idxs [Et [E _]]]]; [simpl; lia |].
    rewrite E. eexists. split; [reflexivity |].
    destruct (topk_shape topk Hc _ _ _ _ Et) as [Hvl _].
    assert (Et' : topk (land_use_probs m path1)
                    (Z.of_nat (length (land_use_probs m path1))) = inr (vals, idxs))
      by now rewrite land_use_probs_length.
    destruct (full_topk_permutes topk _ _ _ Hc Et') as [Pi Pv].
    rewrite land_use_probs_length in Pi. split.
    + destruct (ranking_labels topk LAND_USE_CATEGORIES mk_land_use category _ _ _ Hc
                  (fun _ _ => eq_refl) (land_use_probs_length m path1) E)
        as [vals' [idxs' [Et2 [Hm _]]]].
      rewrite Et in Et2. inversion Et2; subst vals' idxs'. rewrite Hm.
      apply Permutation_trans
        with (map (fun i => nth i LAND_USE_CATEGORIES EmptyString) (seq 0 (length LAND_USE_CATEGORIES)));
        [now apply Permutation_map | rewrite nth_seq_all; apply Permutation_refl].
    + rewrite (map_fst_labelled LAND_USE_CATEGORIES mk_land_use confidence _ _
                 (fun _ _ => eq_refl) Hvl).
      exact Pv.
  - rewrite (detect_run open_clip topk s path1 path2 15 Hwf). cbn [fst]. fold m.
    unfold detect_result.
    destruct (ranking_returns topk Hc CHANGE_DESCRIPTIONS mk_change (change_probs m path1 path2)
                15 (change_probs_length m path1 path2)) as [vals [idxs [Et [E _]]]];
      [simpl; lia |].
    rewrite E. eexists. split; [reflexivity |]. cbn [detected_changes].
    destruct (topk_shape topk Hc _ _ _ _ Et) as [Hvl _].
    assert (Et' : topk (change_probs m path1 path2)
                    (Z.of_nat (length (change_probs m path1 path2))) = inr (vals, idxs))
      by now rewrite change_probs_length.
    destruct (full_topk_permutes topk _ _ _ Hc Et') as [Pi Pv].
    rewrite change_probs_length in Pi. split.
    + destruct (ranking_labels topk CHANGE_DESCRIPTIONS mk_change description _ _ _ Hc
                  (fun _ _ => eq_refl) (change_probs_length m path1 path2) E)
        as [vals' [idxs' [Et2 [Hm _]]]].
      rewrite Et in Et2. inversion Et2; subst vals' idxs'. rewrite Hm.
      apply Permutation_trans
        with (map (fun i => nth i CHANGE_DESCRIPTIONS EmptyString) (seq 0 (length CHANGE_DESCRIPTIONS)));
        [now apply Permutation_map | rewrite nth_seq_all; apply Permutation_refl].
    + rewrite (map_fst_labelled CHANGE_DESCRIPTIONS mk_change change_confidence _ _
                 (fun _ _ => eq_refl) Hvl).
      exact Pv.
Qed.

(** ** Symmetry and self-comparison *)

(** Swapping the two images changes neither the similarity and magnitude
    of [detect_changes] nor the similarity and the [change_detected] flag of
    [compare_images]; the two classifications of [compare_images] trade
    places. *)
Theorem similarity_is_symmetric
    (open_clip : string -> clip_model) (topk : topk_fn) (s : session)
    (path1 path2 : string) (top_k : Z) :
  ieee754 fl ->
  topk_contract topk ->
  session_wf open_clip s ->
  match fst (detect_changes open_clip topk path1 path2 top_k s),
        fst (detect_changes open_clip topk path2 path1 top_k s) with
  | inr r, inr r' =>
      overall_similarity r = overall_similarity r' /\
      change_magnitude r = change_magnitude r'
  | inl e, inl e' => e = e'
  | _, _ => False
  end /\
  exists r r',
    fst (compare_images open_clip topk path1 path2 s) = inr r /\
    fst (compare_images open_clip topk path2 path1 s) = inr r' /\
    similarity r = similarity r' /\
    change_detected r = change_detected r' /\
    image1_classification r = image2_classification r' /\
    image2_classification r = image1_classification r'.
Proof.
  intros Hl Hc Hwf. set (m := session_model open_clip s). split.
  - rewrite (detect_run open_clip topk s path1 path2 top_k Hwf).
    rewrite (detect_run open_clip topk s path2 path1 top_k Hwf). cbn [fst]. fold m.
    unfold detect_result.
    pose proof (ranking_spec topk Hc CHANGE_DESCRIPTIONS mk_change
                  (change_probs m path1 path2) top_k (change_probs_length m path1 path2)) as Ha.
    pose proof (ranking_spec topk Hc CHANGE_DESCRIPTIONS mk_change
                  (change_probs m path2 path1) top_k (change_probs_length m path2 path1)) as Hb.
    destruct (ranking topk CHANGE_DESCRIPTIONS mk_change (change_probs m path1 path2) top_k);
      destruct (ranking topk CHANGE_DESCRIPTIONS mk_change (change_probs m path2 path1) top_k).
    + destruct Ha as [-> _], Hb as [-> _]. reflexivity.
    + destruct Ha as [_ Ha], Hb as [Hb _]. simpl in *. lia.
    + destruct Ha as [Ha _], Hb as [_ Hb]. simpl in *. lia.
    + cbn [overall_similarity change_magnitude].
      now rewrite (dot_comm Hl (embedding m path1)).
  - destruct (compare_run open_clip topk s path1 path2 Hc Hwf) as [a1 [a2 [Ea1 [Ea2 Ea]]]].
    destruct (compare_run open_clip topk s path2 path1 Hc Hwf) as [b2 [b1 [Eb2 [Eb1 Eb]]]].
    fold m in Ea1, Ea2, Eb1, Eb2, Ea, Eb.
    assert (b1 = a1) by congruence. assert (b2 = a2) by congruence. subst b1 b2.
    rewrite Ea, Eb. cbn [fst]. eexists. eexists.
    split; [reflexivity |]. split; [reflexivity |].
    cbn [similarity change_detected image1_classification image2_classification].
    rewrite (dot_comm Hl (embedding m path2)), (String.eqb_sym (category a2)). auto.
Qed.


(** ** The top entry of a classification *)

Lemma sorted_head_max (v : fnum) (tl : tensor) :
  sorted_by tge (v :: tl) = true -> Forall (fun x => tge v x = true) tl.
Proof.
  revert v. induction tl as [| y tl IH]; intros v H; [constructor |].
  cbn [sorted_by] in H. apply andb_true_iff in H. destruct H as [Hvy Hs].
  constructor; [exact Hvy |].
  specialize (IH y Hs). revert IH. apply Forall_impl. intros x Hx.
  exact (tge_trans v y x Hvy Hx).
Qed.

Lemma topk_head_max (topk : topk_fn) (probs : tensor) (k : Z) (v : fnum) (vals : tensor)
    (idxs : list nat) :
  topk_contract topk -> topk probs k = inr (v :: vals, idxs) ->
  Forall (fun x => tge v x = true) probs.
Proof.
  intros Hc E. apply Forall_forall. intros x Hx.
  apply In_nth_error in Hx. destruct Hx as [i Hi].
  destruct (in_dec Nat.eq_dec i idxs) as [Hin | Hout].
  - assert (Hv : In (Some x) (map Some (v :: vals))).
    { rewrite <- (topk_values topk Hc _ _ _ _ E), <- Hi.
      apply (in_map (fun j => nth_error probs j)), Hin. }
    apply in_map_iff in Hv. destruct Hv as [w [Ew Hw]]. inversion Ew; subst w.
    destruct Hw as [<- | Hw]; [apply tge_refl |].
    pose proof (sorted_head_max v vals (topk_sorted topk Hc _ _ _ _ E)) as Hmax.
    rewrite Forall_forall in Hmax. now apply Hmax.
  - apply (topk_largest topk Hc _ _ _ _ i x v E Hi Hout). now left.
Qed.

(** For a [top_k] from 1 to 20 the first entry [classify_land_use] returns
    carries a largest confidence of the whole distribution, in the order of
    [topk] (NaN above every number); when it is not NaN, no entry of the
    distribution is NaN and none is above it. *)
Theorem top_category_confidence
    (open_clip : string -> clip_model) (topk : topk_fn) (s : session)
    (path : string) (top_k : Z) :
  topk_contract topk ->
  session_wf open_clip s ->
  (1 <= top_k <= 20)%Z ->
  exists c rest,
    fst (classify_land_use open_clip topk path top_k s) = inr (c :: rest) /\
    In (confidence c) (land_use_probs (session_model open_clip s) path) /\
    Forall (fun x => tge (confidence c) x = true)
      (land_use_probs (session_model open_clip s) path) /\
    (is_nan (confidence c) = false ->
     Forall (fun x => is_nan x = false /\ fle x (confidence c) = true)
       (land_use_probs (session_model open_clip s) path)).
Proof.
  intros Hc Hwf Hk. set (m := session_model open_clip s) in *.
  rewrite (classify_run open_clip topk s path top_k Hwf). cbn [fst]. fold m.
  unfold classify_result.
  destruct (ranking_returns topk Hc LAND_USE_CATEGORIES mk_land_use (land_use_probs m path) top_k
              (land_use_probs_length m path)) as [vals [idxs [Et [E Hl]]]]; [simpl; lia |].
  rewrite E. destruct (topk_shape topk Hc _ _ _ _ Et) as [Hvl _].
  destruct vals as [| v0 vals]; [simpl in Hl; lia |].
  destruct idxs as [| i0 idxs]; [simpl in Hvl; lia |].
  pose proof (topk_head_max topk _ _ _ _ _ Hc Et) as Hmax.
  pose proof (topk_values_in topk _ _ _ _ Hc Et v0 (or_introl eq_refl)) as Hv0.
  cbn [combine map]. eexists. eexists. split; [reflexivity |].
  cbn [labelled mk_land_use confidence fst].
  split; [exact Hv0 |]. split; [exact Hmax |].
  intros Hn. revert Hmax. apply Forall_impl. intros x Hx.
  unfold tge in Hx. rewrite Hn in Hx.
  destruct (is_nan x); [discriminate | split; [reflexivity | exact Hx]].
Qed.

(** One NaN among the scaled similarity scores makes every confidence NaN:
    whatever [classify_land_use] and [detect_changes] then return carries
    NaN in every entry. *)
Theorem nan_score_poisons_the_ranking
    (open_clip : string -> clip_model) (topk : topk_fn) (s : session)
    (path1 path2 : string) (top_k : Z) :
  ieee754 fl ->
  topk_contract topk ->
  session_wf open_clip s ->
  let m := session_model open_clip s in
  (In NaN (land_use_scores m path1) ->
   match fst (classify_land_use open_clip topk path1 top_k s) with
   | inr l =>
       Z.of_nat (length l) = top_k /\ Forall (fun c => confidence c = NaN) l
   | inl _ => (top_k < 0 \/ 20 < top_k)%Z
   end) /\
  (In NaN (change_scores m path1 path2) ->
   match fst (detect_changes open_clip topk path1 path2 top_k s) with
   | inr r =>
       Z.of_nat (length (detected_changes r)) = top_k /\
       Forall (fun c => change_confidence c = NaN) (detected_changes r)
   | inl _ => (top_k < 0 \/ 15 < top_k)%Z
   end).
Proof.
  intros Hl Hc Hwf m. split; intros Hn.
  - rewrite (classify_run open_clip topk s path1 top_k Hwf). cbn [fst]. fold m.
    exact (ranking_of_nan topk LAND_USE_CATEGORIES mk_land_use confidence
             (land_use_probs m path1) top_k Hc (fun _ _ => eq_refl)
             (land_use_probs_length m path1) (softmax_nan Hl _ Hn)).
  - rewrite (detect_run open_clip topk s path1 path2 top_k Hwf). cbn [fst]. fold m.
    unfold detect_result.
    pose proof (ranking_of_nan topk CHANGE_DESCRIPTIONS mk_change change_confidence
                  (change_probs m path1 path2) top_k Hc (fun _ _ => eq_refl)
                  (change_probs_length m path1 path2) (softmax_nan Hl _ Hn)) as H.
    destruct (ranking topk CHANGE_DESCRIPTIONS mk_change (change_probs m path1 path2) top_k);
      exact H.
Qed.

(** ** The calls and the result of a whole sequence analysis *)

Lemma for_each_calls {A B : Type} (m : clip_model) (P : A -> B -> Prop)
    (ev : A -> list event) (body : A -> M B) (xs : list A) :
  (forall x s, In x xs -> ready m s ->
     exists b, body x s = (inr b, log s (ev x)) /\ P x b) ->
  forall s, ready m s ->
    exists bs, for_each xs body s = (inr bs, log s (concat (map ev xs))) /\ Forall2 P xs bs.
Proof.
  induction xs as [| x xs IH]; intros Hbody s Hr.
  - exists []. cbn [map concat]. rewrite log_nil. split; [reflexivity | constructor].
  - destruct (Hbody x s (or_introl eq_refl) Hr) as [b [Hb HP]].
    destruct (IH (fun y t Hy => Hbody y t (or_intror Hy)) (log s (ev x))
                (ready_log m s (ev x) Hr)) as [bs [Hbs HPs]].
    exists (b :: bs). cbn [for_each map concat].
    rewrite (bind_ok _ _ _ _ _ Hb), (bind_ok _ _ _ _ _ Hbs), log_log.
    split; [reflexivity | now constructor].
Qed.

Section SequenceCalls.

Variable open_clip : string -> clip_model.
Variable topk : topk_fn.
Hypothesis contract : topk_contract topk.

Variable m : clip_model.
Variable image_paths : list string.
Variable dates : option (list string).
Hypothesis dates_fit : dates_ok dates (length image_paths).

Lemma individual_step_calls (ip : Z * string) (t : session) :
  In ip (enumerate image_paths) -> ready m t ->
  exists b,
    (features <- _encode_image (snd ip) ;;
     classification <- classify_land_use open_clip topk (snd ip) 2 ;;
     d <- lift (date_at dates (fst ip)) ;;
     ret {| index := fst ip; date := d; classification := classification |}) t
    = (inr b, log t (individual_calls (snd ip))) /\
    individual_entry topk m dates ip b.
Proof.
  intros Hin Hr. destruct (in_enumerate _ _ Hin) as [i [Hi Hn]].
  assert (Hlt : (i < length image_paths)%nat) by (apply nth_error_Some; congruence).
  destruct (top2_result topk m (snd ip) contract) as [c1 [c2 Ec]].
  destruct (date_at_ok dates _ i dates_fit Hlt) as [d Ed]. rewrite <- Hi in Ed.
  rewrite (bind_ok _ _ _ _ _ (encode_image_run m t (snd ip) Hr)).
  pose proof (classify_ready open_clip topk m _ (snd ip) 2
                (ready_log m t [EncodeImage (snd ip)] Hr)) as Rc.
  rewrite Ec in Rc. rewrite (bind_ok _ _ _ _ _ Rc), log_log, Ed.
  cbn [lift]. rewrite (bind_ok _ _ _ _ d) by reflexivity.
  eexists. split; [reflexivity |].
  unfold individual_entry. cbn [index date classification]. auto.
Qed.

Lemma pairwise_step_calls (i : Z) (t : session) :
  In i (range (Z.of_nat (length image_paths) - 1)) -> ready m t ->
  exists b,
    (path_i <- lift (getitem image_paths i) ;;
     path_j <- lift (getitem image_paths (i + 1)) ;;
     change_analysis <- detect_changes open_clip topk path_i path_j 3 ;;
     fd <- lift (date_at dates i) ;;
     td <- lift (date_at dates (i + 1)) ;;
     ret {| from_index := i; to_index := (i + 1)%Z;
            from_date := fd; to_date := td;
            analysis := change_analysis |}) t
    = (inr b, log t (pair_calls image_paths i)) /\
    pairwise_entry topk m image_paths dates i b.
Proof.
  intros Hin Hr. destruct (in_range _ _ Hin) as [j [-> Hj]].
  assert (Hj1 : (S j < length image_paths)%nat) by lia.
  destruct (nth_error image_paths j) as [p |] eqn:Ep;
    [| apply nth_error_None in Ep; lia].
  destruct (nth_error image_paths (S j)) as [q |] eqn:Eq;
    [| apply nth_error_None in Eq; lia].
  destruct (top3_changes topk m p q contract) as [ca Eca].
  destruct (date_at_ok dates _ j dates_fit ltac:(lia)) as [fd Efd].
  destruct (date_at_ok dates _ (S j) dates_fit Hj1) as [td Etd].
  replace (Z.of_nat (S j)) with (Z.of_nat j + 1)%Z in Etd by lia.
  unfold pair_calls. rewrite Nat2Z.id.
  rewrite (nth_error_nth _ _ EmptyString Ep), (nth_error_nth _ _ EmptyString Eq).
  rewrite (getitem_nth_error _ _ _ Ep). cbn [lift].
  rewrite (bind_ok _ _ _ _ p) by reflexivity.
  replace (getitem image_paths (Z.of_nat j + 1)) with (@inr exn string q)
    by (symmetry; replace (Z.of_nat j + 1)%Z with (Z.of_nat (S j)) by lia;
        now apply getitem_nth_error).
  cbn [lift]. rewrite (bind_ok _ _ _ _ q) by reflexivity.
  pose proof (detect_ready open_clip topk m t p q 3 Hr) as Rd. rewrite Eca in Rd.
  rewrite (bind_ok _ _ _ _ _ Rd), Efd, Etd. cbn [lift].
  rewrite (bind_ok _ _ _ _ fd) by reflexivity.
  rewrite (bind_ok _ _ _ _ td) by reflexivity.
  eexists. split; [reflexivity |].
  unfold pairwise_entry. cbn [from_index to_index from_date to_date analysis].
  repeat split; try assumption. exists p, q. rewrite Nat2Z.id. auto.
Qed.

End SequenceCalls.

Lemma consecutive_by_index (l : list string) :
  map (fun j => (nth j l EmptyString, nth (S j) l EmptyString)) (seq 0 (length l - 1))
  = consecutive l.
Proof.
  induction l as [| x l IH]; [reflexivity |].
  destruct l as [| y l]; [reflexivity |].
  replace (length (x :: y :: l) - 1)%nat with (S (length (y :: l) - 1)) by (simpl; lia).
  cbn [seq map consecutive]. f_equal. rewrite <- seq_shift, map_map. exact IH.
Qed.

Lemma pair_calls_consecutive (image_paths : list string) :
  concat (map (pair_calls image_paths) (range (Z.of_nat (length image_paths) - 1)))
  = concat (map (fun pq => detect_calls (fst pq) (snd pq)) (consecutive image_paths)).
Proof.
  f_equal. unfold range. rewrite map_map.
  replace (Z.to_nat (Z.of_nat (length image_paths) - 1)) with (length image_paths - 1)%nat
    by lia.
  rewrite <- consecutive_by_index, map_map.
  apply map_ext. intros j. unfold pair_calls. now rewrite Nat2Z.id.
Qed.

Lemma map_snd_enumerate {A : Type} (l : list A) : map snd (enumerate l) = l.
Proof.
  unfold enumerate. generalize 0%nat.
  induction l as [| x l IH]; intros a; [reflexivity |].
  cbn [length seq map combine snd]. f_equal. apply IH.
Qed.

Lemma nth_error_last {A : Type} (l : list A) (x d : A) :
  nth_error l (length l - 1) = Some x -> last l d = x.
Proof.
  induction l as [| y l IH]; [discriminate |].
  destruct l as [| z l]; [simpl; congruence |].
  replace (length (y :: z :: l) - 1)%nat with (S (length (z :: l) - 1)) by (simpl; lia).
  cbn [nth_error]. intros H. cbn [last]. now apply IH.
Qed.

(** The run of [analyze_temporal_sequence] on at least two images: its
    entries, and the state it leaves. *)
Lemma analyze_run (open_clip : string -> clip_model) (topk : topk_fn) (s : session)
    (image_paths : list string) (dates : option (list string)) :
  topk_contract topk ->
  session_wf open_clip s ->
  (2 <= length image_paths)%nat ->
  dates_ok dates (length image_paths) ->
  let m := session_model open_clip s in
  exists ind pairs t,
    analyze_temporal_sequence open_clip topk image_paths dates s
    = (inr {| num_images := Z.of_nat (length image_paths);
              dates := dates;
              individual_classifications := ind;
              pairwise_changes := pairs;
              overall_trend := Some t |},
       log (loaded open_clip s) (analyze_calls image_paths)) /\
    Forall2 (individual_entry topk m dates) (enumerate image_paths) ind /\
    Forall2 (pairwise_entry topk m image_paths dates)
      (range (Z.of_nat (length image_paths) - 1)) pairs /\
    trend_entry topk m image_paths t.
Proof.
  intros Hc Hwf HN Hd m.
  pose proof (loaded_ready open_clip s Hwf) as Hr. fold m in Hr.
  unfold analyze_temporal_sequence.
  rewrite (bind_ok _ _ _ _ _ (ensure_initialized_loads open_clip s)).
  assert (E2 : (Z.of_nat (length image_paths) <? 2)%Z = false) by (apply Z.ltb_ge; lia).
  rewrite E2.
  destruct (for_each_calls m (individual_entry topk m dates)
              (fun ip => individual_calls (snd ip)) _ (enumerate image_paths)
              (individual_step_calls open_clip topk Hc m image_paths dates Hd) _ Hr)
    as [ind [Hind Find]].
  rewrite (bind_ok _ _ _ _ _ Hind).
  destruct (for_each_calls m (pairwise_entry topk m image_paths dates)
              (pair_calls image_paths) _
              (range (Z.of_nat (length image_paths) - 1))
              (pairwise_step_calls open_clip topk Hc m image_paths dates Hd) _
              (ready_log m _ (concat (map (fun ip => individual_calls (snd ip))
                                        (enumerate image_paths))) Hr))
    as [pairs [Hpairs Fpairs]].
  rewrite (bind_ok _ _ _ _ _ Hpairs), log_log.
  assert (E3 : (2 <=? Z.of_nat (length image_paths))%Z = true) by (apply Z.leb_le; lia).
  rewrite E3.
  destruct (nth_error image_paths 0) as [first_path |] eqn:Efirst;
    [| apply nth_error_None in Efirst; lia].
  destruct (getitem_last image_paths) as [last_path [Glast Elast]];
    [destruct image_paths; [simpl in HN; lia | discriminate] |].
  destruct (top3_changes topk m first_path last_path Hc) as [oc Eoc].
  pose proof (detect_ready open_clip topk m _ first_path last_path 3
                (ready_log m _ (concat (map (fun ip => individual_calls (snd ip))
                                          (enumerate image_paths))
                                ++ concat (map (pair_calls image_paths)
                                             (range (Z.of_nat (length image_paths) - 1))))
                   Hr)) as Rd.
  rewrite Eoc in Rd.
  pose proof (Forall2_length Find) as Hlen. rewrite enumerate_length in Hlen.
  destruct (nth_error ind 0) as [first_item |] eqn:Ei0;
    [| apply nth_error_None in Ei0; lia].
  destruct (getitem_last ind) as [last_item [Gil Eil]];
    [destruct ind; [simpl in Hlen; lia | discriminate] |].
  destruct (Forall2_nth_error _ _ _ _ _ Find Ei0) as [ip0 [Eip0 [_ [Hcl0 _]]]].
  destruct (Forall2_nth_error _ _ _ _ _ Find Eil) as [ipl [Eipl [_ [Hcll _]]]].
  apply nth_error_enumerate in Eip0. destruct Eip0 as [_ Eip0].
  apply nth_error_enumerate in Eipl. destruct Eipl as [_ Eipl].
  rewrite Efirst in Eip0. inversion Eip0 as [Hp0]. rewrite <- Hp0 in Hcl0.
  rewrite <- Hlen, Elast in Eipl. inversion Eipl as [Hpl]. rewrite <- Hpl in Hcll.
  destruct (top2_result topk m first_path Hc) as [f1 [f2 Ef]].
  destruct (top2_result topk m last_path Hc) as [l1 [l2 El]].
  assert (Hcf : classification first_item = [f1; f2]) by congruence.
  assert (Hcl : classification last_item = [l1; l2]) by congruence.
  rewrite (getitem_nth_error image_paths 0 first_path Efirst : getitem image_paths 0 = _).
  unfold bind at 1. cbn [lift]. rewrite (bind_ok _ _ _ _ first_path) by reflexivity.
  rewrite Glast. cbn [lift]. rewrite (bind_ok _ _ _ _ last_path) by reflexivity.
  rewrite (bind_ok _ _ _ _ _ Rd).
  rewrite (getitem_nth_error ind 0 first_item Ei0 : getitem ind 0 = _).
  cbn [lift]. rewrite (bind_ok _ _ _ _ first_item) by reflexivity.
  rewrite Hcf. rewrite (bind_ok _ _ _ _ f1) by reflexivity.
  rewrite Gil. cbn [lift]. rewrite (bind_ok _ _ _ _ last_item) by reflexivity.
  rewrite Hcl. rewrite (bind_ok _ _ _ _ l1) by reflexivity.
  unfold ret at 1. unfold ret at 1. rewrite log_log.
  eexists ind, pairs, _. split; [| split; [exact Find | split; [exact Fpairs |]]].
  - f_equal. f_equal. unfold analyze_calls.
    rewrite <- (map_map snd individual_calls), map_snd_enumerate, pair_calls_consecutive.
    rewrite <- app_assoc. do 2 f_equal.
    destruct image_paths as [| p0 rest]; [discriminate |].
    cbn [nth_error] in Efirst. inversion Efirst; subst p0.
    now rewrite (nth_error_last _ _ first_path Elast).
  - exists first_path, last_path, oc, f1, l1, [f2], [l2].
    cbn [total_change_magnitude primary_changes land_use_transition]. repeat split; assumption.
Qed.

(** ** How often the model is called *)

Lemma count_calls_app (f : event -> bool) (a b : list event) :
  count_calls f (a ++ b) = (count_calls f a + count_calls f b)%nat.
Proof. unfold count_calls. now rewrite filter_app, length_app. Qed.

Lemma count_calls_concat {A : Type} (f : event -> bool) (ev : A -> list event) (k : nat)
    (l : list A) :
  (forall x, count_calls f (ev x) = k) ->
  count_calls f (concat (map ev l)) = (k * length l)%nat.
Proof.
  intros H. induction l as [| x l IH]; [unfold count_calls; simpl; lia |].
  cbn [map concat length]. rewrite count_calls_app, H, IH. lia.
Qed.

Lemma consecutive_length {A : Type} (l : list A) :
  length (consecutive l) = (length l - 1)%nat.
Proof.
  induction l as [| x l IH]; [reflexivity |].
  destruct l as [| y l]; [reflexivity |].
  change (consecutive (x :: y :: l)) with ((x, y) :: consecutive (y :: l)).
  cbn [length] in *. rewrite IH. lia.
Qed.

(** On at least two images (dates absent, empty or one per image)
    [analyze_temporal_sequence] logs exactly: each image encoded twice and
    the land-use catalog once per image, then each consecutive pair and the
    change catalog, then the first and last image and the change catalog.
    That is 4N image encodings and 2N text encodings for N images, and no
    further model load. *)
Theorem analyze_call_log
    (open_clip : string -> clip_model) (topk : topk_fn) (s : session)
    (image_paths : list string) (dates : option (list string)) :
  topk_contract topk ->
  session_wf open_clip s ->
  (2 <= length image_paths)%nat ->
  dates_ok dates (length image_paths) ->
  snd (analyze_temporal_sequence open_clip topk image_paths dates s)
  = log (loaded open_clip s) (analyze_calls image_paths) /\
  count_calls is_image_call (analyze_calls image_paths) = (4 * length image_paths)%nat /\
  count_calls is_text_call (analyze_calls image_paths) = (2 * length image_paths)%nat /\
  count_calls is_load (analyze_calls image_paths) = 0%nat.
Proof.
  intros Hc Hwf HN Hd.
  destruct (analyze_run open_clip topk s image_paths dates Hc Hwf HN Hd)
    as [ind [pairs [t [E _]]]].
  rewrite E. split; [reflexivity |].
  assert (Hfirst : exists p0, analyze_calls image_paths
            = concat (map individual_calls image_paths)
              ++ concat (map (fun pq => detect_calls (fst pq) (snd pq))
                           (consecutive image_paths))
              ++ detect_calls p0 (last image_paths p0)).
  { destruct image_paths as [| p0 rest]; [simpl in HN; lia |]. now exists p0. }
  destruct Hfirst as [p0 ->]. rewrite !count_calls_app.
  rewrite (count_calls_concat is_image_call individual_calls 2) by reflexivity.
  rewrite (count_calls_concat is_text_call individual_calls 1) by reflexivity.
  rewrite (count_calls_concat is_load individual_calls 0) by reflexivity.
  rewrite (count_calls_concat is_image_call (fun pq => detect_calls (fst pq) (snd pq)) 2)
    by reflexivity.
  rewrite (count_calls_concat is_text_call (fun pq => detect_calls (fst pq) (snd pq)) 1)
    by reflexivity.
  rewrite (count_calls_concat is_load (fun pq => detect_calls (fst pq) (snd pq)) 0)
    by reflexivity.
  rewrite consecutive_length.
  change (count_calls is_image_call (detect_calls p0 (last image_paths p0))) with 2%nat.
  change (count_calls is_text_call (detect_calls p0 (last image_paths p0))) with 1%nat.
  change (count_calls is_load (detect_calls p0 (last image_paths p0))) with 0%nat.
  repeat split; lia.
Qed.

(** [compare_images] encodes each of its two images twice, once itself and
    once inside the classification, and encodes the land-use catalog
    twice. *)
Theorem compare_images_call_log
    (open_clip : string -> clip_model) (topk : topk_fn) (s : session)
    (image1_path image2_path : string) :
  topk_contract topk ->
  session_wf open_clip s ->
  snd (compare_images open_clip topk image1_path image2_path s)
  = log (loaded open_clip s)
      [EncodeImage image1_path; EncodeImage image2_path;
       EncodeImage image1_path; EncodeTexts LAND_USE_CATEGORIES;
       EncodeImage image2_path; EncodeTexts LAND_USE_CATEGORIES].
Proof.
  intros Hc Hwf.
  destruct (compare_run open_clip topk s image1_path image2_path Hc Hwf)
    as [c1 [c2 [_ [_ E]]]].
  rewrite E. reflexivity.
Qed.

(** ** Lazy loading *)

(** The first method called on an analyzer loads the model, once; the
    session it leaves is initialized with the model of its [model_name], and
    a later call only adds its own encoding calls.  This holds whether or
    not the calls succeed. *)
Theorem model_is_loaded_once
    (open_clip : string -> clip_model) (topk : topk_fn) (s : session)
    (path path1 path2 : string) (top_k top_k' : Z) :
  session_wf open_clip s ->
  let s1 := snd (classify_land_use open_clip topk path top_k s) in
  ready (session_model open_clip s) s1 /\
  model_name (self s1) = model_name (self s) /\
  calls s1 = calls s
             ++ (if _initialized (self s) then [] else [LoadModel (model_name (self s))])
             ++ classify_calls path /\
  snd (detect_changes open_clip topk path1 path2 top_k' s1) = log s1 (detect_calls path1 path2) /\
  count_calls is_load (calls (snd (detect_changes open_clip topk path1 path2 top_k' s1)))
  = (count_calls is_load (calls s) + (if _initialized (self s) then 0 else 1))%nat.
Proof.
  intros Hwf. cbn zeta.
  rewrite (classify_run open_clip topk s path top_k Hwf). cbn [snd].
  pose proof (loaded_ready open_clip s Hwf) as Hr.
  pose proof (ready_log _ _ (classify_calls path) Hr) as Hr1.
  fold (classify_calls path).
  assert (Hname : model_name (self (log (loaded open_clip s) (classify_calls path)))
                  = model_name (self s)).
  { unfold loaded. destruct (_initialized (self s)); reflexivity. }
  assert (Hcalls : calls (log (loaded open_clip s) (classify_calls path))
                   = calls s
                     ++ (if _initialized (self s) then [] else [LoadModel (model_name (self s))])
                     ++ classify_calls path).
  { cbn [log calls]. now rewrite loaded_calls, <- app_assoc. }
  split; [exact Hr1 |]. split; [exact Hname |]. split; [exact Hcalls |].
  rewrite (detect_ready open_clip topk _ _ path1 path2 top_k' Hr1). cbn [snd].
  split; [reflexivity |].
  cbn [log calls] in *. rewrite Hcalls, !count_calls_app.
  change (count_calls is_load (classify_calls path)) with 0%nat.
  change (count_calls is_load (detect_calls path1 path2)) with 0%nat.
  destruct (_initialized (self s)); unfold count_calls; simpl; lia.
Qed.

(** ** Two images *)

(** With exactly two images the overall trend repeats the single pairwise
    change: same magnitude, same change descriptions. *)
Theorem two_images_trend_is_the_pairwise_change
    (open_clip : string -> clip_model) (topk : topk_fn) (s : session)
    (path1 path2 : string) (dates : option (list string)) :
  topk_contract topk ->
  session_wf open_clip s ->
  dates_ok dates 2 ->
  exists r pc t,
    fst (analyze_temporal_sequence open_clip topk [path1; path2] dates s) = inr r /\
    pairwise_changes r = [pc] /\
    overall_trend r = Some t /\
    total_change_magnitude t = change_magnitude (analysis pc) /\
    primary_changes t = detected_changes (analysis pc).
Proof.
  intros Hc Hwf Hd.
  destruct (analyze_run open_clip topk s [path1; path2] dates Hc Hwf (le_n 2) Hd)
    as [ind [pairs [t [E [_ [Fp Ht]]]]]].
  rewrite E. cbn [fst].
  change (range (Z.of_nat (length [path1; path2]) - 1)) with [0%Z] in Fp.
  inversion Fp as [| i pc is' pcs Hpc Hrest]; subst. inversion Hrest; subst.
  destruct Hpc as [_ [_ [_ [_ [p [q [Ep [Eq Ed]]]]]]]].
  cbn in Ep, Eq. inversion Ep; subst p. inversion Eq; subst q.
  destruct Ht as [fp [lp [oc [fc [lc [r1 [r2 [Ef [El [Eoc [_ [_ [Hm [Hpc _]]]]]]]]]]]]]].
  cbn in Ef, El. inversion Ef; subst fp. inversion El; subst lp.
  assert (oc = analysis pc) by congruence. subst oc.
  eexists. exists pc, t. cbn [pairwise_changes overall_trend]. auto.
Qed.

(** ** The report *)

Lemma getitem_head {A : Type} (l : list A) :
  getitem l 0 = match l with
                | [] => inl (IndexError "list index out of range")
                | x :: _ => inr x
                end.
Proof. destruct l; reflexivity. Qed.

Lemma collect_lines_blocks {A : Type} (f : A -> result (list string)) (k : nat) (l : list A) :
  Forall (fun x => exists ls, f x = inr ls /\ length ls = k) l ->
  exists lines, collect_lines f l = inr lines /\ length lines = (k * length l)%nat.
Proof.
  induction 1 as [| x l [ls [Hx Hk]] _ [lines [IH Hl]]].
  - exists []. split; [reflexivity | simpl; lia].
  - exists (ls ++ lines). cbn [collect_lines]. rewrite Hx, IH. split; [reflexivity |].
    rewrite length_app, Hk, Hl. cbn [length]. lia.
Qed.

Lemma collect_lines_nth {A : Type} (f : A -> result (list string)) (k : nat) (l : list A)
    (lines : list string) (i j : nat) (x : A) (ls : list string) (line : string) :
  Forall (fun x => exists ls, f x = inr ls /\ length ls = k) l ->
  collect_lines f l = inr lines ->
  nth_error l i = Some x -> f x = inr ls -> nth_error ls j = Some line ->
  nth_error lines (k * i + j) = Some line.
Proof.
  intros H. revert lines i. induction H as [| y l [ys [Hy Hk]] Hl IH]; intros lines i E Hi Hx Hj.
  - destruct i; discriminate.
  - cbn [collect_lines] in E. rewrite Hy in E.
    destruct (collect_lines f l) as [e | rest] eqn:Er; [discriminate |].
    inversion E; subst lines. destruct i as [| i].
    + cbn in Hi. inversion Hi; subst y. rewrite Hx in Hy. inversion Hy; subst ys.
      rewrite Nat.mul_0_r, Nat.add_0_l. rewrite nth_error_app1; [exact Hj |].
      apply nth_error_Some. congruence.
    + cbn [nth_error] in Hi. specialize (IH rest i eq_refl Hi Hx Hj).
      rewrite nth_error_app2 by lia.
      replace (k * S i + j - length ys)%nat with (k * i + j)%nat by lia. exact IH.
Qed.

Lemma nth_error_skip {A : Type} (a b : list A) (j : nat) :
  nth_error (a ++ b) (length a + j) = nth_error b j.
Proof. rewrite nth_error_app2 by lia. f_equal. lia. Qed.

Lemma header_lines_length (ta : temporal_analysis) :
  length (header_lines ta) = (7 + (if has_period (dates ta) then 1 else 0))%nat.
Proof.
  unfold header_lines, has_period. rewrite !length_app.
  destruct (dates ta) as [[| d0 [| d1 ds]] |]; reflexivity.
Qed.

Lemma detect3_shape (topk : topk_fn) (m : clip_model) (path1 path2 : string)
    (r : change_analysis) :
  topk_contract topk -> detect_result topk m path1 path2 3 = inr r ->
  exists c1 c2 c3, detected_changes r = [c1; c2; c3].
Proof.
  intros Hc E. unfold detect_result in E.
  destruct (ranking_returns topk Hc CHANGE_DESCRIPTIONS mk_change (change_probs m path1 path2) 3
              (change_probs_length m path1 path2)) as [vals [idxs [_ [Er Hl]]]]; [simpl; lia |].
  rewrite Er in E. inversion E; subst r. cbn [detected_changes].
  destruct (combine vals idxs) as [| p [| q [| u [| w tl]]]]; simpl in Hl; try lia.
  eexists. eexists. eexists. reflexivity.
Qed.

Section ReportOfAnalysis.

Variable format_1f : fnum -> string.
Variable topk : topk_fn.
Hypothesis contract : topk_contract topk.
Variable m : clip_model.
Variable image_paths : list string.
Variable dates : option (list string).

Lemma item_lines_of_entry (ip : Z * string) (item : image_classification) :
  individual_entry topk m dates ip item ->
  exists ls, item_lines format_1f item = inr ls /\ length ls = 1%nat.
Proof.
  intros [_ [Hcl _]]. destruct (top2_result topk m (snd ip) contract) as [c1 [c2 E]].
  assert (Hc : classification item = [c1; c2]) by congruence.
  unfold item_lines. rewrite Hc. eexists. split; reflexivity.
Qed.

Lemma change_lines_of_entry (i : Z) (ch : pairwise_change) :
  pairwise_entry topk m image_paths dates i ch ->
  exists l2 l3,
    change_lines format_1f ch
    = inr [("  " ++ str_of_optional (from_date ch) ++ " → "
            ++ str_of_optional (to_date ch) ++ ":")%string; l2; l3].
Proof.
  intros [_ [_ [_ [_ [p [q [_ [_ Hd]]]]]]]].
  destruct (detect3_shape topk m p q _ contract Hd) as [c1 [c2 [c3 E]]].
  unfold change_lines. rewrite E. eexists. eexists. reflexivity.
Qed.

Lemma trend_lines_of_entry (t : trend) :
  trend_entry topk m image_paths t -> length (trend_lines format_1f t) = 8%nat.
Proof.
  intros [fp [lp [oc [fc [lc [r1 [r2 [_ [_ [Eoc [_ [_ [_ [Hp _]]]]]]]]]]]]]].
  destruct (detect3_shape topk m fp lp _ contract Eoc) as [c1 [c2 [c3 E]]].
  unfold trend_lines. rewrite Hp, E. reflexivity.
Qed.

End ReportOfAnalysis.

Lemma Forall2_Forall_r {A B : Type} (P : A -> B -> Prop) (Q : B -> Prop)
    (xs : list A) (bs : list B) :
  Forall2 P xs bs -> (forall x b, P x b -> Q b) -> Forall Q bs.
Proof. induction 1; intros H'; constructor; eauto. Qed.

Lemma Forall2_nth_error_l {A B : Type} (P : A -> B -> Prop) (xs : list A) (bs : list B)
    (n : nat) (x : A) :
  Forall2 P xs bs -> nth_error xs n = Some x ->
  exists b, nth_error bs n = Some b /\ P x b.
Proof.
  intros H. revert n. induction H as [| x' b xs bs HP _ IH]; intros [| n] E;
    simpl in *; try discriminate.
  - inversion E; subst. eauto.
  - now apply IH.
Qed.

Lemma range_nth (n : Z) (i : nat) :
  (i < Z.to_nat n)%nat -> nth_error (range n) i = Some (Z.of_nat i).
Proof.
  intros Hi. unfold range. rewrite nth_error_map, nth_error_seq.
  destruct (Nat.ltb_spec i (Z.to_nat n)); [reflexivity | lia].
Qed.

(** The report of an analysis, as far as its layout goes. *)
Lemma report_of_analysis (format_1f : fnum -> string)
    (open_clip : string -> clip_model) (topk : topk_fn) (s : session)
    (image_paths : list string) (dates : option (list string)) :
  topk_contract topk ->
  session_wf open_clip s ->
  (2 <= length image_paths)%nat ->
  dates_ok dates (length image_paths) ->
  exists r items changes tail,
    fst (analyze_temporal_sequence open_clip topk image_paths dates s) = inr r /\
    report_lines format_1f r
    = inr (header_lines r
           ++ ["📍 LAND USE CLASSIFICATION:"; str_mul "-" 40] ++ items ++ [""]
           ++ ["🔄 TEMPORAL CHANGES:"; str_mul "-" 40] ++ changes ++ tail) /\
    length (header_lines r) = (7 + (if has_period dates then 1 else 0))%nat /\
    length items = length image_paths /\
    length changes = (3 * (length image_paths - 1))%nat /\
    length tail = 11%nat /\
    (forall i, (i < length image_paths - 1)%nat ->
       exists fd td,
         date_at dates (Z.of_nat i) = inr fd /\
         date_at dates (Z.of_nat i + 1) = inr td /\
         nth_error changes (3 * i)
         = Some ("  " ++ str_of_optional fd ++ " → " ++ str_of_optional td ++ ":")%string).
Proof.
  intros Hc Hwf HN Hd.
  destruct (analyze_run open_clip topk s image_paths dates Hc Hwf HN Hd)
    as [ind [pairs [t [E [Fi [Fp Ht]]]]]].
  set (m := session_model open_clip s) in *.
  rewrite E. cbn [fst].
  assert (Hitems : Forall (fun it => exists ls, item_lines format_1f it = inr ls
                                                /\ length ls = 1%nat) ind).
  { apply (Forall2_Forall_r _ _ _ _ Fi). intros ip it.
    apply (item_lines_of_entry format_1f topk Hc m dates). }
  assert (Hchanges : Forall (fun ch => exists ls, change_lines format_1f ch = inr ls
                                                  /\ length ls = 3%nat) pairs).
  { apply (Forall2_Forall_r _ _ _ _ Fp). intros i ch Hch.
    destruct (change_lines_of_entry format_1f topk Hc m image_paths dates i ch Hch)
      as [l2 [l3 El]]. rewrite El. eexists. split; reflexivity. }
  destruct (collect_lines_blocks _ 1 ind Hitems) as [items [Ei Li]].
  destruct (collect_lines_blocks _ 3 pairs Hchanges) as [changes [Ec Lc]].
  pose proof (Forall2_length Fi) as Hli. rewrite enumerate_length in Hli.
  pose proof (Forall2_length Fp) as Hlp. rewrite range_length in Hlp.
  eexists. exists items, changes. eexists.
  split; [reflexivity |].
  unfold report_lines. cbn [individual_classifications pairwise_changes overall_trend].
  rewrite Ei, Ec. split; [reflexivity |].
  split; [apply header_lines_length |].
  split; [lia |]. split; [lia |]. split.
  - rewrite !length_app, (trend_lines_of_entry format_1f topk Hc m image_paths t Ht).
    reflexivity.
  - intros i Hi.
    assert (Hri : nth_error (range (Z.of_nat (length image_paths) - 1)) i
                  = Some (Z.of_nat i)) by (apply range_nth; lia).
    destruct (Forall2_nth_error_l _ _ _ i _ Fp Hri) as [ch [Ech Hch]].
    destruct (change_lines_of_entry format_1f topk Hc m image_paths dates _ ch Hch)
      as [l2 [l3 El]].
    destruct Hch as [_ [_ [Hfd [Htd _]]]].
    exists (from_date ch), (to_date ch). split; [exact Hfd |]. split; [exact Htd |].
    rewrite <- (Nat.add_0_r (3 * i)).
    exact (collect_lines_nth _ 3 pairs changes i 0 ch _ _ Hchanges Ec Ech El eq_refl).
Qed.

(** [generate_report] never fails on what [analyze_temporal_sequence]
    returns, and the report has 4N + 20 lines for N images, one more when
    dates are given: one line per image, three per consecutive pair, eight
    for the trend. *)
Theorem report_of_analysis_line_count
    (format_1f : fnum -> string)
    (open_clip : string -> clip_model) (topk : topk_fn) (s : session)
    (image_paths : list string) (dates : option (list string)) :
  topk_contract topk ->
  session_wf open_clip s ->
  (2 <= length image_paths)%nat ->
  dates_ok dates (length image_paths) ->
  exists r lines,
    fst (analyze_temporal_sequence open_clip topk image_paths dates s) = inr r /\
    report_lines format_1f r = inr lines /\
    generate_report format_1f r = inr (String.concat newline lines) /\
    length lines
    = (4 * length image_paths + 20 + (if has_period dates then 1 else 0))%nat.
Proof.
  intros Hc Hwf HN Hd.
  destruct (report_of_analysis format_1f open_clip topk s image_paths dates Hc Hwf HN Hd)
    as [r [items [changes [tail [E [El [Lh [Li [Lc [Lt _]]]]]]]]]].
  exists r. eexists. split; [exact E |]. split; [exact El |].
  split; [unfold generate_report; now rewrite El |].
  rewrite !length_app, Lh, Li, Lc, Lt. cbn [length]. lia.
Qed.

(** In the report of an analysis the line that opens the i-th change reads
    "  <from> → <to>:" with the two dates of the pair.  Without dates both
    are printed as None: the labels "Image i" that the code passes as
    defaults are never used, because the keys are present. *)
Theorem report_change_headers
    (format_1f : fnum -> string)
    (open_clip : string -> clip_model) (topk : topk_fn) (s : session)
    (image_paths : list string) (dates : option (list string)) :
  topk_contract topk ->
  session_wf open_clip s ->
  (2 <= length image_paths)%nat ->
  dates_ok dates (length image_paths) ->
  exists r lines,
    fst (analyze_temporal_sequence open_clip topk image_paths dates s) = inr r /\
    report_lines format_1f r = inr lines /\
    forall i, (i < length image_paths - 1)%nat ->
      let position :=
        (length image_paths + 12 + (if has_period dates then 1 else 0) + 3 * i)%nat in
      (exists fd td,
         date_at dates (Z.of_nat i) = inr fd /\
         date_at dates (Z.of_nat i + 1) = inr td /\
         nth_error lines position
         = Some ("  " ++ str_of_optional fd ++ " → " ++ str_of_optional td ++ ":")%string) /\
      (dates = None -> nth_error lines position = Some "  None → None:").
Proof.
  intros Hc Hwf HN Hd.
  destruct (report_of_analysis format_1f open_clip topk s image_paths dates Hc Hwf HN Hd)
    as [r [items [changes [tail [E [El [Lh [Li [Lc [Lt Hh]]]]]]]]]].
  exists r. eexists. split; [exact E |]. split; [exact El |].
  intros i Hi. cbn zeta.
  destruct (Hh i Hi) as [fd [td [Hfd [Htd Hn]]]].
  assert (Hpos : nth_error
            (header_lines r
             ++ ["📍 LAND USE CLASSIFICATION:"; str_mul "-" 40] ++ items ++ [""]
             ++ ["🔄 TEMPORAL CHANGES:"; str_mul "-" 40] ++ changes ++ tail)
            (length image_paths + 12 + (if has_period dates then 1 else 0) + 3 * i)
          = nth_error changes (3 * i)).
  { replace (length image_paths + 12 + (if has_period dates then 1 else 0) + 3 * i)%nat
      with (length (header_lines r)
            + (length ["📍 LAND USE CLASSIFICATION:"; str_mul "-" 40]
               + (length items
                  + (length [""]
                     + (length ["🔄 TEMPORAL CHANGES:"; str_mul "-" 40] + 3 * i)))))%nat
      by (rewrite Lh, Li; cbn [length]; lia).
    rewrite !nth_error_skip. apply nth_error_app1. lia. }
  rewrite Hpos. split.
  - exists fd, td. auto.
  - intros ->. cbn in Hfd, Htd. inversion Hfd; subst fd. inversion Htd; subst td. exact Hn.
Qed.

(** [generate_report] fails only through the two [[0]] lookups: it returns a
    text when every classification and every list of detected changes is
    non-empty, and raises [IndexError] as soon as one of them is empty. *)
Theorem report_fails_on_empty_rankings
    (format_1f : fnum -> string) (ta : temporal_analysis) :
  (Forall (fun item => classification item <> []) (individual_classifications ta) ->
   Forall (fun ch => detected_changes (analysis ch) <> []) (pairwise_changes ta) ->
   exists text, generate_report format_1f ta = inr text) /\
  (Exists (fun item => classification item = []) (individual_classifications ta) \/
   Exists (fun ch => detected_changes (analysis ch) = []) (pairwise_changes ta) ->
   generate_report format_1f ta = inl (IndexError "list index out of range")).
Proof.
  assert (Hgood : forall (A : Type) (f : A -> result (list string)) (P : A -> Prop) (l : list A),
            (forall x, P x -> exists ls, f x = inr ls) ->
            Forall P l -> exists lines, collect_lines f l = inr lines).
  { intros A f P l Hf. induction 1 as [| x l Hx _ [lines IH]]; [now exists [] |].
    destruct (Hf x Hx) as [ls E]. cbn [collect_lines]. rewrite E, IH. eauto. }
  assert (Hbad : forall (A : Type) (f : A -> result (list string)) (P : A -> Prop) (l : list A),
            (forall x, P x -> f x = inl (IndexError "list index out of range")) ->
            (forall x, (exists ls, f x = inr ls)
                       \/ f x = inl (IndexError "list index out of range")) ->
            Exists P l -> collect_lines f l = inl (IndexError "list index out of range")).
  { intros A f P l Hf Htot. induction 1 as [x l Hx | x l _ IH]; cbn [collect_lines].
    - now rewrite (Hf x Hx).
    - destruct (Htot x) as [[ls E] | E]; rewrite E; [now rewrite IH | reflexivity]. }
  assert (Hitem : forall item,
            (exists ls, item_lines format_1f item = inr ls)
            \/ item_lines format_1f item = inl (IndexError "list index out of range")).
  { intros item. unfold item_lines. rewrite getitem_head.
    destruct (classification item); [now right | left; eauto]. }
  assert (Hchange : forall ch,
            (exists ls, change_lines format_1f ch = inr ls)
            \/ change_lines format_1f ch = inl (IndexError "list index out of range")).
  { intros ch. unfold change_lines. rewrite getitem_head.
    destruct (detected_changes (analysis ch)); [now right | left; eauto]. }
  split.
  - intros Hi Hc.
    destruct (Hgood _ (item_lines format_1f) _ _
                (fun item (H : classification item <> []) =>
                   match Hitem item with
                   | or_introl E => E
                   | or_intror E =>
                       False_ind _ (H ltac:(unfold item_lines in E; rewrite getitem_head in E;
                                            destruct (classification item);
                                            [reflexivity | discriminate]))
                   end) Hi) as [items Ei].
    destruct (Hgood _ (change_lines format_1f) _ _
                (fun ch (H : detected_changes (analysis ch) <> []) =>
                   match Hchange ch with
                   | or_introl E => E
                   | or_intror E =>
                       False_ind _ (H ltac:(unfold change_lines in E; rewrite getitem_head in E;
                                            destruct (detected_changes (analysis ch));
                                            [reflexivity | discriminate]))
                   end) Hc) as [changes Ec].
    unfold generate_report, report_lines. rewrite Ei, Ec. eauto.
  - intros [H | H]; unfold generate_report, report_lines.
    + rewrite (Hbad _ (item_lines format_1f) _ _
                 (fun item (E : classification item = []) =>
                    ltac:(unfold item_lines; rewrite E; reflexivity)) Hitem H).
      reflexivity.
    + destruct (collect_lines (item_lines format_1f) (individual_classifications ta))
        as [e | items] eqn:Ei.
      * clear H. revert e Ei.
        induction (individual_classifications ta) as [| x l IH]; intros e Ei;
          cbn [collect_lines] in Ei; [discriminate |].
        destruct (Hitem x) as [[ls E] | E]; rewrite E in Ei.
        -- destruct (collect_lines (item_lines format_1f) l) eqn:El; [| discriminate].
           inversion Ei; subst. now apply (IH e).
        -- inversion Ei. reflexivity.
      * rewrite (Hbad _ (change_lines format_1f) _ _
                   (fun ch (E : detected_changes (analysis ch) = []) =>
                      ltac:(unfold change_lines; rewrite E; reflexivity)) Hchange H).
        reflexivity.
Qed.

(** ** Sequences of [get_analyzer] calls *)

Lemma get_analyzer_extends (cuda : bool) (name : string) (g : globals) :
  exists ext, heap (snd (get_analyzer cuda name g)) = heap g ++ ext /\ (length ext <= 1)%nat.
Proof.
  assert (Hnew : exists ext, heap (snd (construct cuda name g)) = heap g ++ ext
                             /\ (length ext <= 1)%nat).
  { eexists. split; [reflexivity | simpl; lia]. }
  unfold get_analyzer. destruct (_analyzer_instance g) as [l |]; [| exact Hnew].
  destruct (deref g l) as [a |]; [| exact Hnew].
  destruct (negb (String.eqb (model_name a) name)); [exact Hnew |].
  exists []. rewrite app_nil_r. split; [reflexivity | simpl; lia].
Qed.

Lemma deref_extends (g g' : globals) (ext : list RemoteCLIPAnalyzer) (l : nat)
    (a : RemoteCLIPAnalyzer) :
  heap g' = heap g ++ ext -> deref g l = Some a -> deref g' l = Some a.
Proof.
  unfold deref. intros -> H. rewrite nth_error_app1; [exact H |].
  apply nth_error_Some. congruence.
Qed.

(** Along any sequence of calls from a well-formed state, every returned
    reference names, in the final state, an object with the requested
    [model_name]; objects are only ever added, at most one per call, and the
    global stays well formed. *)
Theorem get_analyzer_sequence
    (cuda : bool) (names : list string) (g : globals) :
  globals_wf g ->
  let ls := fst (get_analyzer_calls cuda names g) in
  let g' := snd (get_analyzer_calls cuda names g) in
  globals_wf g' /\
  Forall2 (fun name l => exists a, deref g' l = Some a /\ model_name a = name) names ls /\
  exists ext, heap g' = heap g ++ ext /\ (length ext <= length names)%nat.
Proof.
  revert g. induction names as [| name rest IH]; intros g Hwf; cbn zeta.
  - cbn [get_analyzer_calls fst snd]. split; [exact Hwf |]. split; [constructor |].
    exists []. rewrite app_nil_r. split; [reflexivity | simpl; lia].
  - cbn [get_analyzer_calls].
    destruct (get_analyzer_wf cuda name g Hwf) as [Hwf1 [_ [a [Ha Hn]]]].
    destruct (get_analyzer_extends cuda name g) as [ext1 [He1 Hl1]].
    destruct (get_analyzer cuda name g) as [l g1]. cbn [fst snd] in *.
    specialize (IH g1 Hwf1). cbn zeta in IH.
    destruct (get_analyzer_calls cuda rest g1) as [ls g2]. cbn [fst snd] in *.
    destruct IH as [Hwf2 [HF [ext2 [He2 Hl2]]]].
    split; [exact Hwf2 |]. split.
    + constructor; [| exact HF]. exists a. split; [| exact Hn].
      exact (deref_extends g1 g2 ext2 l a He2 Ha).
    + exists (ext1 ++ ext2). rewrite He2, He1, <- app_assoc. split; [reflexivity |].
      rewrite length_app. cbn [length]. lia.
Qed.

(** Asking for another model and then for the first one again does not
    bring the first instance back: a third object is created, not
    initialized, while the first one stays in the heap untouched. *)
Theorem get_analyzer_switching_back
    (cuda : bool) (name : string) (g : globals) (l : nat) (a : RemoteCLIPAnalyzer) :
  _analyzer_instance g = Some l ->
  deref g l = Some a ->
  model_name a <> name ->
  let g1 := snd (get_analyzer cuda name g) in
  let l1 := fst (get_analyzer cuda name g) in
  let g2 := snd (get_analyzer cuda (model_name a) g1) in
  let l2 := fst (get_analyzer cuda (model_name a) g1) in
  l1 <> l /\ l2 <> l /\ l2 <> l1 /\
  deref g2 l = Some a /\
  deref g2 l2 = Some (__init__ cuda (model_name a) None) /\
  length (heap g2) = (length (heap g) + 2)%nat.
Proof.
  intros Hg Ha Hne. cbn zeta.
  assert (E1 : get_analyzer cuda name g = construct cuda name g).
  { unfold get_analyzer. rewrite Hg, Ha.
    destruct (String.eqb (model_name a) name) eqn:E; [| reflexivity].
    apply String.eqb_eq in E. contradiction. }
  rewrite E1. set (g1 := snd (construct cuda name g)).
  assert (Hl : (l < length (heap g))%nat) by (apply nth_error_Some; unfold deref in Ha; congruence).
  assert (E2 : get_analyzer cuda (model_name a) g1 = construct cuda (model_name a) g1).
  { unfold get_analyzer. cbn [g1 construct snd _analyzer_instance].
    unfold deref. cbn [heap]. rewrite nth_error_app2 by lia. rewrite Nat.sub_diag. cbn.
    destruct (String.eqb name (model_name a)) eqn:E; [| reflexivity].
    apply String.eqb_eq in E. congruence. }
  rewrite E2. unfold g1. cbn [construct fst snd heap]. unfold deref. cbn [heap].
  rewrite !length_app. cbn [length].
  repeat split; try lia.
  - rewrite nth_error_app1 by (rewrite length_app; simpl; lia).
    rewrite nth_error_app1 by lia. exact Ha.
  - rewrite nth_error_app2 by (rewrite length_app; simpl; lia).
    rewrite length_app. cbn [length]. now rewrite Nat.sub_diag.
Qed.

(** ** Dates shorter than the images *)

Lemma for_each_app {A B : Type} (body : A -> M B) (xs ys : list A) (s : session) :
  for_each (xs ++ ys) body s
  = match for_each xs body s with
    | (inl e, s1) => (inl e, s1)
    | (inr bs, s1) =>
        match for_each ys body s1 with
        | (inl e, s2) => (inl e, s2)
        | (inr cs, s2) => (inr (bs ++ cs), s2)
        end
    end.
Proof.
  revert s. induction xs as [| x xs IH]; intros s.
  - cbn [app for_each]. unfold ret at 1. destruct (for_each ys body s) as [[e | cs] s2]; reflexivity.
  - cbn [app for_each]. unfold bind.
    destruct (body x s) as [[e | b] s1]; [reflexivity |].
    rewrite IH.
    destruct (for_each xs body s1) as [[e | bs] s2]; [reflexivity |].
    unfold ret. destruct (for_each ys body s2) as [[e | cs] s3]; reflexivity.
Qed.

Lemma combine_app_same {A B : Type} (a a' : list A) (b b' : list B) :
  length a = length b -> combine (a ++ a') (b ++ b') = combine a b ++ combine a' b'.
Proof.
  revert b. induction a as [| x a IH]; intros [| y b] H; simpl in *; try congruence.
  f_equal. apply IH. lia.
Qed.

Lemma enumerate_split {A : Type} (a : list A) (x : A) (b : list A) :
  exists tail, enumerate (a ++ x :: b) = enumerate a ++ (Z.of_nat (length a), x) :: tail.
Proof.
  unfold enumerate. rewrite length_app, seq_app, map_app.
  rewrite combine_app_same by now rewrite length_map, length_seq.
  cbn [length seq map combine Nat.add]. eexists. reflexivity.
Qed.

Lemma skipn_nth_error {A : Type} (l : list A) (k : nat) (p : A) :
  nth_error l k = Some p -> skipn k l = p :: skipn (S k) l.
Proof.
  revert k. induction l as [| x l IH]; intros [| k] E; simpl in *; try discriminate.
  - now inversion E.
  - now apply IH.
Qed.

Lemma getitem_beyond {A : Type} (l : list A) (i : nat) :
  (length l <= i)%nat -> getitem l (Z.of_nat i) = inl (IndexError "list index out of range").
Proof.
  intros H. unfold getitem. cbv zeta.
  assert (E : (Z.of_nat i <? 0)%Z = false) by (apply Z.ltb_ge; lia).
  rewrite E, E, Nat2Z.id.
  destruct (nth_error l i) eqn:En; [| reflexivity].
  assert (i < length l)%nat by (apply nth_error_Some; congruence). lia.
Qed.

(** A non-empty [dates] with fewer entries than images makes
    [analyze_temporal_sequence] raise [IndexError]: the first image without
    a date is still encoded and classified, then [dates[i]] fails. *)
Theorem analyze_raises_on_short_dates
    (open_clip : string -> clip_model) (topk : topk_fn) (s : session)
    (image_paths : list string) (ds : list string) :
  topk_contract topk ->
  session_wf open_clip s ->
  (2 <= length image_paths)%nat ->
  (0 < length ds < length image_paths)%nat ->
  analyze_temporal_sequence open_clip topk image_paths (Some ds) s
  = (inl (IndexError "list index out of range"),
     log (loaded open_clip s)
       (concat (map individual_calls (firstn (S (length ds)) image_paths)))).
Proof.
  intros Hc Hwf HN Hk. set (m := session_model open_clip s).
  pose proof (loaded_ready open_clip s Hwf) as Hr. fold m in Hr.
  set (k := length ds) in *.
  destruct (nth_error image_paths k) as [p |] eqn:Ep; [| apply nth_error_None in Ep; lia].
  assert (Hsplit : image_paths = firstn k image_paths ++ p :: skipn (S k) image_paths).
  { rewrite <- (firstn_skipn k image_paths) at 1. f_equal. now apply skipn_nth_error. }
  assert (Hlk : length (firstn k image_paths) = k) by (rewrite length_firstn; lia).
  destruct (enumerate_split (firstn k image_paths) p (skipn (S k) image_paths)) as [tail Et].
  rewrite <- Hsplit, Hlk in Et.
  assert (Hfirst : firstn (S k) image_paths = firstn k image_paths ++ [p]).
  { rewrite Hsplit at 1. rewrite firstn_app, Hlk.
    replace (S k - k)%nat with 1%nat by lia.
    rewrite firstn_all2 by (rewrite Hlk; lia). reflexivity. }
  unfold analyze_temporal_sequence.
  rewrite (bind_ok _ _ _ _ _ (ensure_initialized_loads open_clip s)).
  assert (E2 : (Z.of_nat (length image_paths) <? 2)%Z = false) by (apply Z.ltb_ge; lia).
  rewrite E2, Et.
  assert (Hfit : dates_ok (Some ds) (length (firstn k image_paths))).
  { rewrite Hlk. unfold dates_ok. destruct ds; [exact I | unfold k; lia]. }
  unfold bind at 1. rewrite for_each_app.
  match goal with
  | |- context [for_each (enumerate (firstn k image_paths)) ?body (loaded open_clip s)] =>
      destruct (for_each_calls m (individual_entry topk m (Some ds))
                  (fun ip => individual_calls (snd ip)) body
                  (enumerate (firstn k image_paths))
                  (individual_step_calls open_clip topk Hc m (firstn k image_paths)
                     (Some ds) Hfit)
                  _ Hr) as [ind [Hind _]]
  end.
  rewrite <- (map_map snd individual_calls), map_snd_enumerate in Hind.
  rewrite Hind. cbn [for_each].
  pose proof (ready_log m _ (concat (map individual_calls (firstn k image_paths))) Hr) as Hr1.
  destruct (top2_result topk m p Hc) as [c1 [c2 Ec]].
  unfold bind at 1. cbn [snd fst].
  rewrite (bind_ok _ _ _ _ _ (encode_image_run m _ p Hr1)).
  pose proof (classify_ready open_clip topk m _ p 2 (ready_log m _ [EncodeImage p] Hr1)) as Rc.
  rewrite Ec in Rc. rewrite (bind_ok _ _ _ _ _ Rc), !log_log.
  assert (Ed : date_at (Some ds) (Z.of_nat k)
               = inl (IndexError "list index out of range")).
  { unfold date_at, k in *. clearbody m. clear -Hk.
    destruct ds as [| d0 ds']; [simpl in Hk; lia |].
    now rewrite (getitem_beyond (d0 :: ds') (length (d0 :: ds'))) by lia. }
  rewrite Ed. cbn [lift]. unfold bind at 1. unfold raise at 1.
  f_equal. f_equal. rewrite Hfirst, map_app, concat_app. cbn [map concat].
  rewrite app_nil_r. reflexivity.
Qed.

End General.

(** * Exact arithmetic and the examples

    From here on the operations are the exact ones.  They obey [ieee754]
    and [rounding] with unit roundoff and underflow error 0; the examples
    below are instances of the theorems above at this arithmetic. *)

Existing Instance exact_ops.

(** ** The exact operations on finite values *)

Lemma fdiv_Fin (a b : R) : b <> 0%R -> fdiv (Fin a) (Fin b) = Fin (a / b).
Proof.
  intros Hb. change (exact_div (Fin a) (Fin b) = Fin (a / b)). unfold exact_div.
  destruct (Req_dec_T b 0) as [E | _]; [contradiction | reflexivity].
Qed.

Lemma fdiv_zero_zero : fdiv (Fin 0) (Fin 0) = NaN.
Proof.
  change (exact_div (Fin 0) (Fin 0) = NaN). unfold exact_div.
  destruct (Req_dec_T 0 0) as [_ | N]; [| now elim N].
  unfold rsign. destruct (Rlt_dec 0 0) as [H | _]; [lra | reflexivity].
Qed.

Lemma fsqrt_Fin (a : R) : (0 <= a)%R -> fsqrt (Fin a) = Fin (sqrt a).
Proof.
  intros Ha. change (exact_sqrt (Fin a) = Fin (sqrt a)). unfold exact_sqrt.
  destruct (Rlt_dec a 0); [lra | reflexivity].
Qed.

Lemma fsub_Fin (a b : R) : fsub (Fin a) (Fin b) = Fin (a - b).
Proof. reflexivity. Qed.

Lemma tsum_Fin (l : list R) : tsum (map Fin l) = Fin (rsum l).
Proof.
  unfold tsum, rsum. induction l as [| x l IH]; [reflexivity |].
  cbn [map fold_right]. now rewrite IH.
Qed.

Lemma zip_with_Fin (f : fnum -> fnum -> fnum) (g : R -> R -> R) (a b : list R) :
  (forall x y, f (Fin x) (Fin y) = Fin (g x y)) ->
  zip_with f (map Fin a) (map Fin b) = map Fin (zip_with g a b).
Proof.
  intros Hfg. rewrite zip_with_map. unfold zip_with. rewrite map_map.
  apply map_ext. intros [x y]. apply Hfg.
Qed.

Lemma dot_Fin (a b : list R) : dot (map Fin a) (map Fin b) = Fin (rdot a b).
Proof.
  unfold dot, rdot. rewrite (zip_with_Fin fmul Rmult) by reflexivity. apply tsum_Fin.
Qed.

Lemma rsumsq_nonneg (l : list R) : (0 <= rsumsq l)%R.
Proof.
  induction l as [| x l IH]; unfold rsumsq in *; simpl; [lra | nra].
Qed.

Lemma norm_Fin (l : list R) : norm (map Fin l) = Fin (sqrt (rsumsq l)).
Proof.
  unfold norm. rewrite map_map.
  change (map (fun x => fmul (Fin x) (Fin x)) l) with (map (fun x => Fin (x * x)) l).
  rewrite <- (map_map (fun x => (x * x)%R) Fin), tsum_Fin.
  apply fsqrt_Fin, rsumsq_nonneg.
Qed.

Lemma sqrt_rsumsq_nonzero (l : list R) : rsumsq l <> 0%R -> sqrt (rsumsq l) <> 0%R.
Proof.
  intros H E. apply sqrt_eq_0 in E; [contradiction | apply rsumsq_nonneg].
Qed.

Lemma rsum_scale (c : R) (l : list R) : rsum (map (fun x => (x * c)%R) l) = (rsum l * c)%R.
Proof.
  induction l as [| x l IH]; simpl; [lra |]. unfold rsum in *. simpl. rewrite IH. lra.
Qed.

Lemma normalize_Fin (l : list R) :
  rsumsq l <> 0%R -> normalize (map Fin l) = map Fin (rnormalize l).
Proof.
  intros H. unfold normalize, tdiv, rnormalize. rewrite norm_Fin, !map_map.
  apply map_ext. intros x. apply fdiv_Fin. now apply sqrt_rsumsq_nonzero.
Qed.

(** ** Softmax on finite scores *)

Lemma tmax_Fin (l : list R) : l <> [] -> exists m, tmax (map Fin l) = Fin m.
Proof.
  induction l as [| x l IH]; [congruence | intros _].
  destruct l as [| y l].
  - exists x. reflexivity.
  - destruct IH as [m Hm]; [discriminate |].
    unfold tmax in *. cbn [map fold_right] in *. rewrite Hm.
    unfold fmax. cbn [is_nan flt]. destruct (Rlt_dec x m); eauto.
Qed.

Lemma rsum_exp_pos (l : list R) : l <> [] -> (0 < rsum (map exp l))%R.
Proof.
  induction l as [| x l IH]; [congruence | intros _].
  unfold rsum in *. cbn [map fold_right].
  pose proof (exp_pos x). destruct l as [| y l]; [simpl; lra |].
  assert (0 < fold_right Rplus 0 (map exp (y :: l)))%R by (apply IH; discriminate). lra.
Qed.

Lemma softmax_Fin (l : list R) : softmax (map Fin l) = map Fin (rsoftmax l).
Proof.
  destruct l as [| x0 l0]; [reflexivity |].
  set (l := x0 :: l0). assert (Hne : l <> []) by discriminate.
  destruct (tmax_Fin l Hne) as [m Hm].
  unfold softmax. rewrite Hm, map_map.
  rewrite (map_ext (fun x => fexp (fsub (Fin x) (Fin m))) (fun x => Fin (exp x * / exp m)%R)).
  2:{ intros x. change (Fin (exp (x + - m)) = Fin (exp x * / exp m)).
      now rewrite exp_plus, exp_Ropp. }
  rewrite <- (map_map (fun x => (exp x * / exp m)%R) Fin), tsum_Fin.
  rewrite <- (map_map exp (fun y => (y * / exp m)%R)), rsum_scale.
  pose proof (rsum_exp_pos l Hne) as HS. pose proof (exp_pos m) as Hm0.
  unfold tdiv, rsoftmax. rewrite !map_map. apply map_ext. intros x.
  rewrite fdiv_Fin.
  - f_equal. field. split; lra.
  - apply Rmult_integral_contrapositive_currified; [lra |].
    apply Rinv_neq_0_compat. lra.
Qed.

Lemma rsoftmax_sum (l : list R) : l <> [] -> rsum (rsoftmax l) = 1%R.
Proof.
  intros Hne. pose proof (rsum_exp_pos l Hne) as HS. unfold rsoftmax.
  rewrite <- (map_map exp (fun y => (y / rsum (map exp l))%R)).
  change (fun y => (y / rsum (map exp l))%R) with (fun y => (y * / rsum (map exp l))%R).
  rewrite rsum_scale. field. lra.
Qed.

Lemma rsum_bounds_member (l : list R) (y : R) :
  Forall (fun x => (0 <= x)%R) l -> In y l -> (y <= rsum l)%R.
Proof.
  induction 1 as [| x l Hx Hl IH]; intros Hin; [contradiction |].
  assert (0 <= rsum l)%R.
  { clear - Hl. induction Hl; unfold rsum in *; simpl; lra. }
  unfold rsum in *. simpl. destruct Hin as [-> | Hin]; [lra |].
  specialize (IH Hin). lra.
Qed.

Lemma rsoftmax_range (l : list R) :
  Forall (fun p => (0 < p <= 1)%R) (rsoftmax l).
Proof.
  destruct l as [| x0 l0]; [constructor |].
  set (l := x0 :: l0). assert (Hne : l <> []) by discriminate.
  pose proof (rsum_exp_pos l Hne) as HS.
  unfold rsoftmax. apply Forall_forall. intros p Hp.
  apply in_map_iff in Hp. destruct Hp as [x [<- Hx]].
  pose proof (exp_pos x) as Hx0.
  assert (exp x <= rsum (map exp l))%R.
  { apply rsum_bounds_member; [| now apply in_map].
    apply Forall_forall. intros y Hy. apply in_map_iff in Hy.
    destruct Hy as [z [<- _]]. apply Rlt_le, exp_pos. }
  split.
  - now apply Rdiv_lt_0_compat.
  - apply Rmult_le_reg_r with (r := rsum (map exp l)); [lra |].
    unfold Rdiv. rewrite Rmult_assoc, Rinv_l by lra. lra.
Qed.

Lemma tsub_Fin (a b : list R) :
  tsub (map Fin a) (map Fin b) = map Fin (zip_with Rminus a b).
Proof. apply zip_with_Fin. intros x y. apply fsub_Fin. Qed.

Lemma tadd_Fin (a b : list R) :
  tadd (map Fin a) (map Fin b) = map Fin (zip_with Rplus a b).
Proof. now apply zip_with_Fin. Qed.

Lemma tscale_Fin (a : list R) (c : R) :
  tscale (map Fin a) (Fin c) = map Fin (map (fun x => (x * c)%R) a).
Proof. unfold tscale. now rewrite !map_map. Qed.

(** ** The exact operations obey IEEE 754 *)

Lemma exact_mul_comm (x y : fnum) : exact_mul x y = exact_mul y x.
Proof.
  destruct x as [a | | |], y as [b | | |]; cbn; try reflexivity;
    try (f_equal; lra);
    match goal with
    | |- context [rsign ?c] => destruct (rsign c) as [[|] |]; reflexivity
    end.
Qed.

Lemma exact_ops_ieee754 : ieee754 exact_ops.
Proof.
  constructor.
  - intros y. reflexivity.
  - intros x. now destruct x.
  - intros a. change (Fin (a + - a) = Fin 0). f_equal. lra.
  - split; reflexivity.
  - change (Fin (0 + 0) = Fin 0). f_equal. lra.
  - intros y. reflexivity.
  - intros x. now destruct x.
  - change (Fin (0 * 0) = Fin 0). f_equal. lra.
  - exact exact_mul_comm.
  - intros y. reflexivity.
  - intros x. now destruct x.
  - exact fdiv_zero_zero.
  - reflexivity.
  - rewrite fsqrt_Fin by lra. f_equal. apply sqrt_0.
  - reflexivity.
Qed.

Lemma values_are_finite (l : list R) : Forall (fun x => is_finite x = true) (map Fin l).
Proof. rewrite Forall_map. apply Forall_forall. reflexivity. Qed.

Lemma exact_ops_rounding : rounding exact_ops 0 0.
Proof.
  constructor.
  - lra.
  - lra.
  - intros a b Hab. right. exists (a + - b)%R. split; [reflexivity | lra].
  - intros d Hd. exists (exp d). split; [reflexivity |]. split.
    + left. apply exp_pos.
    + destruct Hd as [Hd | ->]; [| rewrite exp_0; lra].
      rewrite <- exp_0. left. now apply exp_increasing.
  - change (Fin (exp 0) = Fin 1). now rewrite exp_0.
  - reflexivity.
  - intros a b Ha Hb _. exists (a + b)%R. split; [reflexivity | lra].
  - intros a b [Ha Hab] Hb. exists (a / b)%R.
    rewrite fdiv_Fin by lra. split; [reflexivity |].
    assert (Hq : (0 <= a / b <= 1)%R).
    { split.
      - apply Rmult_le_pos; [exact Ha |]. left. apply Rinv_0_lt_compat. lra.
      - apply (Rmult_le_reg_r b); [lra |]. unfold Rdiv. rewrite Rmult_assoc, Rinv_l by lra. lra. }
    split; [exact Hq | lra].
Qed.

Lemma exact_tolerance (n : nat) : softmax_tolerance 0 0 n = 0%R.
Proof.
  unfold softmax_tolerance. rewrite Rminus_0_r, Rplus_0_r, !pow1, Rmult_0_r.
  replace (1 / 1 - 1)%R with 0%R by field. replace (1 - 1 / 1)%R with 0%R by field.
  rewrite Rmax_left by lra. lra.
Qed.

(** ** The example model *)

Lemma rnormalize_axis1 : rnormalize [1%R; 0%R] = [1%R; 0%R].
Proof.
  unfold rnormalize. assert (E : rsumsq [1%R; 0%R] = 1%R) by (unfold rsumsq, rsum; simpl; lra).
  simpl. rewrite E, sqrt_1. f_equal; [lra | f_equal; lra].
Qed.

Lemma rnormalize_axis2 : rnormalize [0%R; 1%R] = [0%R; 1%R].
Proof.
  unfold rnormalize. assert (E : rsumsq [0%R; 1%R] = 1%R) by (unfold rsumsq, rsum; simpl; lra).
  simpl. rewrite E, sqrt_1. f_equal; [lra | f_equal; lra].
Qed.

Lemma example_embedding_north (name : string) :
  embedding (example_clip name) "north" = map Fin [1%R; 0%R].
Proof.
  unfold embedding. change (encode_image (example_clip name) "north") with (map Fin [1%R; 0%R]).
  rewrite normalize_Fin, rnormalize_axis1; [reflexivity |].
  unfold rsumsq, rsum. simpl. lra.
Qed.

Lemma example_embedding_south (name : string) :
  embedding (example_clip name) "south" = map Fin [0%R; 1%R].
Proof.
  unfold embedding. change (encode_image (example_clip name) "south") with (map Fin [0%R; 1%R]).
  rewrite normalize_Fin, rnormalize_axis2; [reflexivity |].
  unfold rsumsq, rsum. simpl. lra.
Qed.

Lemma example_text_embeddings (name : string) (texts : list string) :
  text_embeddings (example_clip name) texts = map (map Fin) (map (fun _ => [1%R; 0%R]) texts).
Proof.
  unfold text_embeddings. rewrite !map_map. apply map_ext. intros t.
  change (encode_text (example_clip name) t) with (map Fin [1%R; 0%R]).
  rewrite normalize_Fin, rnormalize_axis1; [reflexivity |].
  unfold rsumsq, rsum. simpl. lra.
Qed.

Lemma scores_Fin (q : list R) (rows : list (list R)) :
  scores (map Fin q) (map (map Fin) rows)
  = map Fin (map (fun row => (rdot q row * 100)%R) rows).
Proof.
  unfold scores, tscale, matvec. rewrite !map_map. apply map_ext. intros row.
  now rewrite dot_Fin.
Qed.

Lemma example_land_use_scores_finite (name : string) :
  Forall (fun x => is_finite x = true) (land_use_scores (example_clip name) "north").
Proof.
  unfold land_use_scores.
  rewrite example_embedding_north, example_text_embeddings, scores_Fin.
  apply values_are_finite.
Qed.

(** The query [detect_changes] scores for "north" followed by "south" is a
    vector of numbers: the difference (-1, 1) and the blend have non-zero
    norms. *)
Lemma example_change_query (name : string) :
  exists c, change_query (example_clip name) "north" "south" = map Fin c.
Proof.
  unfold change_query, unit_difference. cbv zeta.
  rewrite example_embedding_north, example_embedding_south, tsub_Fin.
  change (tdiv (map Fin ?z) (norm (map Fin ?z))) with (normalize (map Fin z)).
  assert (Hd : rsumsq (zip_with Rminus [0%R; 1%R] [1%R; 0%R]) = 2%R)
    by (unfold rsumsq, rsum, zip_with; simpl; lra).
  rewrite normalize_Fin by (rewrite Hd; lra).
  rewrite tscale_Fin, tadd_Fin.
  change (tdiv (map Fin ?z) (norm (map Fin ?z))) with (normalize (map Fin z)).
  eexists. apply normalize_Fin.
  unfold rnormalize. rewrite Hd. unfold rsumsq, rsum, zip_with. simpl.
  assert (Hs : (0 < sqrt 2)%R) by (apply sqrt_lt_R0; lra).
  assert (Hi : (0 < / sqrt 2)%R) by now apply Rinv_0_lt_compat.
  intros E. unfold Rdiv in E.
  assert (Hp : (0 < 1 + (1 - 0) * / sqrt 2 * 0.5)%R) by nra.
  nra.
Qed.

Lemma example_change_scores_finite (name : string) :
  Forall (fun x => is_finite x = true) (change_scores (example_clip name) "north" "south").
Proof.
  unfold change_scores. destruct (example_change_query name) as [c ->].
  rewrite example_text_embeddings, scores_Fin. apply values_are_finite.
Qed.

Lemma example_dimension : (0 < embed_dim (session_model example_clip example_session))%nat.
Proof. simpl. lia. Qed.

(** ** Instances of the claims *)

Lemma detect_changes_identical_embeddings_witness :
  match fst (detect_changes example_clip topk_stable "north" "north" 3 example_session) with
  | inr r =>
      Z.of_nat (length (detected_changes r)) = 3%Z /\
      Forall (fun c => change_confidence c = NaN) (detected_changes r) /\
      overall_similarity r
      = tsum (zip_with fmul (embedding (session_model example_clip example_session) "north")
                (embedding (session_model example_clip example_session) "north")) /\
      change_magnitude r = py_sub (Fin 1) (overall_similarity r)
  | inl _ => (3 < 0 \/ 15 < 3)%Z
  end.
Proof.
  apply (detect_changes_identical_embeddings example_clip topk_stable example_session
           "north" "north" 3 exact_ops_ieee754 topk_stable_contract example_session_wf).
  - exact example_dimension.
  - reflexivity.
Defined.

(** C1 as stated fails: comparing the image "north" with itself returns
    three change descriptions whose confidences are all NaN.  Nothing in
    the computation depends on the arithmetic being exact: [detect_identical]
    gives the same for every arithmetic that obeys [ieee754]. *)
Lemma detect_changes_same_image_reports_nan :
  exists r s',
    detect_changes example_clip topk_stable "north" "north" 3 example_session = (inr r, s') /\
    map change_confidence (detected_changes r) = [NaN; NaN; NaN].
Proof.
  rewrite (detect_run example_clip topk_stable example_session "north" "north" 3
             example_session_wf).
  pose proof (detect_identical exact_ops_ieee754 topk_stable
                (session_model example_clip example_session)
                "north" "north" 3 topk_stable_contract example_dimension eq_refl) as H.
  destruct (detect_result topk_stable (session_model example_clip example_session)
              "north" "north" 3) as [e | r].
  - lia.
  - destruct H as [Hl [Hn _]]. eexists. eexists. split; [reflexivity |].
    rewrite (all_nan_forall_map _ _ Hn).
    replace (length (detected_changes r)) with 3%nat by lia. reflexivity.
Qed.

Lemma top_k_beyond_catalog_fails_witness :
  fst (classify_land_use example_clip topk_stable "north" 21 example_session)
  = inl (RuntimeError "selected index k out of range") /\
  fst (detect_changes example_clip topk_stable "north" "south" 16 example_session)
  = inl (RuntimeError "selected index k out of range").
Proof.
  split.
  - apply (top_k_beyond_catalog_fails example_clip topk_stable example_session
             "north" "south" 21 topk_stable_contract example_session_wf).
    simpl. lia.
  - apply (top_k_beyond_catalog_fails example_clip topk_stable example_session
             "north" "south" 16 topk_stable_contract example_session_wf).
    simpl. lia.
Defined.

Lemma classify_land_use_length_and_order_witness :
  exists l,
    fst (classify_land_use example_clip topk_stable "north" 3 example_session) = inr l /\
    Z.of_nat (length l) = 3%Z /\
    Z.of_nat (length l) = Z.min 3 (Z.of_nat (length LAND_USE_CATEGORIES)) /\
    sorted_by tge (map confidence l) = true /\
    (Forall (fun c => is_nan (confidence c) = false) l ->
     descending (map confidence l) = true).
Proof.
  apply (proj1 (classify_land_use_length_and_order example_clip topk_stable example_session
                  "north" 3 topk_stable_contract example_session_wf)).
  simpl. lia.
Defined.

(** C3 as stated fails: [top_k = 21] is positive and min(21, 20) is 20, but
    [classify_land_use] returns no list of 20 entries, it raises. *)
Lemma classify_beyond_catalog_returns_no_ranking :
  (0 < 21)%Z /\
  Z.min 21 (Z.of_nat (length LAND_USE_CATEGORIES)) = 20%Z /\
  fst (classify_land_use example_clip topk_stable "north" 21 example_session)
  = inl (RuntimeError "selected index k out of range").
Proof.
  split; [lia |]. split; [reflexivity |].
  rewrite (classify_run example_clip topk_stable example_session "north" 21
             example_session_wf).
  cbn [fst]. unfold classify_result. apply (ranking_fails topk_stable topk_stable_contract).
  rewrite land_use_probs_length. right. lia.
Qed.

Lemma analyze_rejects_short_sequences_witness :
  analyze_temporal_sequence example_clip topk_stable ["north"] None example_session
  = (inl (ValueError "Need at least 2 images for temporal analysis"),
     loaded example_clip example_session)
  /\ calls (loaded example_clip example_session) = [LoadModel "ViT-B-32"].
Proof.
  apply (analyze_rejects_short_sequences example_clip topk_stable example_session
           ["north"] None).
  simpl. lia.
Defined.

Lemma analyze_temporal_sequence_entries_witness :
  let m := session_model example_clip example_session in
  let image_paths := ["north"; "south"; "north"] in
  let dates := Some ["2015"; "2018"; "2021"] in
  exists r s',
    analyze_temporal_sequence example_clip topk_stable image_paths dates example_session
    = (inr r, s') /\
    num_images r = 3%Z /\
    length (individual_classifications r) = 3%nat /\
    Forall2 (individual_entry topk_stable m dates)
      (enumerate image_paths) (individual_classifications r) /\
    length (pairwise_changes r) = 2%nat /\
    Forall2 (pairwise_entry topk_stable m image_paths dates)
      (range 2) (pairwise_changes r) /\
    exists t, overall_trend r = Some t /\ trend_entry topk_stable m image_paths t.
Proof.
  apply (analyze_temporal_sequence_entries example_clip topk_stable example_session
           ["north"; "south"; "north"] (Some ["2015"; "2018"; "2021"])
           topk_stable_contract example_session_wf).
  - simpl. lia.
  - simpl. lia.
Defined.

Lemma detect_changes_overall_similarity_witness :
  let m := session_model example_clip example_session in
  let unit_norm (raw : tensor) : tensor :=
    map (fun x => fdiv x (fsqrt (fold_right fadd (Fin 0) (map (fun y => fmul y y) raw)))) raw in
  let v_a := unit_norm (encode_image m "north") in
  let v_b := unit_norm (encode_image m "south") in
  match fst (detect_changes example_clip topk_stable "north" "south" 3 example_session) with
  | inr r =>
      overall_similarity r
      = fold_right fadd (Fin 0) (map (fun ab => fmul (fst ab) (snd ab)) (combine v_a v_b)) /\
      change_magnitude r = py_sub (Fin 1) (overall_similarity r)
  | inl _ => (3 < 0 \/ 15 < 3)%Z
  end.
Proof.
  exact (detect_changes_overall_similarity example_clip topk_stable example_session
           "north" "south" 3 topk_stable_contract example_session_wf).
Defined.

Lemma scoring_selects_top_k_witness :
  let m := session_model example_clip example_session in
  let scored (query : tensor) (candidates : list tensor) : tensor :=
    map (fun similarity => fmul similarity (Fin 100))
      (map (fun row =>
              fold_right fadd (Fin 0) (map (fun qr => fmul (fst qr) (snd qr)) (combine query row)))
         candidates) in
  match fst (classify_land_use example_clip topk_stable "north" 3 example_session) with
  | inr l =>
      exists vals idxs,
        l = map (labelled LAND_USE_CATEGORIES mk_land_use) (combine vals idxs) /\
        top_selection
          (softmax (scored (embedding m "north") (text_embeddings m LAND_USE_CATEGORIES)))
          3 vals idxs
  | inl _ => (3 < 0 \/ 20 < 3)%Z
  end.
Proof.
  exact (proj1 (scoring_selects_top_k example_clip topk_stable example_session
                  "north" "south" 3 topk_stable_contract example_session_wf)).
Defined.

(** C7 as stated fails in its tie rule.  In the example model the twenty
    categories have one and the same confidence, so that breaking ties by
    the lower index would make the first category the top-1 result whatever
    [topk] does.  The code has no tie rule of its own, and what is required
    of [topk] does not supply one: [topk_reversed] meets it and leads to
    another category. *)
Lemma tie_order_is_left_to_topk :
  let probs := land_use_probs (session_model example_clip example_session) "north" in
  (forall i, (i < 20)%nat -> nth_error probs i = nth_error probs 0) /\
  ~ (forall topk : topk_fn,
       topk_contract topk ->
       forall c s',
         classify_land_use example_clip topk "north" 1 example_session = (inr [c], s') ->
         category c = "urban area with buildings and roads").
Proof.
  cbn zeta. destruct (reversed_selection_on_ties "north") as [v [s' [E ->]]]. split.
  - intros i Hi. rewrite !nth_error_repeat by lia. reflexivity.
  - intros H. specialize (H topk_reversed topk_reversed_contract _ _ E).
    cbn [category] in H. discriminate H.
Qed.

Lemma confidence_distribution_normalised_witness :
  let m := session_model example_clip example_session in
  (Forall in_unit_interval (softmax (land_use_scores m "north")) /\
   (Rabs (rsum (map value (softmax (land_use_scores m "north"))) - 1) <= 0)%R) /\
  (Forall in_unit_interval (softmax (change_scores m "north" "south")) /\
   (Rabs (rsum (map value (softmax (change_scores m "north" "south"))) - 1) <= 0)%R) /\
  (all_nan (softmax (change_scores m "north" "north")) /\
   tsum (softmax (change_scores m "north" "north")) = NaN).
Proof.
  cbn zeta.
  pose proof (confidence_distribution_normalised example_clip topk_stable example_session
                "north" "south" 3 0%R 0%R exact_ops_ieee754 exact_ops_rounding
                topk_stable_contract example_session_wf) as [_ [_ [H1 [H2 _]]]].
  pose proof (confidence_distribution_normalised example_clip topk_stable example_session
                "north" "north" 3 0%R 0%R exact_ops_ieee754 exact_ops_rounding
                topk_stable_contract example_session_wf) as [_ [_ [_ [_ H3]]]].
  rewrite exact_tolerance in H1, H2.
  split; [| split].
  - apply H1, example_land_use_scores_finite.
  - apply H2, example_change_scores_finite.
  - apply H3; [exact example_dimension | reflexivity].
Defined.

(** C8 as stated fails: for the image "north" compared with itself the
    distribution over the fifteen change descriptions is NaN in every entry,
    so it does not sum to 1, and [detect_changes] with [top_k = 15] reports
    exactly these fifteen NaN confidences. *)
Lemma change_distribution_of_same_image_is_nan :
  let m := session_model example_clip example_session in
  change_probs m "north" "north" = repeat NaN 15 /\
  tsum (change_probs m "north" "north") = NaN /\
  exists r s',
    detect_changes example_clip topk_stable "north" "north" 15 example_session = (inr r, s') /\
    map change_confidence (detected_changes r) = repeat NaN 15.
Proof.
  cbn zeta. set (m := session_model example_clip example_session).
  pose proof (equal_embeddings_all_nan exact_ops_ieee754 m "north" "north"
                example_dimension eq_refl) as Hn.
  assert (Hp : change_probs m "north" "north" = repeat NaN 15).
  { rewrite (all_nan_repeat _ Hn). now rewrite change_probs_length. }
  split; [exact Hp |]. split; [rewrite Hp; reflexivity |].
  rewrite (detect_run example_clip topk_stable example_session "north" "north" 15
             example_session_wf).
  pose proof (detect_identical exact_ops_ieee754 topk_stable m "north" "north" 15
                topk_stable_contract example_dimension eq_refl) as H.
  fold m. destruct (detect_result topk_stable m "north" "north" 15) as [e | r].
  - lia.
  - destruct H as [Hl [Hc _]]. eexists. eexists. split; [reflexivity |].
    rewrite (all_nan_forall_map _ _ Hc).
    replace (length (detected_changes r)) with 15%nat by lia. reflexivity.
Qed.


Lemma get_analyzer_reuses_or_replaces_witness :
  let g := snd (get_analyzer false "ViT-B-32" initial_globals) in
  (fst (get_analyzer false "ViT-B-32" g) = 0%nat /\ snd (get_analyzer false "ViT-B-32" g) = g) /\
  fst (get_analyzer false "RN50" g) <> 0%nat.
Proof.
  cbn zeta.
  pose proof (get_analyzer_reuses_or_replaces false "ViT-B-32"
                (snd (get_analyzer false "ViT-B-32" initial_globals)) 0
                (__init__ false "ViT-B-32" None) eq_refl eq_refl) as [H1 _].
  pose proof (get_analyzer_reuses_or_replaces false "RN50"
                (snd (get_analyzer false "ViT-B-32" initial_globals)) 0
                (__init__ false "ViT-B-32" None) eq_refl eq_refl) as [_ [H2 _]].
  split.
  - apply H1. reflexivity.
  - apply H2. simpl. discriminate.
Defined.

Lemma top_k_negative_or_zero_witness :
  fst (classify_land_use example_clip topk_stable "north" (-1) example_session)
  = inl (RuntimeError "selected index k out of range") /\
  fst (classify_land_use example_clip topk_stable "north" 0 example_session) = inr [].
Proof.
  pose proof (top_k_negative_or_zero example_clip topk_stable example_session
                "north" "south" (-1) topk_stable_contract example_session_wf) as [H1 [H2 _]].
  split; [apply H1; lia | exact H2].
Defined.

Lemma rankings_have_distinct_labels_witness :
  match fst (classify_land_use example_clip topk_stable "north" 3 example_session) with
  | inr l =>
      NoDup (map category l) /\ Forall (fun c => In (category c) LAND_USE_CATEGORIES) l
  | inl _ => True
  end.
Proof.
  exact (proj1 (rankings_have_distinct_labels example_clip topk_stable example_session
                  "north" "south" 3 topk_stable_contract example_session_wf)).
Defined.

Lemma full_catalog_ranking_witness :
  let m := session_model example_clip example_session in
  exists l,
    fst (classify_land_use example_clip topk_stable "north" 20 example_session) = inr l /\
    Permutation (map category l) LAND_USE_CATEGORIES /\
    Permutation (map confidence l) (land_use_probs m "north").
Proof.
  exact (proj1 (full_catalog_ranking example_clip topk_stable example_session "north" "south"
                  topk_stable_contract example_session_wf)).
Defined.

Lemma similarity_is_symmetric_witness :
  exists r r',
    fst (compare_images example_clip topk_stable "north" "south" example_session) = inr r /\
    fst (compare_images example_clip topk_stable "south" "north" example_session) = inr r' /\
    similarity r = similarity r' /\
    change_detected r = change_detected r' /\
    image1_classification r = image2_classification r' /\
    image2_classification r = image1_classification r'.
Proof.
  exact (proj2 (similarity_is_symmetric example_clip topk_stable example_session
                  "north" "south" 3 exact_ops_ieee754 topk_stable_contract
                  example_session_wf)).
Defined.


Lemma top_category_confidence_witness :
  exists c rest,
    fst (classify_land_use example_clip topk_stable "north" 3 example_session)
    = inr (c :: rest) /\
    In (confidence c) (land_use_probs (session_model example_clip example_session) "north") /\
    Forall (fun x => tge (confidence c) x = true)
      (land_use_probs (session_model example_clip example_session) "north") /\
    (is_nan (confidence c) = false ->
     Forall (fun x => is_nan x = false /\ fle x (confidence c) = true)
       (land_use_probs (session_model example_clip example_session) "north")).
Proof.
  apply (top_category_confidence example_clip topk_stable example_session "north" 3
           topk_stable_contract example_session_wf).
  lia.
Defined.

Lemma nan_score_poisons_the_ranking_witness :
  match fst (detect_changes example_clip topk_stable "north" "north" 3 example_session) with
  | inr r =>
      Z.of_nat (length (detected_changes r)) = 3%Z /\
      Forall (fun c => change_confidence c = NaN) (detected_changes r)
  | inl _ => (3 < 0 \/ 15 < 3)%Z
  end.
Proof.
  apply (proj2 (nan_score_poisons_the_ranking example_clip topk_stable example_session
                  "north" "north" 3 exact_ops_ieee754 topk_stable_contract
                  example_session_wf)).
  apply all_nan_in.
  - exact (equal_embeddings_scores exact_ops_ieee754 _ "north" "north"
             example_dimension eq_refl).
  - apply nonempty_length. rewrite change_scores_length. lia.
Defined.

Lemma analyze_call_log_witness :
  snd (analyze_temporal_sequence example_clip topk_stable ["north"; "south"; "north"] None
         example_session)
  = log (loaded example_clip example_session) (analyze_calls ["north"; "south"; "north"]) /\
  count_calls is_image_call (analyze_calls ["north"; "south"; "north"]) = 12%nat /\
  count_calls is_text_call (analyze_calls ["north"; "south"; "north"]) = 6%nat /\
  count_calls is_load (analyze_calls ["north"; "south"; "north"]) = 0%nat.
Proof.
  apply (analyze_call_log example_clip topk_stable example_session
           ["north"; "south"; "north"] None topk_stable_contract example_session_wf).
  - simpl. lia.
  - exact I.
Defined.

Lemma compare_images_call_log_witness :
  calls (snd (compare_images example_clip topk_stable "north" "south" example_session))
  = [LoadModel "ViT-B-32";
     EncodeImage "north"; EncodeImage "south";
     EncodeImage "north"; EncodeTexts LAND_USE_CATEGORIES;
     EncodeImage "south"; EncodeTexts LAND_USE_CATEGORIES].
Proof.
  rewrite (compare_images_call_log example_clip topk_stable example_session "north" "south"
             topk_stable_contract example_session_wf).
  reflexivity.
Defined.

Lemma model_is_loaded_once_witness :
  let s1 := snd (classify_land_use example_clip topk_stable "north" 3 example_session) in
  calls s1 = [LoadModel "ViT-B-32"; EncodeImage "north"; EncodeTexts LAND_USE_CATEGORIES] /\
  count_calls is_load
    (calls (snd (detect_changes example_clip topk_stable "north" "south" 3 s1))) = 1%nat.
Proof.
  destruct (model_is_loaded_once example_clip topk_stable example_session
              "north" "north" "south" 3 3 example_session_wf) as [_ [_ [H1 [_ H2]]]].
  split; [exact H1 | exact H2].
Defined.

Lemma two_images_trend_is_the_pairwise_change_witness :
  exists r pc t,
    fst (analyze_temporal_sequence example_clip topk_stable ["north"; "south"] None
           example_session) = inr r /\
    pairwise_changes r = [pc] /\
    overall_trend r = Some t /\
    total_change_magnitude t = change_magnitude (analysis pc) /\
    primary_changes t = detected_changes (analysis pc).
Proof.
  exact (two_images_trend_is_the_pairwise_change example_clip topk_stable example_session
           "north" "south" None topk_stable_contract example_session_wf I).
Defined.

Lemma report_of_analysis_line_count_witness :
  exists r lines,
    fst (analyze_temporal_sequence example_clip topk_stable ["north"; "south"; "north"]
           (Some ["2015"; "2018"; "2021"]) example_session) = inr r /\
    report_lines example_format r = inr lines /\
    generate_report example_format r = inr (String.concat newline lines) /\
    length lines = 33%nat.
Proof.
  apply (report_of_analysis_line_count example_format example_clip topk_stable
           example_session ["north"; "south"; "north"] (Some ["2015"; "2018"; "2021"])
           topk_stable_contract example_session_wf).
  - simpl. lia.
  - simpl. lia.
Defined.

Lemma report_change_headers_witness :
  exists r lines,
    fst (analyze_temporal_sequence example_clip topk_stable ["north"; "south"; "north"] None
           example_session) = inr r /\
    report_lines example_format r = inr lines /\
    nth_error lines 15 = Some "  None → None:" /\
    nth_error lines 18 = Some "  None → None:".
Proof.
  destruct (report_change_headers example_format example_clip topk_stable example_session
              ["north"; "south"; "north"] None topk_stable_contract example_session_wf)
    as [r [lines [E [El H]]]]; [simpl; lia | exact I |].
  exists r, lines. split; [exact E |]. split; [exact El |]. split.
  - exact (proj2 (H 0%nat ltac:(simpl; lia)) eq_refl).
  - exact (proj2 (H 1%nat ltac:(simpl; lia)) eq_refl).
Defined.

Lemma report_fails_on_empty_rankings_witness :
  generate_report example_format example_empty_classification
  = inl (IndexError "list index out of range").
Proof.
  apply (report_fails_on_empty_rankings example_format example_empty_classification).
  left. constructor. reflexivity.
Defined.

Lemma get_analyzer_sequence_witness :
  fst (get_analyzer_calls false ["ViT-B-32"; "ViT-B-32"; "RN50"; "ViT-B-32"] initial_globals)
  = [0; 0; 1; 2]%nat /\
  globals_wf (snd (get_analyzer_calls false ["ViT-B-32"; "ViT-B-32"; "RN50"; "ViT-B-32"]
                     initial_globals)).
Proof.
  split; [reflexivity |].
  exact (proj1 (get_analyzer_sequence false ["ViT-B-32"; "ViT-B-32"; "RN50"; "ViT-B-32"]
                  initial_globals I)).
Defined.

Lemma get_analyzer_switching_back_witness :
  let g := snd (get_analyzer false "ViT-B-32" initial_globals) in
  let g1 := snd (get_analyzer false "RN50" g) in
  fst (get_analyzer false "ViT-B-32" g1) <> 0%nat /\
  length (heap (snd (get_analyzer false "ViT-B-32" g1))) = 3%nat.
Proof.
  cbn zeta.
  destruct (get_analyzer_switching_back false "RN50"
              (snd (get_analyzer false "ViT-B-32" initial_globals)) 0
              (__init__ false "ViT-B-32" None) eq_refl eq_refl)
    as [_ [H2 [_ [_ [_ H6]]]]].
  - simpl. discriminate.
  - split; [exact H2 | exact H6].
Defined.

Lemma analyze_raises_on_short_dates_witness :
  fst (analyze_temporal_sequence example_clip topk_stable ["north"; "south"; "north"]
         (Some ["2015"; "2018"]) example_session)
  = inl (IndexError "list index out of range").
Proof.
  rewrite (analyze_raises_on_short_dates example_clip topk_stable example_session
             ["north"; "south"; "north"] ["2015"; "2018"]
             topk_stable_contract example_session_wf); [reflexivity | simpl; lia | simpl; lia].
Defined.
